(** * Housing-price direction agent: state encoder, environment, tabular
      Q-learning and scenario forecast

    A shallow embedding of [src/state_encoder.py], [src/environment.py],
    [src/qlearning.py], the forecasting half of [src/api.py] and the
    labelling steps of [src/preprocess.py] and [src/macro_features.py].

    Conventions of the embedding:
    - Python [int] is [Z]; a finite Python [float] is the rational [Q] it
      denotes, with a separate [NaN] value where the code tests for it
      ([pyfloat]).  The arithmetic of the Q-update, of the exploration
      rate and of the price change rounds to binary64 ([round64]); the
      means and the compounded prices of the forecast are exact.
    - An exception is a [Raise] result; functions that can raise return
      [result].
    - pandas [DataFrame]s are lists of rows indexed from 0 (the code always
      works on a frame whose index was reset).
    - The global numpy random source is a tape of draws read at a cursor. *)

From Stdlib Require Import ZArith QArith Qminmax Qabs Qpower Qround.
From Stdlib Require Import Lia Lqa Ascii.
From stdpp Require Import gmap list strings pretty.

(** ** Exceptions *)

Inductive exn : Set :=
| ValueError
| RuntimeError
| KeyError
| IndexError
| OverflowError
| ZeroDivisionError.

Inductive result (A : Type) : Type :=
| Ok (a : A)
| Raise (e : exn).

Arguments Ok {A} a.
Arguments Raise {A} e.

#[global] Instance result_ret : MRet result := fun _ a => Ok a.
#[global] Instance result_bind : MBind result := fun _ _ f m =>
  match m with
  | Ok a => f a
  | Raise e => Raise e
  end.

#[global] Instance result_fmap : FMap result := fun _ _ f m =>
  match m with
  | Ok a => Ok (f a)
  | Raise e => Raise e
  end.

(** ** Python values and floats *)

(** A value handed to [int(...)].  [PyInt z] stands for every value on which
    [int] succeeds and returns [z]; [PyNotInt] for every value on which it
    raises (None, NaN, free text). *)
Inductive pyobj : Set :=
| PyInt (z : Z)
| PyNotInt.

Definition py_int (v : pyobj) : option Z :=
  match v with
  | PyInt z => Some z
  | PyNotInt => None
  end.

Inductive pyfloat : Set :=
| Fin (q : Q)
| NaN.

Definition isfinite (x : pyfloat) : bool :=
  match x with Fin _ => true | NaN => false end.

Definition fadd (x y : pyfloat) : pyfloat :=
  match x, y with
  | Fin a, Fin b => Fin (a + b)
  | _, _ => NaN
  end.

Definition fmul (x y : pyfloat) : pyfloat :=
  match x, y with
  | Fin a, Fin b => Fin (a * b)
  | _, _ => NaN
  end.

(** ** Binary64 arithmetic

    The float operations whose rounding the code's behaviour depends on
    are modelled as the exact operation followed by [round64]. *)

Module Binary64.

Local Open Scope Q_scope.

(** [floor(log2 x)] for a positive rational, from the bit lengths of its
    numerator and denominator. *)
Definition ilog2 (x : Q) : Z :=
  let k := (Z.log2 (Qnum x) - Z.log2 (Zpos (Qden x)))%Z in
  if Qle_bool (2 ^ k) x then k else (k - 1)%Z.

(** The nearest integer, ties to the even one. *)
Definition round_half_even (a : Q) : Z :=
  let f := Qfloor a in
  match Qcompare (a - inject_Z f) (1 # 2) with
  | Lt => f
  | Gt => (f + 1)%Z
  | Eq => if Z.even f then f else (f + 1)%Z
  end.

(** The exponent of the unit in the last place of a magnitude: 53
    significant bits, and no exponent below that of the subnormals. *)
Definition exponent (y : Q) : Z := Z.max (-1074) (ilog2 y - 52).

(** Round-to-nearest-even of a magnitude to a multiple of its unit in the
    last place. *)
Definition round_magnitude (y : Q) : Q :=
  let e := exponent y in
  inject_Z (round_half_even (y / 2 ^ e)) * 2 ^ e.

(** The binary64 value nearest to the real [x].  The exponent is not
    bounded above: a result of magnitude [2^1024] or more stands for an
    overflow, which the callers test for where the code does. *)
Definition round64 (x : Q) : Q :=
  if Qle_bool 0 x then round_magnitude x else - round_magnitude (- x).

(** Unit roundoff and the least positive magnitude halved. *)
Definition u64 : Q := 1 # 9007199254740992.
Definition eta64 : Q := 2 ^ (-1075).

(** A value the format holds exactly. *)
Definition float64 (v : Q) : Prop := round64 v == v.

End Binary64.

(** ** src/state_encoder.py *)

Module StateEncoder.

Local Open Scope Z_scope.

Definition DIRECTION_TO_ID : gmap Z Z := {[ -1 := 0; 0 := 1; 1 := 2 ]}.

(** [{v: k for k, v in DIRECTION_TO_ID.items()}] *)
Definition ID_TO_DIRECTION : gmap Z Z :=
  list_to_map (prod_swap <$> map_to_list DIRECTION_TO_ID).

Definition POP_TREND_TO_ID : gmap Z Z := {[ -1 := 0; 0 := 1; 1 := 2 ]}.

Definition ID_TO_POP_TREND : gmap Z Z :=
  list_to_map (prod_swap <$> map_to_list POP_TREND_TO_ID).

Definition encode_direction (direction : pyobj) : Z :=
  let d := match py_int direction with Some d => d | None => 0 end in
  default 1 (DIRECTION_TO_ID !! d).

Definition decode_direction (state_id : pyobj) : Z :=
  let s := match py_int state_id with Some s => s | None => 1 end in
  default 0 (ID_TO_DIRECTION !! s).

Definition encode_rate_level (level : pyobj) : Z :=
  let x := match py_int level with Some x => x | None => 1 end in
  let x := if x <? 0 then 0 else x in
  let x := if 2 <? x then 2 else x in
  x.

Definition encode_pop_trend (trend : pyobj) : Z :=
  let t := match py_int trend with Some t => t | None => 0 end in
  default 1 (POP_TREND_TO_ID !! t).

Definition encode_state (direction rate_level pop_trend : pyobj) : Z :=
  let dir_id := encode_direction direction in
  let rate_id := encode_rate_level rate_level in
  let pop_id := encode_pop_trend pop_trend in
  dir_id * 9 + rate_id * 3 + pop_id.

(** The three-valued domains of the feature table. *)
Definition valid_direction (d : Z) : Prop := d = -1 \/ d = 0 \/ d = 1.
Definition valid_rate_level (r : Z) : Prop := r = 0 \/ r = 1 \/ r = 2.
Definition valid_pop_trend (p : Z) : Prop := p = -1 \/ p = 0 \/ p = 1.

Definition all_directions : list Z := [-1; 0; 1].
Definition all_rate_levels : list Z := [0; 1; 2].
Definition all_pop_trends : list Z := [-1; 0; 1].

(** [encode_state] over the 27 valid triples, in lexicographic order. *)
Definition all_state_ids : list Z :=
  d ← all_directions; r ← all_rate_levels; p ← all_pop_trends;
  [encode_state (PyInt d) (PyInt r) (PyInt p)].

(** [describe_direction] calls [int(direction)] unguarded: [None] stands
    for the exception [int] raises, which propagates to the caller. *)
Definition describe_direction (direction : pyobj) : option string :=
  d ← py_int direction;
  Some (if d =? -1 then "하락" else if d =? 1 then "상승" else "보합").

End StateEncoder.

(** ** Feature table *)

Record Row : Set := mkRow {
  ym : string;
  mean_price : pyfloat;
  pct_change : pyfloat;
  direction : Z;
  rate_level : Z;
  pop_trend : Z
}.

(** [pct_change_column] records whether the frame has a ["pct_change"]
    column at all (the forecast tests for it). *)
Record DataFrame : Set := mkDataFrame {
  pct_change_column : bool;
  rows : list Row
}.

(** [df.loc[idx]] on a frame with the default 0..n-1 index. *)
Definition df_loc (df : DataFrame) (idx : Z) : result Row :=
  if (idx <? 0)%Z then Raise KeyError
  else match rows df !! Z.to_nat idx with
       | Some r => Ok r
       | None => Raise KeyError
       end.

Definition df_len (df : DataFrame) : Z := Z.of_nat (length (rows df)).

(** ** src/environment.py *)

Module Environment.

Import StateEncoder.
Local Open Scope Z_scope.

Inductive Info : Set :=
| InfoStep (current_ym next_ym : string) (true_direction_next : Z)
           (true_direction_label : string)
| InfoMsg (msg : string).

Record HousingEnv : Set := mkEnv {
  df : DataFrame;
  num_rows : Z;
  max_step_index : Z;
  current_idx : option Z
}.

Definition set_current_idx (self : HousingEnv) (i : Z) : HousingEnv :=
  {| df := df self; num_rows := num_rows self;
     max_step_index := max_step_index self; current_idx := Some i |}.

(** [HousingEnv.__init__] (the warning it prints is not modelled). *)
Definition init (monthly_df : DataFrame) : HousingEnv :=
  let n := df_len monthly_df in
  {| df := monthly_df; num_rows := n; max_step_index := n - 2;
     current_idx := None |}.

Definition _get_state (self : HousingEnv) (idx : Z) : result Z :=
  row ← df_loc (df self) idx;
  Ok (encode_state (PyInt (direction row)) (PyInt (rate_level row))
                   (PyInt (pop_trend row))).

Definition reset (self : HousingEnv) : result (HousingEnv * Z) :=
  if num_rows self <? 2 then Raise ValueError
  else
    let self := set_current_idx self 0 in
    state ← _get_state self 0;
    Ok (self, state).

(** The id (0/1/2) of the true direction of the next row, as [step]
    computes it: by sign. *)
Definition true_action_id (true_direction_next : Z) : Z :=
  if true_direction_next <? 0 then 0
  else if 0 <? true_direction_next then 2
  else 1.

(** [{-1: "하락", 0: "보합", 1: "상승"}.get(d, "알수없음")] *)
Definition direction_label (d : Z) : string :=
  if d =? -1 then "하락"
  else if d =? 0 then "보합"
  else if d =? 1 then "상승"
  else "알수없음".

(** [step] returns the environment after the call together with
    [(next_state, reward, done, info)]. *)
Definition step (self : HousingEnv) (action : Z)
  : result (HousingEnv * (Z * Q * bool * Info)) :=
  match current_idx self with
  | None => Raise RuntimeError
  | Some idx =>
    if max_step_index self <? idx then
      s ← _get_state self idx;
      Ok (self, (s, 0%Q, true, InfoMsg "에피소드 종료 상태에서 step 호출"))
    else
      let t := idx in
      let t_next := t + 1 in
      row_next ← df_loc (df self) t_next;
      let true_direction_next := direction row_next in
      let reward :=
        if action =? true_action_id true_direction_next then 1%Q else (-1)%Q in
      let self := set_current_idx self t_next in
      next_state ← _get_state self t_next;
      let done := max_step_index self + 1 <=? t_next in
      row_t ← df_loc (df self) t;
      let info := InfoStep (ym row_t) (ym row_next) true_direction_next
                           (direction_label true_direction_next) in
      Ok (self, (next_state, reward, done, info))
  end.

(** Environments that a program can hold: built by [init] and then driven
    by [reset] and [step]. *)
Inductive reachable (d : DataFrame) : HousingEnv -> Prop :=
| reach_init : reachable d (init d)
| reach_reset e e' s :
    reachable d e -> reset e = Ok (e', s) -> reachable d e'
| reach_step e a e' out :
    reachable d e -> step e a = Ok (e', out) -> reachable d e'.

End Environment.

(** ** numpy helpers *)

Module Numpy.

Local Open Scope Z_scope.

Definition Qlt_bool (a b : Q) : bool := negb (Qle_bool b a).

(** Python's [max(a, b)]: the first argument unless the second is larger. *)
Definition py_max (a b : Q) : Q := if Qlt_bool a b then b else a.

(** Position addressed by index [i] in an axis of length [n]; negative
    indices count from the end, anything outside raises [IndexError]. *)
Definition np_pos (n : nat) (i : Z) : result nat :=
  let j := if i <? 0 then i + Z.of_nat n else i in
  if (j <? 0) || (Z.of_nat n <=? j) then Raise IndexError
  else Ok (Z.to_nat j).

Definition np_index {A} (l : list A) (i : Z) : result A :=
  k ← np_pos (length l) i;
  match l !! k with
  | Some x => Ok x
  | None => Raise IndexError
  end.

(** [np.zeros((num_states, num_actions))] *)
Definition np_zeros (num_states num_actions : Z) : result (list (list Q)) :=
  if (num_states <? 0) || (num_actions <? 0) then Raise ValueError
  else Ok (replicate (Z.to_nat num_states)
                     (replicate (Z.to_nat num_actions) 0%Q)).

(** Scan for [np.argmax]: [best_i] is the index of the first largest value
    [best] seen so far, [i] the index of the head of the rest. *)
Fixpoint argmax_from (best_i : Z) (best : Q) (i : Z) (l : list Q) : Z :=
  match l with
  | [] => best_i
  | x :: l' =>
      if Qlt_bool best x then argmax_from i x (i + 1) l'
      else argmax_from best_i best (i + 1) l'
  end.

Definition np_argmax (row : list Q) : result Z :=
  match row with
  | [] => Raise ValueError
  | x :: l => Ok (argmax_from 0 x 1 l)
  end.

Definition np_max (row : list Q) : result Q :=
  match row with
  | [] => Raise ValueError
  | x :: l => Ok (fold_left py_max l x)
  end.

(** [Q[s, a]] and the in-place store [Q[s, a] = v]. *)
Definition np_get2 (Qt : list (list Q)) (s a : Z) : result Q :=
  row ← np_index Qt s; np_index row a.

Definition np_set2 (Qt : list (list Q)) (s a : Z) (v : Q)
  : result (list (list Q)) :=
  i ← np_pos (length Qt) s;
  row ← np_index Qt s;
  j ← np_pos (length row) a;
  Ok (<[i := <[j := v]> row]> Qt).

(** The global random source: a tape of draws and a cursor.  [rand_tape]
    holds the outcomes of [np.random.rand()], [randint_tape] the raw
    outcomes from which [np.random.randint(high)] takes a value in
    [0, high). *)
Record RandomState : Type := mkRandomState {
  rand_tape : nat -> Q;
  randint_tape : nat -> Z;
  cursor : nat
}.

Definition advance (g : RandomState) : RandomState :=
  {| rand_tape := rand_tape g; randint_tape := randint_tape g;
     cursor := S (cursor g) |}.

Definition np_random_rand (g : RandomState) : Q * RandomState :=
  (rand_tape g (cursor g), advance g).

Definition np_random_randint (high : Z) (g : RandomState)
  : result (Z * RandomState) :=
  if high <=? 0 then Raise ValueError
  else Ok (randint_tape g (cursor g) mod high, advance g).

End Numpy.

(** ** src/qlearning.py *)

Module QLearning.

Import Binary64 Environment Numpy.
Local Open Scope Z_scope.

(** Local variables of the inner [while not done] loop of
    [train_q_learning], together with the objects it mutates. *)
Record TrainState : Type := mkTrainState {
  ts_env : HousingEnv;
  ts_Q : list (list Q);
  ts_state : Z;
  ts_done : bool;
  ts_total_reward : Q;
  ts_rng : RandomState
}.

(** The temporal-difference update
    [Q[state, action] += alpha * td_error], where [td_error] is
    [reward + gamma * max(Q[next_state]) - Q[state, action]]; each of the
    five float operations rounds.  (Where numpy would store an infinity
    the entry is a rational of magnitude [2^1024] or more.) *)
Definition q_update (alpha gamma : Q) (Qt : list (list Q))
    (state action : Z) (reward : Q) (next_state : Z)
  : result (list (list Q)) :=
  row_next ← np_index Qt next_state;
  best_next ← np_max row_next;
  let td_target := round64 (reward + round64 (gamma * best_next)) in
  q_sa ← np_get2 Qt state action;
  let td_error := round64 (td_target - q_sa) in
  np_set2 Qt state action (round64 (q_sa + round64 (alpha * td_error))).

(** One pass through the body of the inner loop. *)
Definition train_iteration (num_actions : Z) (alpha gamma epsilon : Q)
    (st : TrainState) : result TrainState :=
  let '(u, g) := np_random_rand (ts_rng st) in
  '(action, g) ←
    (if Qlt_bool u epsilon then np_random_randint num_actions g
     else row ← np_index (ts_Q st) (ts_state st);
          a ← np_argmax row;
          Ok (a, g));
  '(env, (next_state, reward, done, _)) ← step (ts_env st) action;
  Qt ← q_update alpha gamma (ts_Q st) (ts_state st) action reward next_state;
  Ok {| ts_env := env; ts_Q := Qt; ts_state := next_state; ts_done := done;
        ts_total_reward := (ts_total_reward st + reward)%Q; ts_rng := g |}.

(** [while not done: ...], run for at most [fuel] passes.  Leaving with
    [ts_done = false] means the bound was reached first. *)
Fixpoint train_loop (fuel : nat) (num_actions : Z) (alpha gamma epsilon : Q)
    (st : TrainState) : result TrainState :=
  if ts_done st then Ok st
  else match fuel with
       | O => Ok st
       | S fuel' =>
           st' ← train_iteration num_actions alpha gamma epsilon st;
           train_loop fuel' num_actions alpha gamma epsilon st'
       end.

(** Python's [x ** k] for a float [x] and an int [k]: the power rounded
    to binary64 (the C library's [pow] is taken to round correctly).  It
    raises [OverflowError] when the result is too large for a float, and
    [ZeroDivisionError] on a negative power of zero. *)
Definition float_pow (x : Q) (k : Z) : result Q :=
  if Qeq_bool x 0 && (k <? 0) then Raise ZeroDivisionError
  else
    let p := round64 (x ^ k) in
    if Qle_bool (2 ^ 1024) (Qabs p) then Raise OverflowError else Ok p.

(** [max(epsilon_end, epsilon_start * (epsilon_decay ** ep))] *)
Definition epsilon_of (epsilon_start epsilon_end epsilon_decay : Q) (ep : Z)
  : result Q :=
  p ← float_pow epsilon_decay ep;
  Ok (py_max epsilon_end (round64 (epsilon_start * p))).

(** What [train_q_learning] leaves behind: its return value
    [(Q, episode_rewards)] and the mutated environment and random source. *)
Record Trained : Type := mkTrained {
  tr_Q : list (list Q);
  tr_episode_rewards : list Q;
  tr_env : HousingEnv;
  tr_rng : RandomState
}.

Section Train.

Variables (num_states num_actions : Z) (alpha gamma : Q).
Variables (epsilon_start epsilon_end epsilon_decay : Q).

(** One iteration of [for ep in range(episodes)].  [None] means the
    inner loop was cut by [fuel] before the episode ended. *)
Definition train_episode (fuel : nat) (ep : Z) (tr : Trained)
  : result (option Trained) :=
  '(env, state) ← reset (tr_env tr);
  epsilon ← epsilon_of epsilon_start epsilon_end epsilon_decay ep;
  st ← train_loop fuel num_actions alpha gamma epsilon
         {| ts_env := env; ts_Q := tr_Q tr; ts_state := state;
            ts_done := false; ts_total_reward := 0%Q;
            ts_rng := tr_rng tr |};
  Ok (if ts_done st
      then Some {| tr_Q := ts_Q st;
                   tr_episode_rewards :=
                     tr_episode_rewards tr ++ [ts_total_reward st];
                   tr_env := ts_env st; tr_rng := ts_rng st |}
      else None).

Fixpoint train_episodes (fuel : nat) (eps : list Z) (tr : Trained)
  : result (option Trained) :=
  match eps with
  | [] => Ok (Some tr)
  | ep :: rest =>
      r ← train_episode fuel ep tr;
      match r with
      | Some tr' => train_episodes fuel rest tr'
      | None => Ok None
      end
  end.

(** [train_q_learning]; [fuel] bounds the passes of each inner loop. *)
Definition train_q_learning (fuel : nat) (env : HousingEnv) (episodes : Z)
    (g : RandomState) : result (option Trained) :=
  Qt ← np_zeros num_states num_actions;
  train_episodes fuel (seqZ 0 episodes)
    {| tr_Q := Qt; tr_episode_rewards := []; tr_env := env; tr_rng := g |}.

End Train.

(** One entry of the history list of [run_greedy_policy].  The fields read
    with [info.get] are [None] when the key is missing. *)
Record StepInfo : Set := mkStepInfo {
  si_step : Z;
  si_current_ym : option string;
  si_next_ym : option string;
  si_action_id : Z;
  si_true_direction_label : option string;
  si_reward : Q
}.

Definition info_current_ym (i : Info) : option string :=
  match i with InfoStep c _ _ _ => Some c | InfoMsg _ => None end.
Definition info_next_ym (i : Info) : option string :=
  match i with InfoStep _ n _ _ => Some n | InfoMsg _ => None end.
Definition info_true_direction_label (i : Info) : option string :=
  match i with InfoStep _ _ _ l => Some l | InfoMsg _ => None end.

(** Local variables of the loop of [run_greedy_policy]. *)
Record GreedyState : Type := mkGreedyState {
  gs_env : HousingEnv;
  gs_state : Z;
  gs_done : bool;
  gs_total_reward : Q;
  gs_steps : Z;
  gs_history : list StepInfo
}.

Definition greedy_iteration (Qt : list (list Q)) (st : GreedyState)
  : result GreedyState :=
  row ← np_index Qt (gs_state st);
  action ← np_argmax row;
  '(env, (next_state, reward, done, info)) ← step (gs_env st) action;
  let step_info :=
    {| si_step := gs_steps st;
       si_current_ym := info_current_ym info;
       si_next_ym := info_next_ym info;
       si_action_id := action;
       si_true_direction_label := info_true_direction_label info;
       si_reward := reward |} in
  Ok {| gs_env := env; gs_state := next_state; gs_done := done;
        gs_total_reward := (gs_total_reward st + reward)%Q;
        gs_steps := gs_steps st + 1;
        gs_history := gs_history st ++ [step_info] |}.

(** [while not done and steps < max_steps: ...].  The recursion is on
    [fuel]; [run_greedy_policy] passes [max_steps] itself, which the loop
    condition never lets it exceed. *)
Fixpoint greedy_loop (fuel : nat) (Qt : list (list Q)) (max_steps : Z)
    (st : GreedyState) : result GreedyState :=
  if negb (gs_done st) && (gs_steps st <? max_steps) then
    match fuel with
    | O => Ok st
    | S fuel' =>
        st' ← greedy_iteration Qt st;
        greedy_loop fuel' Qt max_steps st'
    end
  else Ok st.

(** [run_greedy_policy] returns [(total_reward, steps, history)]; the
    environment it leaves behind is returned as a fourth component. *)
Definition run_greedy_policy (env : HousingEnv) (Qt : list (list Q))
    (max_steps : Z) : result (Q * Z * list StepInfo * HousingEnv) :=
  '(env, state) ← reset env;
  st ← greedy_loop (Z.to_nat max_steps) Qt max_steps
         {| gs_env := env; gs_state := state; gs_done := false;
            gs_total_reward := 0%Q; gs_steps := 0; gs_history := [] |};
  Ok (gs_total_reward st, gs_steps st, gs_history st, gs_env st).

End QLearning.

(** ** pandas monthly periods *)

Module Period.

Local Open Scope Z_scope.

(** A [pd.Period] of monthly frequency is its ordinal: the number of months
    since 1970-01.  [period + 1] is ordinal addition.  The constructor
    also returns the missing value [NaT], which absorbs addition and on
    which [strftime] raises. *)
Inductive period : Set :=
| Month (ordinal : Z)
| NaT.

Definition year (p : Z) : Z := 1970 + p / 12.
Definition month (p : Z) : Z := p mod 12 + 1.
Definition of_year_month (y m : Z) : Z := (y - 1970) * 12 + (m - 1).

(** The month after [(y, m)] on the calendar. *)
Definition next_calendar_month (ym : Z * Z) : Z * Z :=
  let '(y, m) := ym in if m =? 12 then (y + 1, 1) else (y, m + 1).

(** Reading and printing of the form [YYYY-MM], used to run the forecast
    on concrete tables.  The forecast itself takes the parser and the
    printer of the library as parameters. *)
Definition nat_strings : list string :=
  [""; "NaT"; "nat"; "NAT"; "nan"; "NaN"; "NAN"].

Definition digit_of (c : ascii) : option Z :=
  let n := Z.of_nat (nat_of_ascii c) in
  if (48 <=? n) && (n <=? 57) then Some (n - 48) else None.

Definition ascii_of_digit (d : Z) : ascii := ascii_of_nat (Z.to_nat (48 + d)).

(** [pd.Period(s, freq="M")] on the labels of the monthly panel, which
    are of the form [YYYY-MM], and on the spellings of a missing value,
    for which it returns [NaT]; [None] stands for a raised exception.
    Every other label is taken to raise: that holds of free text, not of
    the other date formats the library reads. *)
Definition parse_YYYY_MM (s : string) : option period :=
  if bool_decide (s ∈ nat_strings) then Some NaT
  else
    match s with
    | String a (String b (String c (String d (String sep
        (String e (String f EmptyString)))))) =>
        a ← digit_of a; b ← digit_of b; c ← digit_of c; d ← digit_of d;
        e ← digit_of e; f ← digit_of f;
        let y := a * 1000 + b * 100 + c * 10 + d in
        let m := e * 10 + f in
        if bool_decide (sep = "-"%char) && (1 <=? y) && (1 <=? m)
           && (m <=? 12)
        then Some (Month (of_year_month y m)) else None
    | _ => None
    end.

(** [period.strftime("%Y-%m")] for a period of a four-digit year. *)
Definition format_YYYY_MM (p : Z) : string :=
  let y := year p in
  let m := month p in
  String (ascii_of_digit (y / 1000 mod 10))
  (String (ascii_of_digit (y / 100 mod 10))
  (String (ascii_of_digit (y / 10 mod 10))
  (String (ascii_of_digit (y mod 10))
  (String "-"%char
  (String (ascii_of_digit (m / 10))
  (String (ascii_of_digit (m mod 10)) EmptyString)))))).

End Period.

(** ** src/api.py: the 12-month scenario forecast *)

Module Api.

Import StateEncoder Numpy.
Local Open Scope Z_scope.

Record ScenarioRecord : Set := mkScenarioRecord {
  sr_step : Z;
  sr_ym : string;
  predicted_direction : Z;
  predicted_direction_label : string;
  predicted_action_label : string;
  applied_return : pyfloat;
  scenario_price : pyfloat
}.

(** [dict[key]] *)
Definition dict_get {V} (m : gmap Z V) (k : Z) : result V :=
  match m !! k with
  | Some v => Ok v
  | None => Raise KeyError
  end.

Definition finite_part (x : pyfloat) : option Q :=
  match x with Fin q => Some q | NaN => None end.

(** [Series.mean()]: the mean of the entries that are not NaN, and NaN when
    there is none. *)
Definition series_mean (xs : list pyfloat) : pyfloat :=
  match omap finite_part xs with
  | [] => NaN
  | vals =>
      Fin (fold_right Qplus 0%Q vals / inject_Z (Z.of_nat (length vals)))%Q
  end.

(** [df.loc[df["direction"] == d, "pct_change"].mean()] *)
Definition direction_mean (df : DataFrame) (d : Z) : pyfloat :=
  series_mean (pct_change <$> filter (fun r => direction r = d) (rows df)).

Definition action_to_direction : gmap Z Z := {[ 0 := -1; 1 := 0; 2 := 1 ]}.
Definition direction_label_map : gmap Z string :=
  {[ -1 := "하락"; 0 := "보합"; 1 := "상승" ]}.
Definition action_label_map : gmap Z string :=
  {[ 0 := "하락 예측"; 1 := "보합 예측"; 2 := "상승 예측" ]}.

(** The three per-direction returns after the fallback. *)
Definition up_mean_of (df : DataFrame) : pyfloat :=
  let up_mean := if pct_change_column df then direction_mean df 1 else NaN in
  if negb (isfinite up_mean) then Fin 0.01%Q else up_mean.

Definition flat_mean_of (df : DataFrame) : pyfloat :=
  let flat_mean := if pct_change_column df then direction_mean df 0 else NaN in
  if negb (isfinite flat_mean) then Fin 0%Q else flat_mean.

Definition down_mean_of (df : DataFrame) : pyfloat :=
  let down_mean :=
    if pct_change_column df then direction_mean df (-1) else NaN in
  if negb (isfinite down_mean) then Fin (-0.01)%Q else down_mean.

Section Forecast.

(** [pd.Period(s, freq="M")] ([None] when it raises) and
    [period.strftime("%Y-%m")] on a period that is not [NaT]. *)
Variable Period_parse : string -> option Period.period.
Variable Period_strftime : Z -> string.

(** Variables carried from one pass of [for step in range(1, 13)] to the
    next.  [sim_period] is [None] when the parser raised. *)
Record SimState : Set := mkSimState {
  sim_direction : Z;
  sim_price : pyfloat;
  sim_period : option Period.period;
  sim_records : list ScenarioRecord
}.

Definition simulate_step (Qt : list (list Q))
    (up_mean flat_mean down_mean : pyfloat) (rate_level pop_trend : Z)
    (st : SimState) (step : Z) : result SimState :=
  let s := encode_state (PyInt (sim_direction st)) (PyInt rate_level)
                        (PyInt pop_trend) in
  row ← np_index Qt s;
  best_action ← np_argmax row;
  predicted_direction ← dict_get action_to_direction best_action;
  let applied_return :=
    if predicted_direction =? 1 then up_mean
    else if predicted_direction =? 0 then flat_mean
    else down_mean in
  let current_price :=
    fmul (sim_price st) (fadd (Fin 1%Q) applied_return) in
  '(period, ym_str) ←
    match sim_period st with
    | Some (Period.Month p) =>
        Ok (Some (Period.Month (p + 1)), Period_strftime (p + 1))
    | Some Period.NaT => Raise ValueError
    | None => Ok (None, "+" +:+ pretty step +:+ "개월")
    end;
  dlabel ← dict_get direction_label_map predicted_direction;
  alabel ← dict_get action_label_map best_action;
  Ok {| sim_direction := predicted_direction;
        sim_price := current_price;
        sim_period := period;
        sim_records := sim_records st ++
          [{| sr_step := step; sr_ym := ym_str;
              predicted_direction := predicted_direction;
              predicted_direction_label := dlabel;
              predicted_action_label := alabel;
              applied_return := applied_return;
              scenario_price := current_price |}] |}.

Fixpoint simulate_loop (Qt : list (list Q))
    (up_mean flat_mean down_mean : pyfloat) (rate_level pop_trend : Z)
    (steps : list Z) (st : SimState) : result SimState :=
  match steps with
  | [] => Ok st
  | step :: rest =>
      st' ← simulate_step Qt up_mean flat_mean down_mean rate_level
              pop_trend st step;
      simulate_loop Qt up_mean flat_mean down_mean rate_level pop_trend
        rest st'
  end.

Definition simulate_future_12months (state_df : DataFrame)
    (Qt : list (list Q)) : result (list ScenarioRecord) :=
  match last (rows state_df) with
  | None => Ok []
  | Some last_row =>
      let up_mean := up_mean_of state_df in
      let flat_mean := flat_mean_of state_df in
      let down_mean := down_mean_of state_df in
      st ← simulate_loop Qt up_mean flat_mean down_mean
             (rate_level last_row) (pop_trend last_row) (seqZ 1 12)
             {| sim_direction := direction last_row;
                sim_price := mean_price last_row;
                sim_period := Period_parse (ym last_row);
                sim_records := [] |};
      Ok (sim_records st)
  end.

End Forecast.

Section Prediction.

(** [pd.Period(s, freq="M")] ([None] when it raises) and
    [period.strftime("%Y-%m")], as in the forecast. *)
Variable Period_parse : string -> option Period.period.
Variable Period_strftime : Z -> string.

(** The dictionary [_predict_next_month_direction] returns. *)
Record Prediction : Set := mkPrediction {
  pr_last_ym : string;
  pr_next_ym : string;
  pr_action_id : Z;
  pr_direction_label : string
}.

(** [state_df.iloc[-1]] raises [IndexError] on a frame without rows.  The
    [try] covers the parser and the printer, so a label parsed to [NaT],
    on which the printer raises, gets the fallback too. *)
Definition _predict_next_month_direction (state_df : DataFrame)
    (Qt : list (list Q)) : result Prediction :=
  match last (rows state_df) with
  | None => Raise IndexError
  | Some last_row =>
      let s := encode_state (PyInt (direction last_row))
                 (PyInt (rate_level last_row)) (PyInt (pop_trend last_row)) in
      row ← np_index Qt s;
      best_action ← np_argmax row;
      direction_label ← np_index ["하락"; "보합"; "상승"] best_action;
      let last_ym := ym last_row in
      let next_ym :=
        match Period_parse last_ym with
        | Some (Period.Month period) => Period_strftime (period + 1)
        | Some Period.NaT | None => "다음 달"
        end in
      Ok {| pr_last_ym := last_ym; pr_next_ym := next_ym;
            pr_action_id := best_action;
            pr_direction_label := direction_label |}
  end.

(** The [metrics] dictionary of [train_rl_for_state_df]. *)
Record Metrics : Set := mkMetrics {
  m_total_reward : Q;
  m_steps : Z;
  m_correct : Z;
  m_wrong : Z;
  m_accuracy : Q;
  m_future_last_ym : string;
  m_future_next_ym : string;
  m_future_action_id : Z;
  m_future_direction_label : string
}.

(** [sum(1 for h in history if pred(h["reward"]))] *)
Definition count_rewards (pred : Q -> bool)
    (history : list QLearning.StepInfo) : Z :=
  Z.of_nat (length (filter (fun h => pred (QLearning.si_reward h) = true)
                           history)).

(** [train_rl_for_state_df]: one environment object is built, trained on
    and then evaluated.  [fuel] bounds each inner training loop and [g] is
    the random source; [None] means a training loop was cut by [fuel]. *)
Definition train_rl_for_state_df (fuel : nat) (state_df : DataFrame)
    (episodes : Z) (alpha gamma epsilon_start epsilon_end epsilon_decay : Q)
    (g : RandomState)
  : result (option (list (list Q) * list Q * Metrics
                    * list QLearning.StepInfo)) :=
  let env := Environment.init state_df in
  let num_states := 27 in
  let num_actions := 3 in
  r ← QLearning.train_q_learning num_states num_actions alpha gamma
        epsilon_start epsilon_end epsilon_decay fuel env episodes g;
  match r with
  | None => Ok None
  | Some tr =>
      let Qt := QLearning.tr_Q tr in
      let episode_rewards := QLearning.tr_episode_rewards tr in
      '(total_reward, steps, history, _) ←
        QLearning.run_greedy_policy (QLearning.tr_env tr) Qt 100;
      let correct := count_rewards (fun r => Qlt_bool 0 r) history in
      let wrong := count_rewards (fun r => Qlt_bool r 0) history in
      let accuracy :=
        if 0 <? correct + wrong
        then (inject_Z correct / inject_Z (correct + wrong))%Q
        else 0%Q in
      future_pred ← _predict_next_month_direction state_df Qt;
      Ok (Some (Qt, episode_rewards,
                {| m_total_reward := total_reward; m_steps := steps;
                   m_correct := correct; m_wrong := wrong;
                   m_accuracy := accuracy;
                   m_future_last_ym := pr_last_ym future_pred;
                   m_future_next_ym := pr_next_ym future_pred;
                   m_future_action_id := pr_action_id future_pred;
                   m_future_direction_label :=
                     pr_direction_label future_pred |},
                history))
  end.

End Prediction.

End Api.

(** ** src/preprocess.py: price direction *)

Module Preprocess.

Local Open Scope Z_scope.

(** Values of the ["pct_change"] column: a ratio of two finite prices,
    which is infinite or NaN when the earlier price is zero. *)
Inductive xfloat : Set :=
| XFin (q : Q)
| XPosInf
| XNegInf
| XNaN.

(** The binary64 result of an operation whose exact value is [v]: the
    rounded value, or an infinity once its magnitude reaches [2 ^ 1024]
    (numpy warns on overflow, it does not raise). *)
Definition np_float (v : Q) : xfloat :=
  let r := Binary64.round64 v in
  if Qle_bool (2 ^ 1024) (Qabs r) then
    if Qle_bool 0 r then XPosInf else XNegInf
  else XFin r.

(** [x / prev - 1] as pandas computes it ([data / data.shift(1) - 1]),
    for finite [x] and [prev]: the division rounds, then the
    subtraction; an infinite quotient stays infinite. *)
Definition pct_of (prev x : Q) : xfloat :=
  if Qeq_bool prev 0 then
    if Numpy.Qlt_bool 0 x then XPosInf
    else if Numpy.Qlt_bool x 0 then XNegInf
    else XNaN
  else
    match np_float (x / prev) with
    | XFin r => np_float (r - 1)
    | inf => inf
    end.

(** [Series.pct_change()] on a column of finite prices; [prev] is the
    price of the row before, [None] on the first row. *)
Fixpoint pct_change_from (prev : option Q) (prices : list Q) : list xfloat :=
  match prices with
  | [] => []
  | x :: rest =>
      match prev with
      | None => XNaN
      | Some p => pct_of p x
      end :: pct_change_from (Some x) rest
  end.

Definition pct_change_series (prices : list Q) : list xfloat :=
  pct_change_from None prices.

(** The local function [_dir_from_pct] of [add_price_direction]. *)
Definition _dir_from_pct (threshold : Q) (p : xfloat) : Z :=
  match p with
  | XNaN => 0
  | XPosInf => 1
  | XNegInf => -1
  | XFin q =>
      if Qle_bool q (- threshold) then -1
      else if Qle_bool threshold q then 1
      else 0
  end.

(** A row of the monthly panel after [add_price_direction]. *)
Record PriceRow : Set := mkPriceRow {
  pr_ym : string;
  pr_mean_price : Q;
  pr_pct_change : xfloat;
  pr_direction : Z
}.

(** [add_price_direction] on a panel given as its [(ym, mean_price)]
    rows.  (The guard for a missing ["mean_price"] column does not arise:
    the rows carry the price.) *)
Definition add_price_direction (monthly : list (string * Q)) (threshold : Q)
  : list PriceRow :=
  let pct := pct_change_series (snd <$> monthly) in
  zip_with (fun row p =>
              {| pr_ym := fst row; pr_mean_price := snd row;
                 pr_pct_change := p;
                 pr_direction := _dir_from_pct threshold p |})
           monthly pct.

End Preprocess.

(** ** src/macro_features.py: macro levels *)

Module MacroFeatures.

Local Open Scope Z_scope.

(** The local function [_rate_level] of [add_macro_levels]. *)
Definition _rate_level (r : pyfloat) : Z :=
  match r with
  | NaN => 1
  | Fin r => if Numpy.Qlt_bool r 3.0 then 0
             else if Numpy.Qlt_bool r 3.5 then 1
             else 2
  end.

(** [Series.diff()]: NaN on the first row and wherever an operand is. *)
Definition fsub (x y : pyfloat) : pyfloat :=
  match x, y with
  | Fin a, Fin b => Fin (a - b)
  | _, _ => NaN
  end.

Fixpoint diff_from (prev : option pyfloat) (xs : list pyfloat)
  : list pyfloat :=
  match xs with
  | [] => []
  | x :: rest =>
      match prev with
      | None => NaN
      | Some p => fsub x p
      end :: diff_from (Some x) rest
  end.

Definition diff_series (xs : list pyfloat) : list pyfloat :=
  diff_from None xs.

(** The local function [_pop_trend] of [add_macro_levels]. *)
Definition _pop_trend (d : pyfloat) : Z :=
  match d with
  | NaN => 0
  | Fin d => if Qeq_bool d 0 then 0
             else if Numpy.Qlt_bool 0 d then 1
             else -1
  end.

(** A row of the merged frame: the price columns with the left-joined
    [base_rate] and [population], NaN where the join found nothing. *)
Record MacroRow : Set := mkMacroRow {
  mr_price : Preprocess.PriceRow;
  mr_base_rate : pyfloat;
  mr_population : pyfloat
}.

(** A row after [add_macro_levels]. *)
Record StateRow : Set := mkStateRow {
  sr_macro : MacroRow;
  sr_rate_level : Z;
  sr_pop_diff : pyfloat;
  sr_pop_trend : Z
}.

Definition add_macro_levels (df_macro : list MacroRow) : list StateRow :=
  let pop_diff := diff_series (mr_population <$> df_macro) in
  zip_with (fun row d =>
              {| sr_macro := row;
                 sr_rate_level := _rate_level (mr_base_rate row);
                 sr_pop_diff := d;
                 sr_pop_trend := _pop_trend d |})
           df_macro pop_diff.

End MacroFeatures.


(** * Vocabulary of the properties

    Predicates, invariants and sample inputs used to state and to run the
    properties below. *)

Module Vocabulary.

Import Binary64 StateEncoder Environment Numpy QLearning Api.
Local Open Scope Z_scope.

#[global] Instance valid_direction_dec d : Decision (valid_direction d) :=
  ltac:(unfold valid_direction; exact _).

#[global] Instance valid_pop_trend_dec p : Decision (valid_pop_trend p) :=
  ltac:(unfold valid_pop_trend; exact _).

(** The state id [_get_state] computes from a row. *)
Definition row_state (r : Row) : Z :=
  encode_state (PyInt (direction r)) (PyInt (rate_level r))
               (PyInt (pop_trend r)).

(** What holds of every environment in use: its cached sizes agree with
    the table, and the pointer, once set, addresses a row of a table that
    has at least two rows. *)
Definition env_inv (d : DataFrame) (e : HousingEnv) : Prop :=
  df e = d /\ num_rows e = df_len d /\ max_step_index e = df_len d - 2
  /\ match current_idx e with
     | None => True
     | Some i => 0 <= i < df_len d /\ 2 <= df_len d
     end.

(** The environment over [d] with its pointer at row [t]. *)
Definition env_at (d : DataFrame) (t : Z) : HousingEnv :=
  set_current_idx (init d) t.

(** A value table with [num_states] rows of [num_actions] entries. *)
Definition table_shape (Qt : list (list Q)) (num_states num_actions : Z)
  : Prop :=
  Z.of_nat (length Qt) = num_states
  /\ Forall (fun row => Z.of_nat (length row) = num_actions) Qt.

Definition zero_table : list (list Q) := replicate 27 (replicate 3 0%Q).

(** The bound [1/(1-gamma)] on the values, and tables that respect a
    bound [B]. *)
Definition q_bound (gamma : Q) : Q := (1 / (1 - gamma))%Q.

Definition bounded (B : Q) (Qt : list (list Q)) : Prop :=
  Forall (Forall (fun q => (Qabs q <= B)%Q)) Qt.

(** The bound with a relative margin of [2^-32] for the rounding of the
    update. *)
Definition rounded_bound (gamma : Q) : Q :=
  ((1 + (1 # 4294967296)) / (1 - gamma))%Q.

(** Tables whose entries are binary64 values. *)
Definition float_table (Qt : list (list Q)) : Prop :=
  Forall (Forall float64) Qt.

(** The value [q_update] stores, from the entry [q], the best value
    [best_next] of the next state and the reward. *)
Definition td_update (alpha gamma q best_next reward : Q) : Q :=
  let td_target := round64 (reward + round64 (gamma * best_next)) in
  let td_error := round64 (td_target - q) in
  round64 (q + round64 (alpha * td_error)).

(** The float power of the decay factor is finite at every episode of a
    run of [episodes] episodes. *)
Definition schedule_finite (epsilon_decay : Q) (episodes : Z) : Prop :=
  forall ep, 0 <= ep < episodes ->
    (Qabs (round64 (epsilon_decay ^ ep)) < 2 ^ 1024)%Q.

(** What every pass of the inner training loop maintains, with the
    pointer at [t]. *)
Definition loop_inv (d : DataFrame) (ns na : Z) (gamma : Q) (t : Z)
    (st : TrainState) : Prop :=
  env_inv d (ts_env st)
  /\ current_idx (ts_env st) = Some t
  /\ ts_done st = (df_len d - 1 <=? t)
  /\ 0 <= ts_state st <= 26
  /\ table_shape (ts_Q st) ns na
  /\ bounded (rounded_bound gamma) (ts_Q st)
  /\ float_table (ts_Q st).

(** What holds between training episodes. *)
Definition trained_inv (d : DataFrame) (ns na : Z) (gamma : Q)
    (tr : Trained) : Prop :=
  env_inv d (tr_env tr)
  /\ table_shape (tr_Q tr) ns na
  /\ bounded (rounded_bound gamma) (tr_Q tr)
  /\ float_table (tr_Q tr).

(** The return the forecast applies for a predicted direction. *)
Definition return_for (up_mean flat_mean down_mean : pyfloat) (dir : Z)
  : pyfloat :=
  if dir =? 1 then up_mean else if dir =? 0 then flat_mean else down_mean.

(** Labels of the [n] months after period [p]. *)
Fixpoint labels_after (Period_strftime : Z -> string) (p : Z) (n : nat)
  : list string :=
  match n with
  | O => []
  | S n' => Period_strftime (p + 1) :: labels_after Period_strftime (p + 1) n'
  end.

(** The period the forecast carries after a step, and the label of the
    record of step [step]: the next month when a period is carried, a
    count of months when the parser raised. *)
Definition next_period (o : option Period.period) : option Period.period :=
  match o with
  | Some (Period.Month p) => Some (Period.Month (p + 1))
  | other => other
  end.

Definition step_label (Period_strftime : Z -> string)
    (o : option Period.period) (step : Z) : string :=
  match o with
  | Some (Period.Month p) => Period_strftime (p + 1)
  | _ => "+" +:+ pretty step +:+ "개월"
  end.

(** The printer writes the periods of four-digit years as [YYYY-MM]. *)
Definition prints_YYYY_MM (Period_strftime : Z -> string) : Prop :=
  forall q, 1000 <= Period.year q <= 9999 ->
            Period_strftime q = Period.format_YYYY_MM q.

(** The order of Python on strings, by code point. *)
Definition label_lt (s t : string) : Prop := String.compare s t = Lt.

(** What every emitted forecast record satisfies. *)
Definition record_ok (up_mean flat_mean down_mean : pyfloat)
    (r : ScenarioRecord) : Prop :=
  valid_direction (predicted_direction r)
  /\ applied_return r
     = return_for up_mean flat_mean down_mean (predicted_direction r).

(** A synthetic three-row table with directions flat, up, down. *)
Definition flat_up_down : DataFrame :=
  {| pct_change_column := true;
     rows := [ mkRow "2024-01" (Fin 100) NaN 0 1 0;
               mkRow "2024-02" (Fin 102) (Fin 0.02) 1 1 0;
               mkRow "2024-03" (Fin 100) (Fin (-0.0196)) (-1) 1 0 ] |}.

(** A table with no month of falling prices. *)
Definition no_down_table : DataFrame :=
  {| pct_change_column := true;
     rows := [ mkRow "2024-10" (Fin 100) NaN 0 1 0;
               mkRow "2024-11" (Fin 103) (Fin 0.03) 1 1 1;
               mkRow "2024-12" (Fin 105) (Fin 0.0194) 1 2 0 ] |}.

(** Two months of falling prices under the same macro levels: both rows
    have state 4 and the one step of an episode is rewarded for action 0. *)
Definition falling_pair : DataFrame :=
  {| pct_change_column := true;
     rows := [ mkRow "2024-01" (Fin 100) NaN (-1) 1 0;
               mkRow "2024-02" (Fin 98) (Fin (-0.02)) (-1) 1 0 ] |}.

(** A table of one row. *)
Definition single_row_table : DataFrame :=
  {| pct_change_column := true;
     rows := [ mkRow "2024-01" (Fin 100) NaN 0 1 0 ] |}.

(** A fixed tape of draws, to run the learner on examples. *)
Definition sample_rng : RandomState :=
  {| rand_tape := fun i => if Nat.even i then 0.05%Q else 0.95%Q;
     randint_tape := fun i => Z.of_nat i;
     cursor := 0 |}.

(** What the [i]-th entry of the history of a greedy rollout holds: the
    step number, the labels of rows [i] and [i+1], the greedy action for
    the state of row [i], and the label and reward that the direction of
    row [i+1] gives it. *)
Definition greedy_entry (d : DataFrame) (Qt : list (list Q)) (i : Z)
    (h : StepInfo) : Prop :=
  exists row_i row_n,
    df_loc d i = Ok row_i /\ df_loc d (i + 1) = Ok row_n
    /\ si_step h = i
    /\ si_current_ym h = Some (ym row_i)
    /\ si_next_ym h = Some (ym row_n)
    /\ (row ← np_index Qt (row_state row_i); np_argmax row)
       = Ok (si_action_id h)
    /\ si_true_direction_label h = Some (direction_label (direction row_n))
    /\ si_reward h
       = if si_action_id h =? true_action_id (direction row_n)
         then 1%Q else (-1)%Q.

(** The sum of the rewards of a history. *)
Definition sum_rewards (history : list StepInfo) : Q :=
  fold_right Qplus 0%Q (si_reward <$> history).

(** The number of steps a rollout capped at [max_steps] takes on a table
    of [n] rows. *)
Definition rollout_steps (n max_steps : Z) : Z :=
  Z.min (Z.max 0 max_steps) (n - 1).

(** A state id is visited when it is the state of a row from which a step
    can be taken (rows 0 to n-2). *)
Definition visited (d : DataFrame) (s : Z) : Prop :=
  exists i row,
    0 <= i <= df_len d - 2 /\ df_loc d i = Ok row /\ row_state row = s.

(** The rows of the table for states that are not visited are all zero. *)
Definition zero_outside (d : DataFrame) (na : Z) (Qt : list (list Q))
  : Prop :=
  forall s row,
    0 <= s -> Qt !! Z.to_nat s = Some row -> ~ visited d s ->
    row = replicate (Z.to_nat na) 0%Q.

(** What a training episode maintains with the pointer at [t], whatever
    the learning rate and the discount. *)
Definition walk_inv (d : DataFrame) (ns na : Z) (t : Z) (st : TrainState)
  : Prop :=
  env_inv d (ts_env st)
  /\ current_idx (ts_env st) = Some t
  /\ ts_done st = (df_len d - 1 <=? t)
  /\ (exists row_t, df_loc d t = Ok row_t /\ ts_state st = row_state row_t)
  /\ table_shape (ts_Q st) ns na
  /\ zero_outside d na (ts_Q st).

(** A total reward that [k] steps of +1 or -1 can add up to. *)
Definition reward_within (k : Z) (r : Q) : Prop :=
  (- inject_Z k <= r /\ r <= inject_Z k)%Q.

(** What holds between training episodes, whatever the learning rate and
    the discount. *)
Definition walked_inv (d : DataFrame) (ns na : Z) (tr : Trained) : Prop :=
  env_inv d (tr_env tr)
  /\ table_shape (tr_Q tr) ns na
  /\ zero_outside d na (tr_Q tr)
  /\ Forall (reward_within (df_len d - 1)) (tr_episode_rewards tr).

(** The label the forecast gives step [step] when the last period label
    could not be parsed. *)
Definition fallback_label (step : Z) : string :=
  "+" +:+ pretty step +:+ "개월".

(** How the records of a forecast follow from one another, starting from
    direction [dir] and price [price] with the macro levels held fixed:
    each record's action is the greedy one for the state of the direction
    before it, its labels are those of that action, and its price is the
    price before it compounded by its applied return. *)
Fixpoint scenario_chain (Qt : list (list Q)) (rate_level pop_trend : Z)
    (dir : Z) (price : pyfloat) (recs : list ScenarioRecord) : Prop :=
  match recs with
  | [] => True
  | r :: rest =>
      (row ← np_index Qt (encode_state (PyInt dir) (PyInt rate_level)
                                       (PyInt pop_trend));
       np_argmax row) = Ok (predicted_direction r + 1)
      /\ direction_label_map !! predicted_direction r
         = Some (predicted_direction_label r)
      /\ action_label_map !! (predicted_direction r + 1)
         = Some (predicted_action_label r)
      /\ scenario_price r = fmul price (fadd (Fin 1%Q) (applied_return r))
      /\ scenario_chain Qt rate_level pop_trend (predicted_direction r)
           (scenario_price r) rest
  end.

(** A table whose period labels are not of the form the parser reads. *)
Definition odd_label_table : DataFrame :=
  {| pct_change_column := false;
     rows := [ mkRow "2024 Q3" (Fin 100) NaN 0 1 0;
               mkRow "2024 Q4" (Fin 103) NaN 1 1 1 ] |}.

(** A table whose last period label is a missing value. *)
Definition missing_label_table : DataFrame :=
  {| pct_change_column := true;
     rows := [ mkRow "2024-11" (Fin 100) NaN 0 1 0;
               mkRow "nan" (Fin 103) (Fin 0.03) 1 1 1 ] |}.

(** A table without rows. *)
Definition empty_table : DataFrame :=
  {| pct_change_column := true; rows := [] |}.

End Vocabulary.

(** Feed a lemma the premises that are already in the context. *)
Ltac feed L :=
  repeat match type of L with
         | ?A -> _ =>
             match type of A with
             | Prop => specialize (L ltac:(assumption))
             end
         end.

(** * Properties of binary64 rounding *)

Module Binary64Facts.
Import Binary64.
Local Open Scope Q_scope.

Lemma Qmult_le_nonneg_l c a b : 0 <= c -> a <= b -> c * a <= c * b.
Proof.
  intros Hc Hab. rewrite (Qmult_comm c a), (Qmult_comm c b).
  apply Qmult_le_compat_r; assumption.
Qed.

Lemma pow2_pos k : 0 < 2 ^ k.
Proof. apply Qpower_0_lt. reflexivity. Qed.

Lemma pow2_add a b : 2 ^ (a + b) == 2 ^ a * 2 ^ b.
Proof. apply Qpower_plus. discriminate. Qed.

Lemma pow2_le a b : (a <= b)%Z -> 2 ^ a <= 2 ^ b.
Proof. intros H. apply Qpower_le_compat_l; [exact H | discriminate]. Qed.

Lemma pow2_lt a b : (a < b)%Z -> 2 ^ a < 2 ^ b.
Proof. intros H. apply Qpower_lt_compat_l; [exact H | reflexivity]. Qed.

Lemma pow2_lt_inv a b : 2 ^ a < 2 ^ b -> (a < b)%Z.
Proof. intros H. apply (Qpower_lt_compat_l_inv 2); [exact H | reflexivity]. Qed.

Lemma pow2_succ a : 2 ^ (a + 1) == 2 * 2 ^ a.
Proof. rewrite pow2_add. change (2 ^ 1) with 2. ring. Qed.

Lemma pow2_inject (n : Z) : (0 <= n)%Z -> inject_Z (2 ^ n) == 2 ^ n.
Proof. intros H. apply (Zpower_Qpower 2 n H). Qed.

Lemma ilog2_spec y : 0 < y -> 2 ^ ilog2 y <= y /\ y < 2 ^ (ilog2 y + 1).
Proof.
  intros Hy. unfold ilog2.
  set (n := Qnum y). set (d := Zpos (Qden y)).
  assert (Hn : (0 < n)%Z).
  { destruct y as [yn yd]. unfold Qlt in Hy. cbn in *. lia. }
  assert (Hd : (0 < d)%Z) by reflexivity.
  pose proof (Z.log2_spec n Hn) as [Hn1 Hn2].
  pose proof (Z.log2_spec d Hd) as [Hd1 Hd2].
  pose proof (Z.log2_nonneg n) as Hln. pose proof (Z.log2_nonneg d) as Hld.
  set (ln := Z.log2 n) in *. set (ld := Z.log2 d) in *.
  assert (Ey : y * inject_Z d == inject_Z n).
  { unfold d, n. destruct y as [yn yd]. cbn [Qnum Qden].
    rewrite (Qmake_Qdiv yn yd). field. discriminate. }
  assert (Qn1 : 2 ^ ln <= inject_Z n).
  { rewrite <- pow2_inject by lia. rewrite <- Zle_Qle. exact Hn1. }
  assert (Qn2 : inject_Z n < 2 ^ (ln + 1)).
  { rewrite <- pow2_inject by lia. rewrite <- Zlt_Qlt.
    replace (ln + 1)%Z with (Z.succ ln) by lia. exact Hn2. }
  assert (Qd1 : 2 ^ ld <= inject_Z d).
  { rewrite <- pow2_inject by lia. rewrite <- Zle_Qle. exact Hd1. }
  assert (Qd2 : inject_Z d < 2 ^ (ld + 1)).
  { rewrite <- pow2_inject by lia. rewrite <- Zlt_Qlt.
    replace (ld + 1)%Z with (Z.succ ld) by lia. exact Hd2. }
  assert (Hlow : 2 ^ (ln - ld - 1) < y).
  { apply (Qmult_lt_r _ _ (2 ^ (ld + 1))); [apply pow2_pos|].
    rewrite <- pow2_add. replace (ln - ld - 1 + (ld + 1))%Z with ln by lia.
    apply Qle_lt_trans with (inject_Z n); [exact Qn1|].
    rewrite <- Ey. apply Qmult_lt_l; assumption. }
  assert (Hhigh : y < 2 ^ (ln - ld + 1)).
  { apply (Qmult_lt_r _ _ (2 ^ ld)); [apply pow2_pos|].
    rewrite <- pow2_add. replace (ln - ld + 1 + ld)%Z with (ln + 1)%Z by lia.
    apply Qle_lt_trans with (inject_Z n); [|exact Qn2].
    rewrite <- Ey. apply Qmult_le_l; assumption. }
  destruct (Qle_bool (2 ^ (ln - ld)) y) eqn:E.
  - apply Qle_bool_iff in E. split; assumption.
  - assert (E' : y < 2 ^ (ln - ld)).
    { apply Qnot_le_lt. intros H. apply Qle_bool_iff in H. congruence. }
    replace (ln - ld - 1 + 1)%Z with (ln - ld)%Z by lia.
    split; [apply Qlt_le_weak|]; assumption.
Qed.

Lemma ilog2_unique y k : 2 ^ k <= y -> y < 2 ^ (k + 1) -> ilog2 y = k.
Proof.
  intros H1 H2.
  assert (Hy : 0 < y) by (eapply Qlt_le_trans; [apply pow2_pos | exact H1]).
  destruct (ilog2_spec y Hy) as [H3 H4].
  assert (ilog2 y < k + 1)%Z.
  { apply pow2_lt_inv. eapply Qle_lt_trans; eassumption. }
  assert (k < ilog2 y + 1)%Z.
  { apply pow2_lt_inv. eapply Qle_lt_trans; eassumption. }
  lia.
Qed.

Lemma ilog2_mono y z : 0 < y -> y <= z -> (ilog2 y <= ilog2 z)%Z.
Proof.
  intros Hy Hyz.
  destruct (ilog2_spec y Hy) as [H1 _].
  destruct (ilog2_spec z (Qlt_le_trans _ _ _ Hy Hyz)) as [_ H2].
  assert (ilog2 y < ilog2 z + 1)%Z; [|lia].
  apply pow2_lt_inv. eapply Qle_lt_trans; [exact H1|].
  eapply Qle_lt_trans; eassumption.
Qed.

(** *** Nearest integer, ties to even *)

Lemma floor_bounds a : inject_Z (Qfloor a) <= a /\ a < inject_Z (Qfloor a) + 1.
Proof.
  split; [apply Qfloor_le|].
  pose proof (Qlt_floor a) as H. rewrite inject_Z_plus in H. exact H.
Qed.

Lemma rhe_floor a :
  round_half_even a = Qfloor a \/ round_half_even a = (Qfloor a + 1)%Z.
Proof.
  unfold round_half_even.
  destruct (Qcompare _ _); [destruct (Z.even _)| |]; auto.
Qed.

Lemma rhe_error a :
  - (1 # 2) <= inject_Z (round_half_even a) - a <= 1 # 2.
Proof.
  destruct (floor_bounds a) as [H1 H2]. unfold round_half_even.
  destruct (Qcompare_spec (a - inject_Z (Qfloor a)) (1 # 2)) as [E | E | E];
    [destruct (Z.even _)| |]; rewrite ?inject_Z_plus;
    change (inject_Z 1) with 1; lra.
Qed.

Lemma rhe_mono a b : a <= b -> (round_half_even a <= round_half_even b)%Z.
Proof.
  intros Hab.
  pose proof (Qfloor_resp_le a b Hab) as Hf.
  destruct (Z.eq_dec (Qfloor a) (Qfloor b)) as [E | E].
  - unfold round_half_even. rewrite <- E.
    destruct (Qcompare_spec (a - inject_Z (Qfloor a)) (1 # 2));
      destruct (Qcompare_spec (b - inject_Z (Qfloor a)) (1 # 2));
      destruct (Z.even (Qfloor a)); try lia; exfalso; lra.
  - destruct (rhe_floor a) as [-> | ->], (rhe_floor b) as [-> | ->]; lia.
Qed.

Lemma rhe_inject n : round_half_even (inject_Z n) = n.
Proof.
  unfold round_half_even. rewrite Qfloor_Z.
  destruct (Qcompare_spec (inject_Z n - inject_Z n) (1 # 2)) as [E | E | E].
  - exfalso. lra.
  - reflexivity.
  - exfalso. lra.
Qed.

Lemma rhe_integer a n : a == inject_Z n -> round_half_even a = n.
Proof.
  intros E.
  assert (H1 : (round_half_even a <= n)%Z).
  { rewrite <- (rhe_inject n). apply rhe_mono. rewrite E. apply Qle_refl. }
  assert (H2 : (n <= round_half_even a)%Z).
  { rewrite <- (rhe_inject n) at 1. apply rhe_mono. rewrite E.
    apply Qle_refl. }
  lia.
Qed.

Lemma rhe_le a n : a <= inject_Z n -> (round_half_even a <= n)%Z.
Proof. intros H. rewrite <- (rhe_inject n). apply rhe_mono, H. Qed.

Lemma rhe_ge a n : inject_Z n <= a -> (n <= round_half_even a)%Z.
Proof. intros H. rewrite <- (rhe_inject n) at 1. apply rhe_mono, H. Qed.

(** *** Rounding a magnitude *)

Lemma exponent_min y : (-1074 <= exponent y)%Z.
Proof. unfold exponent. lia. Qed.

Lemma exponent_mono y z : 0 < y -> y <= z -> (exponent y <= exponent z)%Z.
Proof.
  intros Hy Hyz. pose proof (ilog2_mono y z Hy Hyz). unfold exponent. lia.
Qed.

Lemma scaled_eq y e : y / 2 ^ e * 2 ^ e == y.
Proof. field. pose proof (pow2_pos e). lra. Qed.

Lemma scaled_lt y : 0 < y -> y / 2 ^ exponent y < inject_Z (2 ^ 53).
Proof.
  intros Hy. destruct (ilog2_spec y Hy) as [_ H].
  rewrite pow2_inject by lia.
  apply Qlt_shift_div_r; [apply pow2_pos|].
  rewrite <- pow2_add. eapply Qlt_le_trans; [exact H|].
  apply pow2_le. unfold exponent. lia.
Qed.

Lemma scaled_ge y :
  0 < y -> (-1074 < exponent y)%Z -> inject_Z (2 ^ 52) <= y / 2 ^ exponent y.
Proof.
  intros Hy He. destruct (ilog2_spec y Hy) as [H _].
  rewrite pow2_inject by lia.
  apply Qle_shift_div_l; [apply pow2_pos|].
  rewrite <- pow2_add. eapply Qle_trans; [|exact H].
  apply pow2_le. unfold exponent in *. lia.
Qed.

Lemma round_magnitude_0 y : y == 0 -> round_magnitude y == 0.
Proof.
  intros E. unfold round_magnitude. generalize (exponent y). intros e.
  rewrite (rhe_integer (y / 2 ^ e) 0).
  - ring.
  - rewrite E. change (inject_Z 0) with 0. unfold Qdiv. ring.
Qed.

Lemma round_magnitude_nonneg y : 0 <= y -> 0 <= round_magnitude y.
Proof.
  intros Hy. unfold round_magnitude.
  apply Qmult_le_0_compat; [|apply Qlt_le_weak, pow2_pos].
  change 0 with (inject_Z 0). rewrite <- Zle_Qle. apply rhe_ge.
  apply Qle_shift_div_l; [apply pow2_pos|].
  change (inject_Z 0) with 0. lra.
Qed.

Lemma round_magnitude_error y :
  - ((1 # 2) * 2 ^ exponent y) <= round_magnitude y - y
  <= (1 # 2) * 2 ^ exponent y.
Proof.
  unfold round_magnitude. set (e := exponent y).
  pose proof (pow2_pos e) as HP.
  pose proof (rhe_error (y / 2 ^ e)) as [H1 H2].
  pose proof (scaled_eq y e) as E.
  set (a := y / 2 ^ e) in *. set (m := inject_Z (round_half_even a)) in *.
  assert (H3 : - (1 # 2) * 2 ^ e <= (m - a) * 2 ^ e).
  { apply Qmult_le_compat_r; [exact H1 | lra]. }
  assert (H4 : (m - a) * 2 ^ e <= (1 # 2) * 2 ^ e).
  { apply Qmult_le_compat_r; [exact H2 | lra]. }
  split; lra.
Qed.

Lemma round_magnitude_mono y z :
  0 <= y -> y <= z -> round_magnitude y <= round_magnitude z.
Proof.
  intros Hy Hyz.
  destruct (Qeq_dec y 0) as [E | E].
  { rewrite (round_magnitude_0 y E). apply round_magnitude_nonneg. lra. }
  assert (Hy' : 0 < y) by (apply Qle_lteq in Hy; destruct Hy as [H | H];
    [exact H | exfalso; apply E; symmetry; exact H]).
  assert (Hz : 0 < z) by lra.
  pose proof (exponent_mono y z Hy' Hyz) as He.
  unfold round_magnitude.
  destruct (Z.eq_dec (exponent y) (exponent z)) as [Ee | Ee].
  - rewrite Ee. apply Qmult_le_compat_r; [|apply Qlt_le_weak, pow2_pos].
    rewrite <- Zle_Qle. apply rhe_mono.
    apply Qmult_le_compat_r; [exact Hyz|].
    apply Qlt_le_weak, Qinv_lt_0_compat, pow2_pos.
  - pose proof (exponent_min y) as Hm.
    assert (H1 : (round_half_even (y / 2 ^ exponent y) <= 2 ^ 53)%Z).
    { apply rhe_le, Qlt_le_weak, scaled_lt, Hy'. }
    assert (H2 : (2 ^ 52 <= round_half_even (z / 2 ^ exponent z))%Z).
    { apply rhe_ge, scaled_ge; [exact Hz | lia]. }
    apply Qle_trans with (inject_Z (2 ^ 53) * 2 ^ exponent y).
    { apply Qmult_le_compat_r; [|apply Qlt_le_weak, pow2_pos].
      rewrite <- Zle_Qle. exact H1. }
    apply Qle_trans with (inject_Z (2 ^ 52) * 2 ^ exponent z).
    2:{ apply Qmult_le_compat_r; [|apply Qlt_le_weak, pow2_pos].
        rewrite <- Zle_Qle. exact H2. }
    rewrite !pow2_inject by lia. rewrite <- !pow2_add.
    apply pow2_le. lia.
Qed.

Lemma round_magnitude_integer y K :
  y / 2 ^ exponent y == inject_Z K -> round_magnitude y == y.
Proof.
  intros E. unfold round_magnitude.
  rewrite (rhe_integer _ K E). rewrite <- E. apply scaled_eq.
Qed.

Lemma round_magnitude_fix M e :
  (0 <= M <= 2 ^ 53)%Z -> (-1074 <= e)%Z ->
  round_magnitude (inject_Z M * 2 ^ e) == inject_Z M * 2 ^ e.
Proof.
  intros HM He.
  destruct (Z.eq_dec M 0%Z) as [-> | HM0].
  { assert (Z0 : inject_Z 0 * 2 ^ e == 0)
      by (change (inject_Z 0) with 0; ring).
    rewrite (round_magnitude_0 _ Z0). symmetry. exact Z0. }
  assert (HMp : (0 < M)%Z) by lia.
  pose proof (Z.log2_spec M HMp) as [HL1 HL2].
  pose proof (Z.log2_nonneg M) as HL0.
  set (l := Z.log2 M) in *.
  set (v := inject_Z M * 2 ^ e).
  pose proof (pow2_pos e) as HPe.
  assert (Hlog : ilog2 v = (l + e)%Z).
  { apply ilog2_unique; unfold v.
    - rewrite pow2_add. apply Qmult_le_compat_r; [|lra].
      rewrite <- pow2_inject by lia. rewrite <- Zle_Qle. exact HL1.
    - replace (l + e + 1)%Z with (l + 1 + e)%Z by lia. rewrite pow2_add.
      apply Qmult_lt_r; [exact HPe|].
      rewrite <- pow2_inject by lia. rewrite <- Zlt_Qlt.
      replace (l + 1)%Z with (Z.succ l) by lia. exact HL2. }
  assert (Hl53 : (l <= 53)%Z).
  { destruct (Z.le_gt_cases l 53) as [H | H]; [exact H|].
    exfalso. assert (2 ^ 54 <= 2 ^ l)%Z by (apply Z.pow_le_mono_r; lia).
    lia. }
  destruct (Z.le_gt_cases l 52) as [Hl | Hl].
  - set (e' := exponent v).
    assert (He' : (e' <= e)%Z) by (unfold e', exponent; lia).
    apply (round_magnitude_integer v (M * 2 ^ (e - e'))). fold e'.
    rewrite inject_Z_mult, pow2_inject by lia. unfold v.
    apply Qmult_inj_r with (2 ^ e'); [pose proof (pow2_pos e'); lra|].
    rewrite scaled_eq. rewrite <- Qmult_assoc, <- pow2_add.
    replace (e - e' + e')%Z with e by lia. reflexivity.
  - assert (HM53 : M = (2 ^ 53)%Z).
    { assert (2 ^ 53 <= 2 ^ l)%Z by (apply Z.pow_le_mono_r; lia). lia. }
    assert (He' : exponent v = (e + 1)%Z) by (unfold exponent; lia).
    apply (round_magnitude_integer v (2 ^ 52)). rewrite He'.
    unfold v. rewrite HM53.
    apply Qmult_inj_r with (2 ^ (e + 1));
      [pose proof (pow2_pos (e + 1)); lra|].
    rewrite scaled_eq. rewrite !pow2_inject by lia. rewrite <- !pow2_add.
    replace (52 + (e + 1))%Z with (53 + e)%Z by lia. reflexivity.
Qed.

Lemma round_magnitude_idem y :
  0 <= y -> round_magnitude (round_magnitude y) == round_magnitude y.
Proof.
  intros Hy.
  destruct (Qeq_dec y 0) as [E | E].
  { pose proof (round_magnitude_0 y E) as E0.
    rewrite (round_magnitude_0 _ E0). symmetry. exact E0. }
  assert (Hy' : 0 < y) by (apply Qle_lteq in Hy; destruct Hy as [H | H];
    [exact H | exfalso; apply E; symmetry; exact H]).
  unfold round_magnitude at 2 3.
  apply round_magnitude_fix; [|apply exponent_min].
  split.
  - apply rhe_ge. apply Qle_shift_div_l; [apply pow2_pos|].
    change (inject_Z 0) with 0. lra.
  - apply rhe_le, Qlt_le_weak, scaled_lt, Hy'.
Qed.

Lemma half_ulp y : 0 < y -> (1 # 2) * 2 ^ exponent y <= u64 * y + eta64.
Proof.
  intros Hy. destruct (ilog2_spec y Hy) as [H _].
  assert (Hu : 2 ^ (-53) == u64) by reflexivity.
  assert (He : 0 < eta64) by apply pow2_pos.
  destruct (Z.le_gt_cases (ilog2 y - 52) (-1074)) as [Hc | Hc].
  - assert (E : exponent y = (-1075 + 1)%Z) by (unfold exponent; lia).
    rewrite E, pow2_succ. fold eta64.
    assert (0 <= u64 * y) by (apply Qmult_le_0_compat; [discriminate | lra]).
    lra.
  - assert (E : exponent y = (ilog2 y + -53 + 1)%Z) by (unfold exponent; lia).
    rewrite E, pow2_succ, pow2_add, Hu.
    assert (2 ^ ilog2 y * u64 <= y * u64).
    { apply Qmult_le_compat_r; [exact H | discriminate]. }
    lra.
Qed.

(** *** Rounding to the format *)

Lemma round64_pos x : 0 <= x -> round64 x = round_magnitude x.
Proof.
  intros H. unfold round64. apply Qle_bool_iff in H. rewrite H. reflexivity.
Qed.

Lemma round64_neg x : x < 0 -> round64 x = - round_magnitude (- x).
Proof.
  intros H. unfold round64.
  destruct (Qle_bool 0 x) eqn:E; [|reflexivity].
  apply Qle_bool_iff in E. exfalso. lra.
Qed.

Lemma round64_opp x : round64 (- x) == - round64 x.
Proof.
  destruct (Qlt_le_dec x 0) as [H | H].
  - rewrite (round64_neg x H), (round64_pos (- x)) by lra. ring.
  - destruct (Qeq_dec x 0) as [E | E].
    + rewrite (round64_pos x H), (round64_pos (- x)) by lra.
      rewrite (round_magnitude_0 x E), (round_magnitude_0 (- x)) by lra.
      reflexivity.
    + assert (0 < x) by (apply Qle_lteq in H; destruct H as [H | H];
        [exact H | exfalso; apply E; symmetry; exact H]).
      rewrite (round64_pos x H), (round64_neg (- x)) by lra.
      assert (Hxx : round_magnitude (- - x) == round_magnitude x).
      { apply Qle_antisym; apply round_magnitude_mono; lra. }
      rewrite Hxx. reflexivity.
Qed.

Lemma round64_mono x y : x <= y -> round64 x <= round64 y.
Proof.
  intros Hxy.
  destruct (Qlt_le_dec x 0) as [Hx | Hx], (Qlt_le_dec y 0) as [Hy | Hy].
  - rewrite (round64_neg x Hx), (round64_neg y Hy).
    apply Qopp_le_compat, round_magnitude_mono; lra.
  - rewrite (round64_neg x Hx), (round64_pos y Hy).
    pose proof (round_magnitude_nonneg (- x)).
    pose proof (round_magnitude_nonneg y). lra.
  - exfalso. lra.
  - rewrite (round64_pos x Hx), (round64_pos y Hy).
    apply round_magnitude_mono; assumption.
Qed.

#[global] Instance round64_proper : Proper (Qeq ==> Qeq) round64.
Proof.
  intros x y E. apply Qle_antisym; apply round64_mono; rewrite E;
    apply Qle_refl.
Qed.

Lemma round64_idem x : float64 (round64 x).
Proof.
  unfold float64.
  destruct (Qlt_le_dec x 0) as [H | H].
  - rewrite (round64_neg x H). rewrite round64_opp.
    pose proof (round_magnitude_nonneg (- x)).
    rewrite round64_pos by lra. rewrite round_magnitude_idem by lra.
    reflexivity.
  - rewrite (round64_pos x H).
    pose proof (round_magnitude_nonneg x H).
    rewrite round64_pos by lra. apply round_magnitude_idem, H.
Qed.

Lemma round64_error x : Qabs (round64 x - x) <= u64 * Qabs x + eta64.
Proof.
  assert (He : 0 < eta64) by apply pow2_pos.
  assert (Hpos : forall y, 0 <= y ->
            Qabs (round_magnitude y - y) <= u64 * y + eta64).
  { intros y Hy. destruct (Qeq_dec y 0) as [E | E].
    - rewrite (round_magnitude_0 y E). unfold u64.
      apply Qabs_Qle_condition. split; lra.
    - assert (Hy' : 0 < y) by (apply Qle_lteq in Hy; destruct Hy as [H | H];
        [exact H | exfalso; apply E; symmetry; exact H]).
      pose proof (round_magnitude_error y) as [H1 H2].
      pose proof (half_ulp y Hy').
      apply Qabs_Qle_condition. split; lra. }
  unfold u64 in *.
  destruct (Qlt_le_dec x 0) as [H | H].
  - rewrite (round64_neg x H). rewrite (Qabs_neg x) by lra.
    assert (Hx : 0 <= - x) by lra.
    pose proof (Hpos (- x) Hx) as Hp.
    apply Qabs_Qle_condition in Hp.
    apply Qabs_Qle_condition. split; lra.
  - rewrite (round64_pos x H). rewrite (Qabs_pos x) by lra.
    apply Hpos, H.
Qed.

Lemma float64_0 : float64 0.
Proof.
  unfold float64. rewrite round64_pos by lra.
  apply round_magnitude_0. reflexivity.
Qed.

Lemma float64_opp v : float64 v -> float64 (- v).
Proof. unfold float64. intros H. rewrite round64_opp, H. reflexivity. Qed.

Lemma float64_integer (M : Z) :
  (Z.abs M <= 2 ^ 53)%Z -> float64 (inject_Z M).
Proof.
  intros HM.
  assert (Hnn : forall K, (0 <= K <= 2 ^ 53)%Z -> float64 (inject_Z K)).
  { intros K HK. unfold float64.
    assert (E1 : inject_Z K == inject_Z K * 2 ^ 0)
      by (change (2 ^ 0) with 1; ring).
    rewrite E1. rewrite round64_pos.
    - apply round_magnitude_fix; lia.
    - rewrite <- E1. change 0 with (inject_Z 0). rewrite <- Zle_Qle. lia. }
  destruct (Z.le_gt_cases 0 M) as [H | H].
  - apply Hnn. lia.
  - replace M with (- - M)%Z by lia. rewrite inject_Z_opp.
    apply float64_opp, Hnn. lia.
Qed.

Lemma round64_0 : round64 0 == 0.
Proof. exact float64_0. Qed.

Lemma round64_near x X :
  - X <= x <= X ->
  x - (u64 * X + eta64) <= round64 x <= x + (u64 * X + eta64).
Proof.
  intros [H1 H2].
  pose proof (round64_error x) as H.
  assert (Ha : Qabs x <= X) by (apply Qabs_Qle_condition; split; lra).
  assert (Hu : u64 * Qabs x <= u64 * X).
  { rewrite !(Qmult_comm u64). apply Qmult_le_compat_r; [exact Ha|].
    discriminate. }
  apply Qabs_Qle_condition in H. lra.
Qed.

Lemma eta64_small : 0 < eta64 /\ eta64 <= 1 # 1267650600228229401496703205376.
Proof.
  split; [apply pow2_pos|].
  apply Qle_bool_iff. vm_compute. reflexivity.
Qed.

End Binary64Facts.

(** * Properties of the state encoder *)

Module StateEncoderFacts.

Import StateEncoder Vocabulary.
Local Open Scope Z_scope.

Lemma DIRECTION_TO_ID_lookup d :
  DIRECTION_TO_ID !! d =
  if decide (valid_direction d) then Some (d + 1) else None.
Proof.
  unfold DIRECTION_TO_ID, valid_direction.
  rewrite !lookup_insert, lookup_singleton.
  repeat case_decide; try lia; f_equal; lia.
Qed.

Lemma POP_TREND_TO_ID_lookup p :
  POP_TREND_TO_ID !! p =
  if decide (valid_pop_trend p) then Some (p + 1) else None.
Proof. apply DIRECTION_TO_ID_lookup. Qed.

(** The inverted dictionary, computed. *)
Lemma ID_TO_DIRECTION_eq :
  ID_TO_DIRECTION = {[ 0 := -1; 1 := 0; 2 := 1 ]}.
Proof. apply map_eq. intros i. reflexivity. Qed.

Lemma ID_TO_DIRECTION_lookup s :
  ID_TO_DIRECTION !! s =
  if decide (s = 0 \/ s = 1 \/ s = 2) then Some (s - 1) else None.
Proof.
  rewrite ID_TO_DIRECTION_eq, !lookup_insert, lookup_singleton.
  repeat case_decide; try lia; f_equal; lia.
Qed.

Lemma encode_direction_int d :
  encode_direction (PyInt d) = if decide (valid_direction d) then d + 1 else 1.
Proof.
  unfold encode_direction. cbn [py_int].
  rewrite DIRECTION_TO_ID_lookup. now case_decide.
Qed.

Lemma encode_pop_trend_int p :
  encode_pop_trend (PyInt p) = if decide (valid_pop_trend p) then p + 1 else 1.
Proof.
  unfold encode_pop_trend. cbn [py_int].
  rewrite POP_TREND_TO_ID_lookup. now case_decide.
Qed.

Lemma encode_rate_level_int x :
  encode_rate_level (PyInt x) = Z.max 0 (Z.min 2 x).
Proof.
  unfold encode_rate_level. cbn [py_int].
  destruct (Z.ltb_spec x 0), (Z.ltb_spec 2 x);
    try destruct (Z.ltb_spec 2 0); lia.
Qed.

Lemma encode_direction_range v : 0 <= encode_direction v <= 2.
Proof.
  destruct v as [d|].
  - rewrite encode_direction_int. unfold valid_direction.
    case_decide; lia.
  - vm_compute. split; discriminate.
Qed.

Lemma encode_pop_trend_range v : 0 <= encode_pop_trend v <= 2.
Proof.
  destruct v as [p|].
  - rewrite encode_pop_trend_int. unfold valid_pop_trend.
    case_decide; lia.
  - vm_compute. split; discriminate.
Qed.

Lemma encode_rate_level_range v : 0 <= encode_rate_level v <= 2.
Proof.
  destruct v as [x|].
  - rewrite encode_rate_level_int. lia.
  - vm_compute. split; discriminate.
Qed.

Lemma encode_state_range dv rv pv : 0 <= encode_state dv rv pv <= 26.
Proof.
  unfold encode_state.
  pose proof (encode_direction_range dv).
  pose proof (encode_rate_level_range rv).
  pose proof (encode_pop_trend_range pv).
  lia.
Qed.

(** C3.  On the valid domains [encode_state] is the base-3 positional code
    [dir_id*9 + rate_id*3 + pop_id] with [dir_id = direction+1],
    [rate_id = rate_level], [pop_id = pop_trend+1]; it lands in [0,26]; two
    valid triples with the same state id are equal, so the 27 valid triples
    get 27 distinct ids; and [decode_direction] undoes [encode_direction]. *)
Theorem encode_state_valid_bijective d r p d' r' p' :
  valid_direction d -> valid_rate_level r -> valid_pop_trend p ->
  valid_direction d' -> valid_rate_level r' -> valid_pop_trend p' ->
  encode_state (PyInt d) (PyInt r) (PyInt p)
    = encode_direction (PyInt d) * 9 + encode_rate_level (PyInt r) * 3
      + encode_pop_trend (PyInt p)
  /\ encode_direction (PyInt d) = d + 1
  /\ encode_rate_level (PyInt r) = r
  /\ encode_pop_trend (PyInt p) = p + 1
  /\ 0 <= encode_state (PyInt d) (PyInt r) (PyInt p) <= 26
  /\ (encode_state (PyInt d) (PyInt r) (PyInt p)
        = encode_state (PyInt d') (PyInt r') (PyInt p')
      -> d = d' /\ r = r' /\ p = p')
  /\ length all_state_ids = 27%nat
  /\ NoDup all_state_ids
  /\ decode_direction (PyInt (encode_direction (PyInt d))) = d.
Proof.
  intros Hd Hr Hp Hd' Hr' Hp'.
  assert (Ed : encode_direction (PyInt d) = d + 1).
  { rewrite encode_direction_int. now case_decide. }
  assert (Ed' : encode_direction (PyInt d') = d' + 1).
  { rewrite encode_direction_int. now case_decide. }
  assert (Ep : encode_pop_trend (PyInt p) = p + 1).
  { rewrite encode_pop_trend_int. now case_decide. }
  assert (Ep' : encode_pop_trend (PyInt p') = p' + 1).
  { rewrite encode_pop_trend_int. now case_decide. }
  assert (Er : encode_rate_level (PyInt r) = r).
  { rewrite encode_rate_level_int. unfold valid_rate_level in Hr. lia. }
  assert (Er' : encode_rate_level (PyInt r') = r').
  { rewrite encode_rate_level_int. unfold valid_rate_level in Hr'. lia. }
  split; [reflexivity|].
  do 3 (split; [assumption|]).
  split; [apply encode_state_range|].
  split.
  { intros E. unfold encode_state in E.
    rewrite Ed, Ed', Er, Er', Ep, Ep' in E.
    unfold valid_direction, valid_rate_level, valid_pop_trend in *. lia. }
  split; [reflexivity|].
  split.
  { apply (bool_decide_unpack (NoDup all_state_ids)). vm_compute. exact I. }
  rewrite Ed. unfold decode_direction. cbn [py_int].
  rewrite ID_TO_DIRECTION_lookup. unfold valid_direction in Hd.
  case_decide; simpl; lia.
Qed.

Lemma encode_state_valid_bijective_witness :
  encode_state (PyInt 1) (PyInt 2) (PyInt (-1)) = 24
  /\ decode_direction (PyInt (encode_direction (PyInt 1))) = 1.
Proof.
  assert (V1 : valid_direction 1) by (unfold valid_direction; lia).
  assert (V2 : valid_rate_level 2) by (unfold valid_rate_level; lia).
  assert (V3 : valid_pop_trend (-1)) by (unfold valid_pop_trend; lia).
  pose proof (encode_state_valid_bijective 1 2 (-1) 1 2 (-1) V1 V2 V3 V1 V2 V3)
    as (_ & _ & _ & _ & _ & _ & _ & _ & Hrt).
  split; [reflexivity | exact Hrt].
Defined.

(** C9.  [encode_state] is total and always lands in [0,26]; each
    sub-encoder coerces what it does not recognise: a direction or
    population trend outside {-1,0,1}, or one that [int] rejects, becomes
    id 1; a rate level is clamped into [0,2], and one that [int] rejects
    becomes 1. *)
Theorem encode_state_total dv rv pv :
  0 <= encode_state dv rv pv <= 26
  /\ encode_state dv rv pv
     = encode_direction dv * 9 + encode_rate_level rv * 3 + encode_pop_trend pv
  /\ encode_direction dv
     = match py_int dv with
       | Some d => if decide (valid_direction d) then d + 1 else 1
       | None => 1
       end
  /\ encode_rate_level rv
     = match py_int rv with
       | Some x => if x <? 0 then 0 else if 2 <? x then 2 else x
       | None => 1
       end
  /\ encode_pop_trend pv
     = match py_int pv with
       | Some p => if decide (valid_pop_trend p) then p + 1 else 1
       | None => 1
       end.
Proof.
  split; [apply encode_state_range|].
  split; [reflexivity|].
  split; [|split].
  - destruct dv; [apply encode_direction_int | reflexivity].
  - destruct rv as [x|]; [|reflexivity].
    rewrite encode_rate_level_int. cbn [py_int].
    destruct (Z.ltb_spec x 0), (Z.ltb_spec 2 x); lia.
  - destruct pv; [apply encode_pop_trend_int | reflexivity].
Qed.

End StateEncoderFacts.

(** * Properties of the environment *)

Module EnvironmentFacts.

Import StateEncoder Environment Vocabulary StateEncoderFacts.
Local Open Scope Z_scope.

Lemma df_loc_in_range d i :
  0 <= i < df_len d -> exists r, df_loc d i = Ok r.
Proof.
  intros [Hlo Hhi]. unfold df_loc, df_len in *.
  destruct (Z.ltb_spec i 0) as [|_]; [lia|].
  destruct (rows d !! Z.to_nat i) as [r|] eqn:E; [eauto|].
  apply lookup_ge_None in E. lia.
Qed.

Lemma df_loc_ok_range d i r : df_loc d i = Ok r -> 0 <= i < df_len d.
Proof.
  unfold df_loc, df_len. destruct (Z.ltb_spec i 0); [discriminate|].
  destruct (rows d !! Z.to_nat i) eqn:E; [|discriminate].
  intros _. apply lookup_lt_Some in E. lia.
Qed.

Lemma get_state_ok e i r :
  df_loc (df e) i = Ok r -> _get_state e i = Ok (row_state r).
Proof. intros H. unfold _get_state. rewrite H. reflexivity. Qed.

Lemma get_state_set_idx e j i :
  _get_state (set_current_idx e j) i = _get_state e i.
Proof. reflexivity. Qed.

(** [reset] on a table with at least two rows. *)
Lemma reset_ok d e :
  env_inv d e -> 2 <= df_len d ->
  exists r0, df_loc d 0 = Ok r0
             /\ reset e = Ok (set_current_idx e 0, row_state r0).
Proof.
  intros (Hdf & Hn & Hm & _) Hlen.
  destruct (df_loc_in_range d 0) as [r0 Hr0]; [lia|].
  exists r0. split; [assumption|].
  unfold reset. rewrite Hn.
  destruct (Z.ltb_spec (df_len d) 2); [lia|].
  rewrite get_state_set_idx, (get_state_ok _ _ r0) by now rewrite Hdf.
  reflexivity.
Qed.

Lemma reset_small d e :
  env_inv d e -> df_len d < 2 -> reset e = Raise ValueError.
Proof.
  intros (_ & Hn & _) Hlen. unfold reset. rewrite Hn.
  destruct (Z.ltb_spec (df_len d) 2); [reflexivity|lia].
Qed.

(** [step] while the pointer is at most [n-2]: the full result. *)
Lemma step_active d e t :
  env_inv d e -> current_idx e = Some t -> t <= df_len d - 2 ->
  exists row_t row_next,
    df_loc d t = Ok row_t /\ df_loc d (t + 1) = Ok row_next /\
    forall a,
      step e a =
      Ok (set_current_idx e (t + 1),
          (row_state row_next,
           if a =? true_action_id (direction row_next) then 1%Q else (-1)%Q,
           df_len d - 1 <=? t + 1,
           InfoStep (ym row_t) (ym row_next) (direction row_next)
                    (direction_label (direction row_next)))).
Proof.
  intros (Hdf & Hn & Hm & Hidx) Ht Hle. rewrite Ht in Hidx.
  destruct Hidx as [Hrange Hlen].
  destruct (df_loc_in_range d t) as [row_t Hrt]; [lia|].
  destruct (df_loc_in_range d (t + 1)) as [row_next Hrn]; [lia|].
  exists row_t, row_next. repeat (split; [assumption|]).
  intros a. unfold step. rewrite Ht, Hm.
  destruct (Z.ltb_spec (df_len d - 2) t); [lia|].
  rewrite Hdf, Hrn. cbn [mbind result_bind].
  rewrite get_state_set_idx, (get_state_ok _ _ row_next) by now rewrite Hdf.
  cbn [mbind result_bind set_current_idx df max_step_index].
  rewrite Hdf, Hrt, Hm. cbn [mbind result_bind].
  replace (df_len d - 2 + 1) with (df_len d - 1) by lia.
  reflexivity.
Qed.

(** [step] once the pointer is past [n-2]. *)
Lemma step_finished d e i :
  env_inv d e -> current_idx e = Some i -> df_len d - 2 < i ->
  exists row, df_loc d i = Ok row /\
    forall a,
      step e a =
      Ok (e, (row_state row, 0%Q, true,
              InfoMsg "에피소드 종료 상태에서 step 호출")).
Proof.
  intros (Hdf & Hn & Hm & Hidx) Hi Hlt. rewrite Hi in Hidx.
  destruct Hidx as [Hrange Hlen].
  destruct (df_loc_in_range d i) as [row Hrow]; [lia|].
  exists row. split; [assumption|]. intros a.
  unfold step. rewrite Hi, Hm.
  destruct (Z.ltb_spec (df_len d - 2) i); [|lia].
  rewrite (get_state_ok _ _ row) by now rewrite Hdf.
  reflexivity.
Qed.

Lemma env_inv_init d : env_inv d (init d).
Proof. unfold env_inv, init. cbn. auto. Qed.

Lemma env_inv_set_idx d e i :
  env_inv d e -> 0 <= i < df_len d -> 2 <= df_len d ->
  env_inv d (set_current_idx e i).
Proof. intros (Hdf & Hn & Hm & _) Hi Hlen. unfold env_inv. cbn. auto. Qed.

Lemma env_inv_reset d e e' s :
  env_inv d e -> reset e = Ok (e', s) -> env_inv d e'.
Proof.
  intros Hinv Hres.
  destruct (Z.lt_ge_cases (df_len d) 2) as [Hs|Hl].
  - rewrite (reset_small d e Hinv Hs) in Hres. discriminate.
  - destruct (reset_ok d e Hinv) as (r0 & _ & E); [lia|].
    rewrite E in Hres. injection Hres as <- _.
    apply env_inv_set_idx; [assumption|lia|lia].
Qed.

Lemma env_inv_step d e a e' out :
  env_inv d e -> step e a = Ok (e', out) -> env_inv d e'.
Proof.
  intros Hinv Hstep.
  destruct (current_idx e) as [i|] eqn:Hi.
  - pose proof Hinv as (_ & _ & _ & Hidx). rewrite Hi in Hidx.
    destruct (Z.le_gt_cases i (df_len d - 2)) as [Hle|Hgt].
    + destruct (step_active d e i Hinv Hi Hle) as (rt & rn & _ & _ & E).
      rewrite E in Hstep. injection Hstep as <- _.
      apply env_inv_set_idx; [assumption|lia|lia].
    + destruct (step_finished d e i Hinv Hi) as (r & _ & E); [lia|].
      rewrite E in Hstep. injection Hstep as <- _. assumption.
  - unfold step in Hstep. rewrite Hi in Hstep. discriminate.
Qed.

Lemma reachable_inv d e : reachable d e -> env_inv d e.
Proof.
  induction 1 as [|e e' s _ IH Hres|e a e' out _ IH Hstep].
  - apply env_inv_init.
  - eapply env_inv_reset; eassumption.
  - eapply env_inv_step; eassumption.
Qed.

Lemma reachable_flat_up_down_0 : reachable flat_up_down (env_at flat_up_down 0).
Proof. eapply reach_reset; [apply reach_init | reflexivity]. Qed.

Lemma reachable_flat_up_down_1 : reachable flat_up_down (env_at flat_up_down 1).
Proof.
  eapply (reach_step _ _ 2); [apply reachable_flat_up_down_0 | reflexivity].
Qed.

Lemma reachable_flat_up_down_2 : reachable flat_up_down (env_at flat_up_down 2).
Proof.
  eapply (reach_step _ _ 0); [apply reachable_flat_up_down_1 | reflexivity].
Qed.

(** The rewards of the three-row example: "up" at index 0 and "down" at
    index 1 earn +1, a mismatch earns -1. *)
Example reward_flat_up_down :
  (snd <$> step (env_at flat_up_down 0) 2,
   snd <$> step (env_at flat_up_down 1) 0,
   snd <$> step (env_at flat_up_down 0) 1)
  = (Ok (22, 1%Q, false, InfoStep "2024-01" "2024-02" 1 "상승"),
     Ok (4, 1%Q, true, InfoStep "2024-02" "2024-03" (-1) "하락"),
     Ok (22, (-1)%Q, false, InfoStep "2024-01" "2024-02" 1 "상승")).
Proof. reflexivity. Qed.

Lemma true_action_id_valid dir :
  valid_direction dir ->
  true_action_id dir = encode_direction (PyInt dir)
  /\ true_action_id dir = dir + 1.
Proof.
  intros Hv. rewrite encode_direction_int.
  destruct (decide (valid_direction dir)); [|contradiction].
  unfold valid_direction in Hv. unfold true_action_id.
  destruct (Z.ltb_spec dir 0), (Z.ltb_spec 0 dir); lia.
Qed.

(** C2.  At a pointer [t <= n-2], [step a] pays +1 exactly when [a] is the
    action id of the direction of row [t+1] and -1 otherwise; for a label
    in {-1,0,1} that id is the encoder's (down 0, flat 1, up 2).  No other
    reward occurs on such a step. *)
Theorem step_reward_matches_next_direction d e t a :
  reachable d e -> current_idx e = Some t -> 0 <= t <= df_len d - 2 ->
  exists row_next e' next_state reward done info,
    df_loc d (t + 1) = Ok row_next
    /\ step e a = Ok (e', (next_state, reward, done, info))
    /\ reward = (if a =? true_action_id (direction row_next)
                 then 1%Q else (-1)%Q)
    /\ (valid_direction (direction row_next) ->
        true_action_id (direction row_next)
          = encode_direction (PyInt (direction row_next))
        /\ true_action_id (direction row_next) = direction row_next + 1)
    /\ (reward = 1%Q \/ reward = (-1)%Q).
Proof.
  intros Hreach Hidx [_ Hle].
  destruct (step_active d e t (reachable_inv d e Hreach) Hidx Hle)
    as (row_t & row_next & _ & Hnext & Hstep).
  exists row_next. do 5 eexists.
  split; [exact Hnext|]. split; [apply Hstep|].
  split; [reflexivity|]. split; [apply true_action_id_valid|].
  destruct (a =? true_action_id (direction row_next)); auto.
Qed.

Lemma step_reward_matches_next_direction_witness :
  exists row_next e' next_state reward done info,
    df_loc flat_up_down 1 = Ok row_next
    /\ step (env_at flat_up_down 0) 2
       = Ok (e', (next_state, reward, done, info))
    /\ reward = (if 2 =? true_action_id (direction row_next)
                 then 1%Q else (-1)%Q)
    /\ (valid_direction (direction row_next) ->
        true_action_id (direction row_next)
          = encode_direction (PyInt (direction row_next))
        /\ true_action_id (direction row_next) = direction row_next + 1)
    /\ (reward = 1%Q \/ reward = (-1)%Q).
Proof.
  apply (step_reward_matches_next_direction flat_up_down
           (env_at flat_up_down 0) 0 2).
  - apply reachable_flat_up_down_0.
  - reflexivity.
  - unfold df_len. simpl. lia.
Defined.

(** C4.  At a pointer [t <= n-2], any two actions leave the environment
    in the same state, with the pointer at [t+1], and return the same
    next state: the encoded state of row [t+1].  Only the reward and the
    info may differ. *)
Theorem step_transition_ignores_action d e t a1 a2 :
  reachable d e -> current_idx e = Some t -> 0 <= t <= df_len d - 2 ->
  exists row_next e' r1 r2 done i1 i2,
    df_loc d (t + 1) = Ok row_next
    /\ step e a1 = Ok (e', (row_state row_next, r1, done, i1))
    /\ step e a2 = Ok (e', (row_state row_next, r2, done, i2))
    /\ current_idx e' = Some (t + 1)
    /\ _get_state e' (t + 1) = Ok (row_state row_next).
Proof.
  intros Hreach Hidx [_ Hle].
  pose proof (reachable_inv d e Hreach) as Hinv.
  destruct (step_active d e t Hinv Hidx Hle)
    as (row_t & row_next & _ & Hnext & Hstep).
  exists row_next, (set_current_idx e (t + 1)). do 5 eexists.
  split; [exact Hnext|]. split; [apply Hstep|]. split; [apply Hstep|].
  split; [reflexivity|].
  rewrite get_state_set_idx. apply get_state_ok.
  destruct Hinv as (-> & _). exact Hnext.
Qed.

Lemma step_transition_ignores_action_witness :
  exists row_next e' r1 r2 done i1 i2,
    df_loc flat_up_down 1 = Ok row_next
    /\ step (env_at flat_up_down 0) 0
       = Ok (e', (row_state row_next, r1, done, i1))
    /\ step (env_at flat_up_down 0) 2
       = Ok (e', (row_state row_next, r2, done, i2))
    /\ current_idx e' = Some 1
    /\ _get_state e' 1 = Ok (row_state row_next).
Proof.
  apply (step_transition_ignores_action flat_up_down
           (env_at flat_up_down 0) 0 0 2).
  - apply reachable_flat_up_down_0.
  - reflexivity.
  - unfold df_len. simpl. lia.
Defined.

(** C7.  Once the pointer has passed [max_step_index = n-2], [step a]
    returns reward 0 and [done = true] for every action, the returned
    state is the encoded state of the current row, and the environment,
    its pointer included, is left as it was. *)
Theorem step_after_termination_is_noop d e i a :
  reachable d e -> current_idx e = Some i -> max_step_index e < i ->
  exists row info,
    df_loc d i = Ok row
    /\ _get_state e i = Ok (row_state row)
    /\ step e a = Ok (e, (row_state row, 0%Q, true, info)).
Proof.
  intros Hreach Hidx Hlt.
  pose proof (reachable_inv d e Hreach) as Hinv.
  pose proof Hinv as (Hdf & _ & Hm & _). rewrite Hm in Hlt.
  destruct (step_finished d e i Hinv Hidx Hlt) as (row & Hrow & Hstep).
  exists row. eexists. split; [exact Hrow|].
  split; [apply get_state_ok; now rewrite Hdf | apply Hstep].
Qed.

Lemma step_after_termination_is_noop_witness :
  exists row info,
    df_loc flat_up_down 2 = Ok row
    /\ _get_state (env_at flat_up_down 2) 2 = Ok (row_state row)
    /\ step (env_at flat_up_down 2) 1
       = Ok (env_at flat_up_down 2, (row_state row, 0%Q, true, info)).
Proof.
  apply (step_after_termination_is_noop flat_up_down
           (env_at flat_up_down 2) 2 1).
  - apply reachable_flat_up_down_2.
  - reflexivity.
  - vm_compute. reflexivity.
Defined.

End EnvironmentFacts.

(** * Properties of the greedy rollout and of the learner *)

Module QLearningFacts.

Import Binary64 StateEncoder Environment Numpy QLearning Vocabulary.
Import Binary64Facts StateEncoderFacts EnvironmentFacts.
Local Open Scope Z_scope.

Lemma np_pos_ok n i :
  0 <= i < Z.of_nat n -> np_pos n i = Ok (Z.to_nat i).
Proof.
  intros [Hlo Hhi]. unfold np_pos.
  destruct (Z.ltb_spec i 0); [lia|].
  destruct (Z.ltb_spec i 0); [lia|].
  destruct (Z.leb_spec (Z.of_nat n) i); [lia|]. reflexivity.
Qed.

Lemma np_index_ok {A} (l : list A) i :
  0 <= i < Z.of_nat (length l) ->
  exists x, l !! Z.to_nat i = Some x /\ np_index l i = Ok x.
Proof.
  intros Hi. unfold np_index. rewrite np_pos_ok by assumption.
  cbn [mbind result_bind].
  destruct (l !! Z.to_nat i) as [x|] eqn:E.
  - exists x. split; reflexivity.
  - apply lookup_ge_None in E. lia.
Qed.

Lemma table_row_ok Qt ns na s :
  table_shape Qt ns na -> 0 <= s < ns ->
  exists row, Qt !! Z.to_nat s = Some row /\ np_index Qt s = Ok row
              /\ Z.of_nat (length row) = na.
Proof.
  intros [Hlen Hrows] Hs.
  destruct (np_index_ok Qt s) as (row & Hl & Hi); [lia|].
  exists row. repeat split; trivial.
  rewrite Forall_lookup in Hrows. exact (Hrows _ _ Hl).
Qed.

Lemma argmax_from_range l : forall bi b i,
  0 <= bi < i -> 0 <= argmax_from bi b i l < i + Z.of_nat (length l).
Proof.
  induction l as [|x l IH]; intros bi b i Hb; cbn [argmax_from length].
  - lia.
  - destruct (Qlt_bool b x).
    + specialize (IH i x (i + 1)). lia.
    + specialize (IH bi b (i + 1)). lia.
Qed.

Lemma np_argmax_ok row :
  1 <= Z.of_nat (length row) ->
  exists a, np_argmax row = Ok a /\ 0 <= a < Z.of_nat (length row).
Proof.
  destruct row as [|x l]; cbn [length]; [lia|]. intros _.
  eexists. split; [reflexivity|].
  pose proof (argmax_from_range l 0 x 1). cbn [length]. lia.
Qed.

Lemma row_state_range r : 0 <= row_state r <= 26.
Proof. apply encode_state_range. Qed.

Section Greedy.

Variables (d : DataFrame) (Qt : list (list Q)) (ns na max_steps : Z).
Hypothesis Hshape : table_shape Qt ns na.
Hypothesis Hns : 27 <= ns.
Hypothesis Hna : 1 <= na.

(** One pass of the rollout from a pointer [t <= n-2]. *)
Lemma greedy_iteration_active st t :
  env_inv d (gs_env st) -> current_idx (gs_env st) = Some t ->
  t <= df_len d - 2 -> 0 <= gs_state st <= 26 ->
  exists st',
    greedy_iteration Qt st = Ok st'
    /\ env_inv d (gs_env st')
    /\ current_idx (gs_env st') = Some (t + 1)
    /\ 0 <= gs_state st' <= 26
    /\ gs_done st' = (df_len d - 1 <=? t + 1)
    /\ gs_steps st' = gs_steps st + 1
    /\ length (gs_history st') = S (length (gs_history st)).
Proof.
  intros Hinv Hidx Hle Hs.
  destruct (table_row_ok Qt ns na (gs_state st) Hshape)
    as (row & _ & Hrow & Hlen); [lia|].
  destruct (np_argmax_ok row) as (a & Ha & _); [lia|].
  destruct (step_active d _ t Hinv Hidx Hle) as (rt & rn & _ & _ & Hstep).
  unfold greedy_iteration. rewrite Hrow. cbn [mbind result_bind].
  rewrite Ha. cbn [mbind result_bind]. rewrite Hstep.
  cbn [mbind result_bind].
  eexists. split; [reflexivity|]. cbn.
  pose proof Hinv as (_ & _ & _ & Hi). rewrite Hidx in Hi.
  split; [apply env_inv_set_idx; [assumption|lia|lia]|].
  split; [reflexivity|]. split; [apply row_state_range|].
  split; [reflexivity|]. split; [reflexivity|].
  rewrite length_app. cbn. lia.
Qed.

(** The loop runs exactly the [n-1-t] passes that separate the pointer
    from the last row, provided the cap allows them, and leaves with
    [done]. *)
Lemma greedy_loop_runs (k : nat) : forall fuel st t,
  env_inv d (gs_env st) -> current_idx (gs_env st) = Some t ->
  Z.of_nat (S k) = df_len d - 1 - t -> 0 <= gs_state st <= 26 ->
  gs_done st = false -> gs_steps st + Z.of_nat (S k) <= max_steps ->
  (S k <= fuel)%nat ->
  exists st',
    greedy_loop fuel Qt max_steps st = Ok st'
    /\ env_inv d (gs_env st')
    /\ current_idx (gs_env st') = Some (df_len d - 1)
    /\ gs_done st' = true
    /\ gs_steps st' = gs_steps st + Z.of_nat (S k)
    /\ length (gs_history st') = (length (gs_history st) + S k)%nat.
Proof.
  induction k as [|k IH]; intros fuel st t Hinv Hidx Hk Hs Hd Hcap Hfuel;
    (destruct fuel as [|fuel]; [lia|]);
    destruct (greedy_iteration_active st t Hinv Hidx) as
      (st1 & Hit & Hinv1 & Hidx1 & Hs1 & Hd1 & Hsteps1 & Hlen1);
    try lia;
    cbn [greedy_loop]; rewrite Hd;
    (destruct (Z.ltb_spec (gs_steps st) max_steps); [|lia]);
    cbn [negb andb]; rewrite Hit; cbn [mbind result_bind].
  - assert (Hd1' : gs_done st1 = true).
    { rewrite Hd1. apply Z.leb_le. lia. }
    exists st1. split.
    { destruct fuel; cbn [greedy_loop]; rewrite Hd1'; reflexivity. }
    split; [assumption|]. split; [rewrite Hidx1; f_equal; lia|].
    split; [assumption|]. split; lia.
  - assert (Hd1' : gs_done st1 = false).
    { rewrite Hd1. apply Z.leb_gt. lia. }
    destruct (IH fuel st1 (t + 1)) as
      (st' & Hloop & Hinv' & Hidx' & Hd' & Hsteps' & Hlen');
      try assumption; try lia.
    exists st'. do 4 (split; [assumption|]). split; lia.
Qed.

End Greedy.

Lemma zero_table_shape : table_shape zero_table 27 3.
Proof.
  split; [reflexivity|]. unfold zero_table.
  apply Forall_replicate. reflexivity.
Qed.

(** C1 (as the code has it).  On a table of [n >= 2] rows, with a
    27 x 3 value table and a step cap of at least [n-1], the greedy
    rollout resets, performs exactly [n-1] environment steps, and leaves
    its loop because the last step reported [done]; the pointer then sits
    on the last row. *)
Theorem greedy_rollout_steps d e Qt max_steps :
  reachable d e -> 2 <= df_len d -> table_shape Qt 27 3 ->
  df_len d - 1 <= max_steps ->
  exists e0 s0 st,
    reset e = Ok (e0, s0)
    /\ greedy_loop (Z.to_nat max_steps) Qt max_steps
         {| gs_env := e0; gs_state := s0; gs_done := false;
            gs_total_reward := 0%Q; gs_steps := 0; gs_history := [] |}
       = Ok st
    /\ run_greedy_policy e Qt max_steps
       = Ok (gs_total_reward st, gs_steps st, gs_history st, gs_env st)
    /\ gs_steps st = df_len d - 1
    /\ Z.of_nat (length (gs_history st)) = df_len d - 1
    /\ gs_done st = true
    /\ current_idx (gs_env st) = Some (df_len d - 1).
Proof.
  intros Hreach Hn Hshape Hcap.
  pose proof (reachable_inv d e Hreach) as Hinv.
  destruct (reset_ok d e Hinv Hn) as (r0 & Hr0 & Hreset).
  set (st0 := {| gs_env := set_current_idx e 0; gs_state := row_state r0;
                 gs_done := false; gs_total_reward := 0%Q; gs_steps := 0;
                 gs_history := [] |}).
  destruct (greedy_loop_runs d Qt 27 3 max_steps Hshape ltac:(lia) ltac:(lia)
              (Z.to_nat (df_len d - 2)) (Z.to_nat max_steps) st0 0)
    as (st & Hloop & _ & Hidx & Hdone & Hsteps & Hlen).
  - apply env_inv_set_idx; [assumption|lia|lia].
  - reflexivity.
  - lia.
  - apply row_state_range.
  - reflexivity.
  - cbn [gs_steps st0]. lia.
  - lia.
  - exists (set_current_idx e 0), (row_state r0), st.
    split; [exact Hreset|]. split; [exact Hloop|].
    split.
    { unfold run_greedy_policy. rewrite Hreset. cbn [mbind result_bind].
      fold st0. rewrite Hloop. reflexivity. }
    cbn [gs_steps gs_history st0 length] in Hsteps, Hlen.
    split; [lia|]. split; [lia|]. split; assumption.
Qed.

Lemma greedy_rollout_steps_witness :
  exists e0 s0 st,
    reset (init flat_up_down) = Ok (e0, s0)
    /\ greedy_loop (Z.to_nat 100) zero_table 100
         {| gs_env := e0; gs_state := s0; gs_done := false;
            gs_total_reward := 0%Q; gs_steps := 0; gs_history := [] |}
       = Ok st
    /\ run_greedy_policy (init flat_up_down) zero_table 100
       = Ok (gs_total_reward st, gs_steps st, gs_history st, gs_env st)
    /\ gs_steps st = df_len flat_up_down - 1
    /\ Z.of_nat (length (gs_history st)) = df_len flat_up_down - 1
    /\ gs_done st = true
    /\ current_idx (gs_env st) = Some (df_len flat_up_down - 1).
Proof.
  apply (greedy_rollout_steps flat_up_down (init flat_up_down) zero_table 100).
  - apply reach_init.
  - vm_compute. discriminate.
  - apply zero_table_shape.
  - vm_compute. discriminate.
Defined.

(** The rollout on the three-row example, run: two steps, not one. *)
Example greedy_rollout_flat_up_down :
  (fun r => (r.1.1.2, length r.1.2)) <$>
    run_greedy_policy (init flat_up_down) zero_table 100
  = Ok (2, 2%nat).
Proof. vm_compute. reflexivity. Qed.

(** C1 as stated fails: a rollout of [n-2] steps is not what happens on
    the three-row example, where it takes two. *)
Lemma greedy_rollout_not_n_minus_2 :
  ~ (forall d e Qt max_steps,
       reachable d e -> 2 <= df_len d -> table_shape Qt 27 3 ->
       df_len d <= max_steps ->
       exists total history e',
         run_greedy_policy e Qt max_steps
         = Ok (total, df_len d - 2, history, e')).
Proof.
  intros H.
  destruct (H flat_up_down (init flat_up_down) zero_table 100)
    as (total & history & e' & Hrun).
  - apply reach_init.
  - vm_compute. discriminate.
  - apply zero_table_shape.
  - vm_compute. discriminate.
  - vm_compute in Hrun. discriminate Hrun.
Qed.

Section Exploration.

Local Open Scope Q_scope.

Lemma Qlt_bool_true a b : Qlt_bool a b = true <-> a < b.
Proof.
  unfold Qlt_bool. rewrite negb_true_iff.
  split.
  - intros H. apply Qnot_le_lt. intros Hle.
    apply Qle_bool_iff in Hle. congruence.
  - intros H. destruct (Qle_bool b a) eqn:E; [|reflexivity].
    apply Qle_bool_iff in E. exfalso. apply (Qlt_not_le _ _ H E).
Qed.

Lemma Qlt_bool_false a b : Qlt_bool a b = false <-> b <= a.
Proof.
  unfold Qlt_bool. rewrite negb_false_iff. apply Qle_bool_iff.
Qed.

Lemma py_max_cases a b :
  (a < b /\ py_max a b = b) \/ (b <= a /\ py_max a b = a).
Proof.
  unfold py_max. destruct (Qlt_bool a b) eqn:E.
  - left. split; [now apply Qlt_bool_true | reflexivity].
  - right. split; [now apply Qlt_bool_false | reflexivity].
Qed.


Lemma py_max_ge_l a b : a <= py_max a b.
Proof.
  destruct (py_max_cases a b) as [[H ->]|[H ->]];
    [now apply Qlt_le_weak | apply Qle_refl].
Qed.

Lemma py_max_ge_r a b : b <= py_max a b.
Proof.
  destruct (py_max_cases a b) as [[H ->]|[H ->]];
    [apply Qle_refl | assumption].
Qed.


Lemma Qpower_succ a (k : Z) : (0 <= k)%Z -> a ^ (k + 1) == a ^ k * a.
Proof.
  intros Hk. rewrite Qpower_plus' by lia. now rewrite Qpower_1_r.
Qed.

Lemma decay_power_step a (k : Z) :
  0 <= a -> a <= 1 -> (0 <= k)%Z -> a ^ (k + 1) <= a ^ k.
Proof.
  intros H0 H1 Hk. rewrite Qpower_succ by assumption.
  pose proof (Qpower_0_le a k H0) as Hp.
  nra.
Qed.

Lemma decay_power_range a (k : Z) :
  0 <= a -> a <= 1 -> (0 <= k)%Z -> 0 <= a ^ k <= 1.
Proof.
  intros H0 H1 Hk. split; [apply Qpower_0_le, H0|].
  revert k Hk. apply natlike_ind.
  - apply Qle_refl.
  - intros k Hk IH. change (Z.succ k) with (k + 1)%Z.
    eapply Qle_trans; [apply decay_power_step; assumption | exact IH].
Qed.


Lemma round64_1 : round64 1 == 1.
Proof. apply (float64_integer 1). vm_compute. discriminate. Qed.

Lemma float_pow_cases x (k : Z) :
  (0 <= k)%Z ->
  (Qabs (round64 (x ^ k)) < 2 ^ 1024
   /\ float_pow x k = Ok (round64 (x ^ k)))
  \/ (2 ^ 1024 <= Qabs (round64 (x ^ k))
      /\ float_pow x k = Raise OverflowError).
Proof.
  intros Hk. unfold float_pow.
  destruct (Z.ltb_spec k 0) as [Hn | _]; [lia|]. rewrite andb_false_r.
  destruct (Qle_bool (2 ^ 1024) (Qabs (round64 (x ^ k)))) eqn:E.
  - right. split; [apply Qle_bool_iff, E | reflexivity].
  - left. split; [|reflexivity].
    apply Qnot_le_lt. intros H. apply Qle_bool_iff in H. congruence.
Qed.

(** A decay factor in [[0,1]] cannot overflow. *)
Lemma float_pow_decay a (k : Z) :
  0 <= a -> a <= 1 -> (0 <= k)%Z ->
  float_pow a k = Ok (round64 (a ^ k)) /\ 0 <= round64 (a ^ k) <= 1.
Proof.
  intros H0 H1 Hk.
  destruct (decay_power_range a k H0 H1 Hk) as [Hp0 Hp1].
  assert (Hr : 0 <= round64 (a ^ k) <= 1).
  { split.
    - rewrite <- round64_0. apply round64_mono, Hp0.
    - rewrite <- round64_1. apply round64_mono, Hp1. }
  split; [|exact Hr].
  destruct (float_pow_cases a k Hk) as [[_ E] | [H _]]; [exact E|].
  exfalso. rewrite Qabs_pos in H by apply Hr.
  assert (H2 : 1 < 2 ^ 1024) by reflexivity. lra.
Qed.



Variables epsilon_start epsilon_end epsilon_decay : Q.

Lemma epsilon_of_ok (k : Z) :
  (0 <= k)%Z -> Qabs (round64 (epsilon_decay ^ k)) < 2 ^ 1024 ->
  epsilon_of epsilon_start epsilon_end epsilon_decay k
  = Ok (py_max epsilon_end
          (round64 (epsilon_start * round64 (epsilon_decay ^ k)))).
Proof.
  intros Hk Hfin. unfold epsilon_of.
  destruct (float_pow_cases epsilon_decay k Hk) as [[_ E] | [H _]].
  - rewrite E. reflexivity.
  - exfalso. lra.
Qed.

Lemma epsilon_of_overflow (k : Z) :
  (0 <= k)%Z -> 2 ^ 1024 <= Qabs (round64 (epsilon_decay ^ k)) ->
  epsilon_of epsilon_start epsilon_end epsilon_decay k = Raise OverflowError.
Proof.
  intros Hk Hinf. unfold epsilon_of.
  destruct (float_pow_cases epsilon_decay k Hk) as [[H _] | [_ E]].
  - exfalso. lra.
  - rewrite E. reflexivity.
Qed.



End Exploration.




(** With [epsilon_decay = 2] the power overflows at episode 1024, where
    the learner raises instead of computing a rate. *)
Example epsilon_overflows_at_1024 :
  epsilon_of 1 0.125 2 1023 = Ok (2 ^ 1023)%Q
  /\ epsilon_of 1 0.125 2 1024 = Raise OverflowError.
Proof. split; vm_compute; reflexivity. Qed.

Section Bound.

Local Open Scope Q_scope.

Variables (alpha gamma B : Q).
Hypothesis Ha0 : 0 <= alpha.
Hypothesis Ha1 : alpha <= 1.
Hypothesis Hg0 : 0 <= gamma.
Hypothesis HB : 0 <= B.
Hypothesis Hclosed :
  ((1 + gamma * B * (1 + u64) + eta64) * (1 + u64) + eta64) * (1 + u64)
  + 2 * u64 * B + 2 * eta64 <= B.

(** The arithmetic of one update, upwards: the rounded target is at most
    [S], and the entry either does not move up or ends within rounding
    of the target. *)
Lemma td_update_upper q m r :
  float64 q -> - B <= q <= B -> - B <= m <= B -> - 1 <= r <= 1 ->
  td_update alpha gamma q m r <= B.
Proof.
  intros Hfq Hq Hm Hr. unfold td_update. unfold float64 in Hfq.
  destruct eta64_small as [He0 He1].
  assert (Hu0 : 0 < u64) by reflexivity.
  set (G := gamma * B) in *.
  assert (HG0 : 0 <= G) by (apply Qmult_le_0_compat; assumption).
  assert (Hgm : - G <= gamma * m <= G).
  { unfold G. split.
    - assert (H : gamma * (- B) <= gamma * m)
        by (apply Qmult_le_nonneg_l; [exact Hg0 | apply Hm]). lra.
    - apply Qmult_le_nonneg_l; [exact Hg0 | apply Hm]. }
  pose proof (round64_near _ _ Hgm) as Hp.
  set (p := round64 (gamma * m)) in *.
  assert (Hrp : - (1 + (G + (u64 * G + eta64))) <= r + p
                <= 1 + (G + (u64 * G + eta64))) by lra.
  pose proof (round64_near _ _ Hrp) as Ht.
  set (t := round64 (r + p)) in *.
  set (T0 := 1 + (G + (u64 * G + eta64))) in *.
  set (S := T0 + (u64 * T0 + eta64)) in *.
  assert (HS : - S <= t <= S) by (unfold S; lra).
  assert (HT0 : 0 <= T0).
  { unfold T0. assert (0 <= u64 * G) by (apply Qmult_le_0_compat; lra). lra. }
  assert (HuT0 : 0 <= u64 * T0) by (apply Qmult_le_0_compat; lra).
  assert (HS0 : 0 <= S) by (unfold S; lra).
  assert (HuS : 0 <= u64 * S) by (apply Qmult_le_0_compat; lra).
  assert (HuB : 0 <= u64 * B) by (apply Qmult_le_0_compat; lra).
  assert (Hcl : S + u64 * S + 2 * (u64 * B) + 2 * eta64 <= B).
  { unfold S, T0. unfold G in *. lra. }
  destruct (Qlt_le_dec q t) as [Hqt | Hqt].
  - assert (Htq : - (S + B) <= t - q <= S + B) by lra.
    pose proof (round64_near _ _ Htq) as Hd.
    assert (Hd0 : 0 <= round64 (t - q)).
    { rewrite <- round64_0. apply round64_mono. lra. }
    set (d := round64 (t - q)) in *.
    assert (Hfd : round64 d == d) by apply round64_idem.
    assert (Hada : alpha * d <= d).
    { assert (H : alpha * d <= 1 * d)
        by (apply Qmult_le_compat_r; assumption). lra. }
    assert (Ha : 0 <= round64 (alpha * d) <= d).
    { split.
      - rewrite <- round64_0. apply round64_mono.
        apply Qmult_le_0_compat; assumption.
      - rewrite <- Hfd at 2. apply round64_mono, Hada. }
    set (a := round64 (alpha * d)) in *.
    assert (Hqa : - B <= q + a <= B) by lra.
    pose proof (round64_near _ _ Hqa) as Hq'.
    lra.
  - assert (Hd0 : round64 (t - q) <= 0).
    { rewrite <- round64_0. apply round64_mono. lra. }
    set (d := round64 (t - q)) in *.
    assert (Ha : round64 (alpha * d) <= 0).
    { rewrite <- round64_0. apply round64_mono.
      assert (H : alpha * d <= alpha * 0)
        by (apply Qmult_le_nonneg_l; assumption). lra. }
    set (a := round64 (alpha * d)) in *.
    apply Qle_trans with q; [|apply Hq].
    rewrite <- Hfq at 2. apply round64_mono. lra.
Qed.

(** The update is odd: negating the entry, the next value and the reward
    negates the result. *)
Lemma td_update_opp q m r :
  td_update alpha gamma (- q) (- m) (- r) == - td_update alpha gamma q m r.
Proof.
  unfold td_update.
  assert (E1 : gamma * - m == - (gamma * m)) by ring.
  rewrite E1, round64_opp.
  assert (E2 : - r + - round64 (gamma * m) == - (r + round64 (gamma * m)))
    by ring.
  rewrite E2, round64_opp.
  set (t := round64 (r + round64 (gamma * m))).
  assert (E3 : - t - - q == - (t - q)) by ring.
  rewrite E3, round64_opp.
  set (d := round64 (t - q)).
  assert (E4 : alpha * - d == - (alpha * d)) by ring.
  rewrite E4, round64_opp.
  set (a := round64 (alpha * d)).
  assert (E5 : - q + - a == - (q + a)) by ring.
  rewrite E5, round64_opp. reflexivity.
Qed.

Lemma td_update_bounded q m r :
  float64 q -> Qabs q <= B -> Qabs m <= B -> Qabs r <= 1 ->
  Qabs (td_update alpha gamma q m r) <= B.
Proof.
  intros Hfq Hq Hm Hr. apply Qabs_Qle_condition in Hq, Hm, Hr.
  apply Qabs_Qle_condition. split.
  - assert (H : td_update alpha gamma (- q) (- m) (- r) <= B).
    { apply td_update_upper; [apply float64_opp, Hfq | lra | lra | lra]. }
    rewrite td_update_opp in H. lra.
  - apply td_update_upper; assumption.
Qed.

End Bound.

Section Margin.

Local Open Scope Q_scope.

(** With a discount of at most [1 - 2^-18] the bound with its margin is
    closed under the rounded update. *)
Lemma rounded_bound_closed gamma :
  0 <= gamma -> gamma <= 1 - (1 # 262144) ->
  1 <= rounded_bound gamma
  /\ ((1 + gamma * rounded_bound gamma * (1 + u64) + eta64) * (1 + u64)
      + eta64) * (1 + u64)
     + 2 * u64 * rounded_bound gamma + 2 * eta64 <= rounded_bound gamma.
Proof.
  intros Hg0 Hg1. destruct eta64_small as [He0 He1].
  set (B := rounded_bound gamma).
  assert (Hk : 0 < 1 - gamma) by lra.
  assert (EB : B * (1 - gamma) == 1 + (1 # 4294967296)).
  { unfold B, rounded_bound. field. lra. }
  assert (HB1 : 1 <= B).
  { unfold B, rounded_bound. apply Qle_shift_div_l; lra. }
  assert (HB2 : B <= (1 + (1 # 4294967296)) * 262144).
  { unfold B, rounded_bound. apply Qle_shift_div_r; lra. }
  assert (EG : gamma * B == B - (1 + (1 # 4294967296))) by lra.
  split; [exact HB1|].
  rewrite EG. unfold u64. lra.
Qed.

Lemma q_bound_below_rounded gamma :
  gamma < 1 -> q_bound gamma <= rounded_bound gamma.
Proof.
  intros Hg. unfold q_bound, rounded_bound.
  apply Qmult_le_compat_r; [lra|].
  apply Qlt_le_weak, Qinv_lt_0_compat. lra.
Qed.

End Margin.

Lemma fold_py_max_closed (P : Q -> Prop) l : forall x,
  P x -> Forall P l -> P (fold_left py_max l x).
Proof.
  induction l as [|y l IH]; intros x Hx Hl; cbn [fold_left]; [assumption|].
  apply Forall_cons in Hl as [Hy Hl]. apply IH; [|assumption].
  unfold py_max. destruct (Qlt_bool x y); assumption.
Qed.

Lemma np_max_closed (P : Q -> Prop) row m :
  Forall P row -> np_max row = Ok m -> P m.
Proof.
  destruct row as [|x l]; [discriminate|].
  intros Hrow [= <-]. apply Forall_cons in Hrow as [Hx Hl].
  now apply fold_py_max_closed.
Qed.

Lemma np_index_inv {A} (l : list A) i x :
  np_index l i = Ok x ->
  exists k, np_pos (length l) i = Ok k /\ l !! k = Some x.
Proof.
  unfold np_index. destruct (np_pos (length l) i) as [k|]; [|discriminate].
  cbn [mbind result_bind]. destruct (l !! k) eqn:E; [|discriminate].
  intros [= <-]. eauto.
Qed.

Lemma bounded_zeros B ns na Qt :
  (0 <= B)%Q -> np_zeros ns na = Ok Qt ->
  bounded B Qt /\ float_table Qt /\ table_shape Qt ns na.
Proof.
  intros HB. unfold np_zeros.
  destruct (Z.ltb_spec ns 0); [discriminate|].
  destruct (Z.ltb_spec na 0); [discriminate|].
  cbn [orb]. intros [= <-]. split; [|split].
  - apply Forall_replicate, Forall_replicate. exact HB.
  - apply Forall_replicate, Forall_replicate. exact float64_0.
  - split; [rewrite length_replicate; lia|].
    apply Forall_replicate. rewrite length_replicate. lia.
Qed.

(** What [q_update] stores, and where. *)
Lemma q_update_inv alpha gamma Qt s a r s' Qt' :
  q_update alpha gamma Qt s a r s' = Ok Qt' ->
  exists row' m row q (k' k j : nat),
    Qt !! k' = Some row' /\ np_max row' = Ok m
    /\ Qt !! k = Some row /\ row !! j = Some q
    /\ Qt' = <[k := <[j := td_update alpha gamma q m r]> row]> Qt.
Proof.
  unfold q_update, np_get2, np_set2.
  destruct (np_index Qt s') as [row'|] eqn:Es'; [|discriminate].
  cbn [mbind result_bind].
  destruct (np_max row') as [m|] eqn:Em; [|discriminate].
  cbn [mbind result_bind].
  destruct (np_index Qt s) as [row|] eqn:Es; [|discriminate].
  cbn [mbind result_bind].
  destruct (np_index row a) as [q|] eqn:Ea; [|discriminate].
  cbn [mbind result_bind].
  destruct (np_index_inv _ _ _ Es') as (k' & _ & Hk').
  destruct (np_index_inv _ _ _ Es) as (k & Hpk & Hk).
  destruct (np_index_inv _ _ _ Ea) as (j & Hpj & Hj).
  rewrite Hpk, Hpj. cbn [mbind result_bind]. intros [= <-].
  exists row', m, row, q, k', k, j. auto.
Qed.

Section Update.

Variables (alpha gamma : Q).
Hypothesis Ha0 : (0 <= alpha)%Q.
Hypothesis Ha1 : (alpha <= 1)%Q.
Hypothesis Hg0 : (0 <= gamma)%Q.
Hypothesis Hg1 : (gamma <= 1 - (1 # 262144))%Q.

(** Each Q-update keeps the entries binary64 values within the bound with
    its margin. *)
Lemma q_update_bounded Qt s a r s' Qt' :
  float_table Qt -> bounded (rounded_bound gamma) Qt -> (Qabs r <= 1)%Q ->
  q_update alpha gamma Qt s a r s' = Ok Qt' ->
  float_table Qt' /\ bounded (rounded_bound gamma) Qt'.
Proof.
  intros Hf Hb Hr Hupd.
  destruct (q_update_inv _ _ _ _ _ _ _ _ Hupd)
    as (row' & m & row & q & k' & k & j & Hk' & Em & Hk & Hj & ->).
  destruct (rounded_bound_closed gamma Hg0 Hg1) as [HB1 Hcl].
  unfold bounded, float_table in *.
  pose proof (proj1 (Forall_lookup _ _) Hb) as Hb'.
  pose proof (proj1 (Forall_lookup _ _) Hf) as Hf'.
  assert (Hm : (Qabs m <= rounded_bound gamma)%Q).
  { eapply (np_max_closed (fun q => (Qabs q <= rounded_bound gamma)%Q));
      [exact (Hb' _ _ Hk') | exact Em]. }
  assert (Hq : (Qabs q <= rounded_bound gamma)%Q).
  { exact (proj1 (Forall_lookup _ _) (Hb' _ _ Hk) _ _ Hj). }
  assert (Hfq : float64 q).
  { exact (proj1 (Forall_lookup _ _) (Hf' _ _ Hk) _ _ Hj). }
  split.
  - apply Forall_insert; [assumption|].
    apply Forall_insert; [exact (Hf' _ _ Hk)|].
    apply round64_idem.
  - apply Forall_insert; [assumption|].
    apply Forall_insert; [exact (Hb' _ _ Hk)|].
    apply td_update_bounded; try assumption. lra.
Qed.

(** It also keeps the shape of the table. *)
Lemma q_update_shape Qt s a r s' Qt' ns na :
  table_shape Qt ns na ->
  q_update alpha gamma Qt s a r s' = Ok Qt' ->
  table_shape Qt' ns na.
Proof.
  intros [Hlen Hrows] Hupd.
  destruct (q_update_inv _ _ _ _ _ _ _ _ Hupd)
    as (row' & m & row & q & k' & k & j & Hk' & Em & Hk & Hj & ->).
  split; [rewrite length_insert; assumption|].
  apply Forall_insert; [assumption|].
  rewrite length_insert.
  exact (proj1 (Forall_lookup _ _) Hrows _ _ Hk).
Qed.

(** On a well-shaped table the update does not raise. *)
Lemma q_update_ok Qt s a r s' ns na :
  table_shape Qt ns na -> 0 <= s < ns -> 0 <= s' < ns -> 0 <= a < na ->
  exists Qt', q_update alpha gamma Qt s a r s' = Ok Qt'.
Proof.
  intros Hshape Hs Hs' Ha.
  destruct (table_row_ok Qt ns na s' Hshape Hs') as (row' & _ & Es' & Hl').
  destruct (table_row_ok Qt ns na s Hshape Hs) as (row & _ & Es & Hl).
  destruct (np_index_ok row a) as (q & _ & Ea); [lia|].
  unfold q_update, np_get2, np_set2.
  rewrite Es'. cbn [mbind result_bind].
  destruct row' as [|x l]; [cbn [length] in Hl'; lia|].
  cbn [np_max mbind result_bind].
  rewrite Es. cbn [mbind result_bind]. rewrite Ea.
  cbn [mbind result_bind].
  destruct Hshape as [Hlen _].
  rewrite (np_pos_ok (length Qt) s) by lia. cbn [mbind result_bind].
  rewrite (np_pos_ok (length row) a) by lia. cbn [mbind result_bind].
  eauto.
Qed.

End Update.

Section Training.

Variables (d : DataFrame) (ns na : Z) (alpha gamma : Q).
Hypothesis Hrows : 2 <= df_len d.
Hypothesis Hns : 27 <= ns.
Hypothesis Hna : 1 <= na.
Hypothesis Ha0 : (0 <= alpha)%Q.
Hypothesis Ha1 : (alpha <= 1)%Q.
Hypothesis Hg0 : (0 <= gamma)%Q.
Hypothesis Hg1 : (gamma <= 1 - (1 # 262144))%Q.

Lemma train_iteration_inv epsilon st t :
  loop_inv d ns na gamma t st -> ts_done st = false ->
  exists st',
    train_iteration na alpha gamma epsilon st = Ok st'
    /\ loop_inv d ns na gamma (t + 1) st'.
Proof.
  intros (Hinv & Hidx & Hdone & Hs & Hshape & Hb & Hf) Hnd.
  rewrite Hnd in Hdone. symmetry in Hdone. apply Z.leb_gt in Hdone.
  assert (Hact : exists action g,
    (if Qlt_bool (rand_tape (ts_rng st) (cursor (ts_rng st))) epsilon
     then np_random_randint na (advance (ts_rng st))
     else row ← np_index (ts_Q st) (ts_state st);
          a ← np_argmax row; Ok (a, advance (ts_rng st)))
    = Ok (action, g) /\ 0 <= action < na).
  { destruct (Qlt_bool _ epsilon).
    - unfold np_random_randint.
      destruct (Z.leb_spec na 0); [lia|].
      do 2 eexists. split; [reflexivity|].
      apply Z.mod_pos_bound. lia.
    - destruct (table_row_ok _ ns na (ts_state st) Hshape)
        as (row & _ & Hrow & Hlen); [lia|].
      destruct (np_argmax_ok row) as (a & Ha & Hrange); [lia|].
      rewrite Hrow. cbn [mbind result_bind]. rewrite Ha.
      cbn [mbind result_bind]. do 2 eexists.
      split; [reflexivity|lia]. }
  destruct Hact as (action & g & Hact & Harange).
  destruct (step_active d _ t Hinv Hidx) as (rt & rn & _ & _ & Hstep);
    [lia|].
  set (reward := if action =? true_action_id (direction rn)
                 then 1%Q else (-1)%Q).
  assert (Hr : (Qabs reward <= 1)%Q).
  { unfold reward. destruct (action =? _); vm_compute; discriminate. }
  pose proof (row_state_range rn) as Hrn.
  destruct (q_update_ok alpha gamma (ts_Q st) (ts_state st) action reward
              (row_state rn) ns na Hshape) as (Qt' & Hupd); try lia.
  pose proof (q_update_bounded alpha gamma Ha0 Ha1 Hg0 Hg1 _ _ _ _ _ _
                Hf Hb Hr Hupd) as [Hf' Hb'].
  pose proof (q_update_shape alpha gamma _ _ _ _ _ _ ns na Hshape Hupd)
    as Hshape'.
  unfold train_iteration, np_random_rand.
  rewrite Hact. cbn [mbind result_bind]. rewrite Hstep.
  cbn [mbind result_bind]. fold reward. rewrite Hupd.
  cbn [mbind result_bind].
  eexists. split; [reflexivity|].
  pose proof Hinv as (_ & _ & _ & Hi). rewrite Hidx in Hi.
  unfold loop_inv. cbn.
  split; [apply env_inv_set_idx; [assumption|lia|lia]|].
  split; [reflexivity|]. split; [reflexivity|].
  split; [assumption|]. split; [assumption|]. split; assumption.
Qed.

(** The inner loop never raises, keeps the invariant however early it
    is cut, and ends the episode when given [n-1-t] passes. *)
Lemma train_loop_inv epsilon (fuel : nat) : forall st t,
  loop_inv d ns na gamma t st ->
  exists st' t',
    train_loop fuel na alpha gamma epsilon st = Ok st'
    /\ loop_inv d ns na gamma t' st'
    /\ (df_len d - 1 - t <= Z.of_nat fuel -> ts_done st' = true).
Proof.
  induction fuel as [|fuel IH]; intros st t Hinv;
    pose proof Hinv as (_ & _ & Hdone & _);
    destruct (ts_done st) eqn:Hd.
  - exists st, t. cbn [train_loop]. rewrite Hd. auto.
  - exists st, t. cbn [train_loop]. rewrite Hd.
    split; [reflexivity|]. split; [assumption|].
    symmetry in Hdone. apply Z.leb_gt in Hdone. lia.
  - exists st, t. cbn [train_loop]. rewrite Hd. auto.
  - destruct (train_iteration_inv epsilon st t Hinv Hd) as (st1 & Hit & Hinv1).
    destruct (IH st1 (t + 1) Hinv1) as (st' & t' & Hloop & Hinv' & Hfin).
    exists st', t'. cbn [train_loop]. rewrite Hd, Hit.
    cbn [mbind result_bind].
    split; [assumption|]. split; [assumption|].
    intros Hf. apply Hfin. lia.
Qed.

Lemma loop_inv_start tr g :
  trained_inv d ns na gamma tr ->
  exists e0 r0,
    reset (tr_env tr) = Ok (e0, row_state r0)
    /\ loop_inv d ns na gamma 0
         {| ts_env := e0; ts_Q := tr_Q tr; ts_state := row_state r0;
            ts_done := false; ts_total_reward := 0%Q; ts_rng := g |}.
Proof.
  intros (Hinv & Hshape & Hb & Hf).
  destruct (reset_ok d _ Hinv Hrows) as (r0 & _ & Hreset).
  exists (set_current_idx (tr_env tr) 0), r0.
  split; [assumption|]. unfold loop_inv. cbn.
  split; [apply env_inv_set_idx; [assumption|lia|lia]|].
  split; [reflexivity|].
  split; [symmetry; apply Z.leb_gt; lia|].
  split; [apply row_state_range|]. split; [assumption|]. split; assumption.
Qed.

Variables (epsilon_start epsilon_end epsilon_decay : Q).

Lemma train_episode_inv (fuel : nat) ep tr :
  df_len d - 1 <= Z.of_nat fuel -> trained_inv d ns na gamma tr ->
  0 <= ep -> (Qabs (round64 (epsilon_decay ^ ep)) < 2 ^ 1024)%Q ->
  exists tr',
    train_episode na alpha gamma epsilon_start epsilon_end epsilon_decay
      fuel ep tr = Ok (Some tr')
    /\ trained_inv d ns na gamma tr'
    /\ length (tr_episode_rewards tr')
       = S (length (tr_episode_rewards tr)).
Proof.
  intros Hfuel Htr Hep Hfin.
  destruct (loop_inv_start tr (tr_rng tr) Htr) as (e0 & r0 & Hreset & Hinv0).
  pose proof (epsilon_of_ok epsilon_start epsilon_end epsilon_decay ep
                Hep Hfin) as Heps.
  destruct (train_loop_inv
              (py_max epsilon_end
                 (round64 (epsilon_start * round64 (epsilon_decay ^ ep))))
              fuel _ 0 Hinv0) as (st & t & Hloop & Hinv & Hdone).
  unfold train_episode. rewrite Hreset. cbn [mbind result_bind].
  rewrite Heps. cbn [mbind result_bind].
  rewrite Hloop. cbn [mbind result_bind].
  rewrite Hdone by lia.
  eexists. split; [reflexivity|].
  destruct Hinv as (He & _ & _ & _ & Hshape & Hb & Hf).
  split; [split; [|split; [|split]]; assumption|].
  cbn. rewrite length_app. cbn. lia.
Qed.

Lemma train_episodes_inv (fuel : nat) eps : forall tr,
  df_len d - 1 <= Z.of_nat fuel -> trained_inv d ns na gamma tr ->
  Forall (fun ep => 0 <= ep
            /\ (Qabs (round64 (epsilon_decay ^ ep)) < 2 ^ 1024)%Q) eps ->
  exists tr',
    train_episodes na alpha gamma epsilon_start epsilon_end epsilon_decay
      fuel eps tr = Ok (Some tr')
    /\ trained_inv d ns na gamma tr'
    /\ length (tr_episode_rewards tr')
       = (length (tr_episode_rewards tr) + length eps)%nat.
Proof.
  induction eps as [|ep eps IH]; intros tr Hfuel Htr Hsched;
    cbn [train_episodes].
  - exists tr. cbn. split; [reflexivity|]. split; [assumption|lia].
  - apply Forall_cons in Hsched as [[Hep Hfin] Hsched].
    destruct (train_episode_inv fuel ep tr Hfuel Htr Hep Hfin)
      as (tr1 & Hep1 & Htr1 & Hlen1).
    rewrite Hep1. cbn [mbind result_bind].
    destruct (IH tr1 Hfuel Htr1 Hsched) as (tr' & Heps & Htr' & Hlen').
    exists tr'. split; [assumption|]. split; [assumption|].
    cbn [length]. lia.
Qed.

End Training.

Lemma schedule_finite_seqZ epsilon_decay episodes :
  schedule_finite epsilon_decay episodes ->
  Forall (fun ep => 0 <= ep
            /\ (Qabs (round64 (epsilon_decay ^ ep)) < 2 ^ 1024)%Q)
         (seqZ 0 episodes).
Proof.
  intros H. apply Forall_forall. intros ep Hin.
  apply elem_of_seqZ in Hin. split; [lia|]. apply H. lia.
Qed.

(** A decay factor in [[0,1]] gives a finite power at every episode. *)
Lemma schedule_finite_decay epsilon_decay episodes :
  (0 <= epsilon_decay)%Q -> (epsilon_decay <= 1)%Q ->
  schedule_finite epsilon_decay episodes.
Proof.
  intros H0 H1 ep Hep.
  destruct (float_pow_decay epsilon_decay ep H0 H1) as [_ Hr]; [lia|].
  rewrite Qabs_pos by apply Hr.
  assert (H2 : (1 < 2 ^ 1024)%Q) by reflexivity. lra.
Qed.

Lemma bounded_get2 B Qt s a q :
  bounded B Qt -> np_get2 Qt s a = Ok q -> (Qabs q <= B)%Q.
Proof.
  intros Hb. unfold np_get2.
  destruct (np_index Qt s) as [row|] eqn:Es; [|discriminate].
  cbn [mbind result_bind]. intros Ea.
  destruct (np_index_inv _ _ _ Es) as (k & _ & Hk).
  destruct (np_index_inv _ _ _ Ea) as (j & _ & Hj).
  pose proof (proj1 (Forall_lookup _ _) Hb _ _ Hk) as Hrow.
  exact (proj1 (Forall_lookup _ _) Hrow _ _ Hj).
Qed.

(** C10 (as the code has it).  With [0 <= alpha <= 1] and
    [0 <= gamma <= 1 - 2^-18], on a table of at least two rows: every
    Q-update with a reward of +1 or -1 keeps the entries, which are
    binary64 values, within [(1 + 2^-32)/(1-gamma)] in absolute value;
    training from the all-zero table with a schedule whose float power
    stays finite returns, with one total reward per episode and all
    entries within that bound; and the bound still holds after any number
    [j] of updates of a further episode under any exploration rate, so it
    holds after every update. *)
Theorem q_values_stay_bounded d e ns na alpha gamma
    epsilon_start epsilon_end epsilon_decay (fuel : nat) episodes g :
  reachable d e -> 2 <= df_len d -> 27 <= ns -> 1 <= na ->
  (0 <= alpha)%Q -> (alpha <= 1)%Q -> (0 <= gamma)%Q ->
  (gamma <= 1 - (1 # 262144))%Q ->
  schedule_finite epsilon_decay episodes ->
  df_len d - 1 <= Z.of_nat fuel ->
  (forall Qt s a r s' Qt',
     float_table Qt -> bounded (rounded_bound gamma) Qt ->
     r = 1%Q \/ r = (-1)%Q ->
     q_update alpha gamma Qt s a r s' = Ok Qt' ->
     float_table Qt' /\ bounded (rounded_bound gamma) Qt')
  /\ exists tr,
       train_q_learning ns na alpha gamma epsilon_start epsilon_end
         epsilon_decay fuel e episodes g = Ok (Some tr)
       /\ float_table (tr_Q tr)
       /\ bounded (rounded_bound gamma) (tr_Q tr)
       /\ (forall s a q,
             np_get2 (tr_Q tr) s a = Ok q ->
             (Qabs q <= (1 + (1 # 4294967296)) / (1 - gamma))%Q)
       /\ Z.of_nat (length (tr_episode_rewards tr)) = Z.max 0 episodes
       /\ forall epsilon (j : nat), exists e0 s0 st,
            reset (tr_env tr) = Ok (e0, s0)
            /\ train_loop j na alpha gamma epsilon
                 {| ts_env := e0; ts_Q := tr_Q tr; ts_state := s0;
                    ts_done := false; ts_total_reward := 0%Q;
                    ts_rng := tr_rng tr |} = Ok st
            /\ bounded (rounded_bound gamma) (ts_Q st).
Proof.
  intros Hreach Hrows Hns Hna Ha0 Ha1 Hg0 Hg1 Hsched Hfuel. split.
  { intros Qt s a r s' Qt' Hf Hb Hr Hupd.
    apply (q_update_bounded alpha gamma Ha0 Ha1 Hg0 Hg1 Qt s a r s' Qt' Hf Hb);
      [|assumption].
    destruct Hr as [-> | ->]; vm_compute; discriminate. }
  destruct (rounded_bound_closed gamma Hg0 Hg1) as [HB _].
  destruct (np_zeros ns na) as [Q0|] eqn:Ez.
  2:{ unfold np_zeros in Ez.
      destruct (Z.ltb_spec ns 0); [lia|].
      destruct (Z.ltb_spec na 0); [lia|]. discriminate. }
  destruct (bounded_zeros (rounded_bound gamma) ns na Q0)
    as (Hb0 & Hf0 & Hshape0); [lra | assumption |].
  pose proof (train_episodes_inv d ns na alpha gamma) as Leps. feed Leps.
  destruct (Leps epsilon_start epsilon_end epsilon_decay fuel (seqZ 0 episodes)
              {| tr_Q := Q0; tr_episode_rewards := []; tr_env := e;
                 tr_rng := g |} Hfuel)
    as (tr & Htrain & Htr & Hlen).
  { split; [apply reachable_inv; assumption|].
    split; [assumption|]. split; assumption. }
  { apply schedule_finite_seqZ, Hsched. }
  exists tr. split.
  { unfold train_q_learning. rewrite Ez. cbn [mbind result_bind].
    exact Htrain. }
  pose proof Htr as (_ & _ & Hb & Hf).
  split; [assumption|]. split; [assumption|].
  split; [intros s a q; apply bounded_get2; assumption|].
  split.
  { rewrite Hlen. cbn [tr_episode_rewards length]. rewrite length_seqZ. lia. }
  intros epsilon j.
  pose proof (loop_inv_start d ns na gamma) as Lstart. feed Lstart.
  destruct (Lstart tr (tr_rng tr) Htr) as (e0 & r0 & Hreset & Hinv0).
  pose proof (train_loop_inv d ns na alpha gamma) as Lloop. feed Lloop.
  destruct (Lloop epsilon j _ 0 Hinv0) as (st & t & Hloop & Hinv & _).
  exists e0, (row_state r0), st.
  split; [assumption|]. split; [assumption|].
  destruct Hinv as (_ & _ & _ & _ & _ & Hbst & _). exact Hbst.
Qed.

Lemma q_values_stay_bounded_witness :
  (forall Qt s a r s' Qt',
     float_table Qt -> bounded (rounded_bound 0.875) Qt ->
     r = 1%Q \/ r = (-1)%Q ->
     q_update 0.125 0.875 Qt s a r s' = Ok Qt' ->
     float_table Qt' /\ bounded (rounded_bound 0.875) Qt')
  /\ exists tr,
       train_q_learning 27 3 0.125 0.875 1 0.125 0.5 2 (init flat_up_down) 3
         sample_rng = Ok (Some tr)
       /\ float_table (tr_Q tr)
       /\ bounded (rounded_bound 0.875) (tr_Q tr)
       /\ (forall s a q,
             np_get2 (tr_Q tr) s a = Ok q ->
             (Qabs q <= (1 + (1 # 4294967296)) / (1 - 0.875))%Q)
       /\ Z.of_nat (length (tr_episode_rewards tr)) = Z.max 0 3
       /\ forall epsilon (j : nat), exists e0 s0 st,
            reset (tr_env tr) = Ok (e0, s0)
            /\ train_loop j 3 0.125 0.875 epsilon
                 {| ts_env := e0; ts_Q := tr_Q tr; ts_state := s0;
                    ts_done := false; ts_total_reward := 0%Q;
                    ts_rng := tr_rng tr |} = Ok st
            /\ bounded (rounded_bound 0.875) (ts_Q st).
Proof.
  apply (q_values_stay_bounded flat_up_down (init flat_up_down) 27 3
           0.125%Q 0.875%Q 1%Q 0.125%Q 0.5%Q 2%nat 3 sample_rng).
  - apply reach_init.
  - vm_compute. discriminate.
  - lia.
  - lia.
  - vm_compute. discriminate.
  - vm_compute. discriminate.
  - vm_compute. discriminate.
  - vm_compute. discriminate.
  - apply schedule_finite_decay; vm_compute; discriminate.
  - vm_compute. discriminate.
Defined.

(** C10 as stated fails: the bound [1/(1-gamma)] is exceeded by rounding.
    With learning rate 1.0 and discount 0.09 (the float nearest to it),
    on two months of falling prices, nineteen episodes of one rewarded
    step each leave the entry of state 4 and action 0 above
    [1/(1-gamma)]. *)
Lemma q_values_exceed_exact_bound :
  exists tr q,
    train_q_learning 27 3 1 (round64 0.09) 0 0 1 1 (init falling_pair) 19
      sample_rng = Ok (Some tr)
    /\ np_get2 (tr_Q tr) 4 0 = Ok q
    /\ (q_bound (round64 0.09) < q)%Q
    /\ (1 / (1 - 0.09) < q)%Q.
Proof.
  do 2 eexists. split; [vm_compute; reflexivity|].
  split; [vm_compute; reflexivity|].
  split; vm_compute; reflexivity.
Qed.

(** Three training episodes on the three-row example with the floats
    nearest to a learning rate of 0.1, a discount of 0.9 and a schedule of
    1, 0.1, 0.99, run: the total rewards, and the row of the table for
    state 13 (flat, mid, flat) as the exact values of its floats. *)
Example train_flat_up_down :
  (fun r => match r with
            | Some tr => (tr_episode_rewards tr,
                          fmap (M := list) Qred <$> tr_Q tr !! 13%nat)
            | None => ([], None)
            end) <$>
    train_q_learning 27 3 (round64 0.1) (round64 0.9) 1 (round64 0.1)
      (round64 0.99) 2 (init flat_up_down) 3 sample_rng
  = Ok ([0%Q; 0%Q; (-2)%Q],
        Some [(-6557241057451443 # 72057594037927936)%Q;
              (-3602879701896397 # 36028797018963968)%Q;
              (3927138875067073 # 36028797018963968)%Q]).
Proof. vm_compute. reflexivity. Qed.

End QLearningFacts.

(** * Properties of monthly periods *)

Module PeriodFacts.

Import Period.
Local Open Scope Z_scope.

(** Adding one to a period is moving to the next month of the calendar. *)
Lemma succ_calendar q :
  (year (q + 1), month (q + 1)) = next_calendar_month (year q, month q).
Proof.
  unfold year, month, next_calendar_month.
  destruct (Z.eqb_spec (q mod 12 + 1) 12) as [E|E];
    f_equal; Z.div_mod_to_equations; lia.
Qed.

Lemma month_range q : 1 <= month q <= 12.
Proof. unfold month. pose proof (Z.mod_pos_bound q 12). lia. Qed.

Lemma of_year_month_calendar q : of_year_month (year q) (month q) = q.
Proof. unfold of_year_month, year, month. Z.div_mod_to_equations. lia. Qed.

Lemma digit_of_ascii_of_digit x :
  0 <= x <= 9 -> digit_of (ascii_of_digit x) = Some x.
Proof.
  intros Hx.
  assert (x = 0 \/ x = 1 \/ x = 2 \/ x = 3 \/ x = 4 \/ x = 5 \/ x = 6
          \/ x = 7 \/ x = 8 \/ x = 9) as H by lia.
  repeat (destruct H as [-> | H]; [reflexivity|]). subst. reflexivity.
Qed.

Lemma format_not_missing q : format_YYYY_MM q ∉ nat_strings.
Proof.
  unfold nat_strings. intros H.
  repeat (apply elem_of_cons in H as [H | H];
          [apply (f_equal String.length) in H; discriminate H|]).
  inversion H.
Qed.

(** Printing a period of a four-digit year and reading it back. *)
Lemma parse_format q :
  1 <= year q <= 9999 -> parse_YYYY_MM (format_YYYY_MM q) = Some (Month q).
Proof.
  intros Hy. pose proof (month_range q) as Hm.
  unfold parse_YYYY_MM.
  rewrite bool_decide_eq_false_2 by apply format_not_missing.
  unfold format_YYYY_MM.
  rewrite !digit_of_ascii_of_digit
    by (try apply Z.mod_pos_bound; Z.div_mod_to_equations; lia).
  cbn [mbind option_bind].
  replace (year q / 1000 mod 10 * 1000 + year q / 100 mod 10 * 100
           + year q / 10 mod 10 * 10 + year q mod 10) with (year q)
    by (Z.div_mod_to_equations; lia).
  replace (month q / 10 * 10 + month q mod 10) with (month q)
    by (Z.div_mod_to_equations; lia).
  rewrite bool_decide_eq_true_2 by reflexivity.
  destruct (Z.leb_spec 1 (year q)); [|lia].
  destruct (Z.leb_spec 1 (month q)); [|lia].
  destruct (Z.leb_spec (month q) 12); [|lia].
  cbn [andb]. do 2 f_equal. apply of_year_month_calendar.
Qed.

Lemma digit_compare a b :
  0 <= a <= 9 -> 0 <= b <= 9 ->
  Ascii.compare (ascii_of_digit a) (ascii_of_digit b) = (a ?= b).
Proof.
  intros Ha Hb.
  assert (a = 0 \/ a = 1 \/ a = 2 \/ a = 3 \/ a = 4 \/ a = 5 \/ a = 6
          \/ a = 7 \/ a = 8 \/ a = 9) as HA by lia.
  assert (b = 0 \/ b = 1 \/ b = 2 \/ b = 3 \/ b = 4 \/ b = 5 \/ b = 6
          \/ b = 7 \/ b = 8 \/ b = 9) as HB by lia.
  clear Ha Hb.
  repeat (destruct HA as [-> | HA]); try subst a;
    repeat (destruct HB as [-> | HB]); try subst b; reflexivity.
Qed.

(** On four-digit years the order of the labels, read as strings, is the
    order of the periods. *)
Lemma format_order p q :
  1000 <= year p -> year q <= 9999 -> p < q ->
  String.compare (format_YYYY_MM p) (format_YYYY_MM q) = Lt.
Proof.
  intros Hp Hq Hpq.
  pose proof (month_range p) as Hmp. pose proof (month_range q) as Hmq.
  assert (Hlex : year p < year q \/ (year p = year q /\ month p < month q)).
  { unfold year, month in *. Z.div_mod_to_equations. lia. }
  unfold format_YYYY_MM.
  set (y := year p) in *. set (y' := year q) in *.
  set (m := month p) in *. set (m' := month q) in *.
  assert (Hyy : y <= y') by lia.
  assert (Dy : y = 1000 * (y / 1000 mod 10) + 100 * (y / 100 mod 10)
                   + 10 * (y / 10 mod 10) + y mod 10
               /\ 0 <= y / 1000 mod 10 <= 9 /\ 0 <= y / 100 mod 10 <= 9
               /\ 0 <= y / 10 mod 10 <= 9 /\ 0 <= y mod 10 <= 9)
    by (Z.div_mod_to_equations; lia).
  assert (Dy' : y' = 1000 * (y' / 1000 mod 10) + 100 * (y' / 100 mod 10)
                     + 10 * (y' / 10 mod 10) + y' mod 10
                /\ 0 <= y' / 1000 mod 10 <= 9 /\ 0 <= y' / 100 mod 10 <= 9
                /\ 0 <= y' / 10 mod 10 <= 9 /\ 0 <= y' mod 10 <= 9)
    by (Z.div_mod_to_equations; lia).
  assert (Dm : m = 10 * (m / 10) + m mod 10
               /\ 0 <= m / 10 <= 9 /\ 0 <= m mod 10 <= 9)
    by (Z.div_mod_to_equations; lia).
  assert (Dm' : m' = 10 * (m' / 10) + m' mod 10
                /\ 0 <= m' / 10 <= 9 /\ 0 <= m' mod 10 <= 9)
    by (Z.div_mod_to_equations; lia).
  revert Dy Dy' Dm Dm'.
  generalize (y / 1000 mod 10) (y / 100 mod 10) (y / 10 mod 10) (y mod 10)
             (y' / 1000 mod 10) (y' / 100 mod 10) (y' / 10 mod 10)
             (y' mod 10) (m / 10) (m mod 10) (m' / 10) (m' mod 10).
  intros a1 a2 a3 a4 b1 b2 b3 b4 e1 e2 f1 f2
         (Ey & ? & ? & ? & ?) (Ey' & ? & ? & ? & ?) (Em & ? & ?)
         (Em' & ? & ?).
  cbn [String.compare].
  rewrite !digit_compare by assumption.
  change (Ascii.compare "-" "-") with Eq.
  destruct (Z.compare_spec a1 b1); [|reflexivity|lia].
  destruct (Z.compare_spec a2 b2); [|reflexivity|lia].
  destruct (Z.compare_spec a3 b3); [|reflexivity|lia].
  destruct (Z.compare_spec a4 b4); [|reflexivity|lia].
  destruct (Z.compare_spec e1 f1); [|reflexivity|lia].
  destruct (Z.compare_spec e2 f2); [|reflexivity|lia].
  lia.
Qed.

Example parse_2024_11 : parse_YYYY_MM "2024-11" = Some (Month 658).
Proof. reflexivity. Qed.

Example parse_missing_or_odd :
  parse_YYYY_MM <$> ["nan"; ""; "NaT"; "2024 Q4"; "2024-13"]
  = [Some NaT; Some NaT; Some NaT; None; None].
Proof. reflexivity. Qed.

Example format_wraps_year :
  format_YYYY_MM <$> [658; 659; 660] = ["2024-11"; "2024-12"; "2025-01"].
Proof. reflexivity. Qed.

End PeriodFacts.

(** * Properties of the scenario forecast *)

Module ApiFacts.

Import StateEncoder Numpy Api Vocabulary.
Import StateEncoderFacts QLearningFacts.
Local Open Scope Z_scope.

Lemma action_to_direction_get a :
  0 <= a < 3 -> dict_get action_to_direction a = Ok (a - 1).
Proof.
  intros Ha. assert (a = 0 \/ a = 1 \/ a = 2) as [-> | [-> | ->]] by lia;
    reflexivity.
Qed.

Lemma action_label_get a :
  0 <= a < 3 -> exists l, dict_get action_label_map a = Ok l.
Proof.
  intros Ha. assert (a = 0 \/ a = 1 \/ a = 2) as [-> | [-> | ->]] by lia;
    eexists; reflexivity.
Qed.

Lemma direction_label_get a :
  0 <= a < 3 -> exists l, dict_get direction_label_map (a - 1) = Ok l.
Proof.
  intros Ha. assert (a = 0 \/ a = 1 \/ a = 2) as [-> | [-> | ->]] by lia;
    eexists; reflexivity.
Qed.

Lemma filter_none {A} (P : A -> Prop) `{!forall x, Decision (P x)}
    (l : list A) :
  Forall (fun x => ~ P x) l -> filter P l = [].
Proof.
  induction 1 as [|x l Hx _ IH]; [reflexivity|].
  rewrite filter_cons. destruct (decide (P x)); [contradiction|assumption].
Qed.

(** Without a row of direction [dir] the historical mean is NaN. *)
Lemma direction_mean_none df dir :
  Forall (fun r => direction r <> dir) (rows df) -> direction_mean df dir = NaN.
Proof.
  intros H. unfold direction_mean. rewrite filter_none by assumption.
  reflexivity.
Qed.

Lemma up_mean_finite df : isfinite (up_mean_of df) = true.
Proof.
  unfold up_mean_of.
  destruct (if pct_change_column df then direction_mean df 1 else NaN);
    reflexivity.
Qed.

Lemma flat_mean_finite df : isfinite (flat_mean_of df) = true.
Proof.
  unfold flat_mean_of.
  destruct (if pct_change_column df then direction_mean df 0 else NaN);
    reflexivity.
Qed.

Lemma down_mean_finite df : isfinite (down_mean_of df) = true.
Proof.
  unfold down_mean_of.
  destruct (if pct_change_column df then direction_mean df (-1) else NaN);
    reflexivity.
Qed.

Lemma up_mean_default df :
  Forall (fun r => direction r <> 1) (rows df) -> up_mean_of df = Fin 0.01%Q.
Proof.
  intros H. unfold up_mean_of. rewrite direction_mean_none by assumption.
  destruct (pct_change_column df); reflexivity.
Qed.

Lemma flat_mean_default df :
  Forall (fun r => direction r <> 0) (rows df) -> flat_mean_of df = Fin 0%Q.
Proof.
  intros H. unfold flat_mean_of. rewrite direction_mean_none by assumption.
  destruct (pct_change_column df); reflexivity.
Qed.

Lemma down_mean_default df :
  Forall (fun r => direction r <> -1) (rows df) ->
  down_mean_of df = Fin (-0.01)%Q.
Proof.
  intros H. unfold down_mean_of. rewrite direction_mean_none by assumption.
  destruct (pct_change_column df); reflexivity.
Qed.

Lemma fmul_fadd_finite x r :
  isfinite x = true -> isfinite r = true ->
  isfinite (fmul x (fadd (Fin 1%Q) r)) = true.
Proof. destruct x, r; cbn; congruence. Qed.

Section ForecastFacts.

Variable Period_strftime : Z -> string.
Variables (Qt : list (list Q)) (ns : Z).
Variables (up_mean flat_mean down_mean : pyfloat) (rate_level pop_trend : Z).
Hypothesis Hshape : table_shape Qt ns 3.
Hypothesis Hns : 27 <= ns.

Lemma labels_after_seqZ n : forall p,
  labels_after Period_strftime p n
  = (fun k => Period_strftime (p + k)) <$> seqZ 1 (Z.of_nat n).
Proof.
  induction n as [|n IH]; intros p; [reflexivity|].
  cbn [labels_after]. rewrite IH.
  replace (Z.of_nat (S n)) with (Z.succ (Z.of_nat n)) by lia.
  rewrite (seqZ_cons 1 (Z.succ (Z.of_nat n))) by lia.
  rewrite fmap_cons. f_equal.
  replace (Z.pred (Z.succ (Z.of_nat n))) with (Z.of_nat n) by lia.
  replace (Z.succ 1) with (1 + 1) by lia.
  rewrite <- (fmap_add_seqZ 1 1 (Z.of_nat n)).
  rewrite <- list_fmap_compose. apply list_fmap_ext.
  intros _ k _. cbn. f_equal. lia.
Qed.

(** The action a step takes and the labels it looks up. *)
Lemma simulate_step_action st :
  exists row a dlabel alabel,
    0 <= a < 3
    /\ np_index Qt (encode_state (PyInt (sim_direction st))
                      (PyInt rate_level) (PyInt pop_trend)) = Ok row
    /\ np_argmax row = Ok a
    /\ dict_get action_to_direction a = Ok (a - 1)
    /\ dict_get direction_label_map (a - 1) = Ok dlabel
    /\ dict_get action_label_map a = Ok alabel.
Proof.
  pose proof (encode_state_range (PyInt (sim_direction st))
                (PyInt rate_level) (PyInt pop_trend)) as Hs.
  destruct (table_row_ok Qt ns 3
              (encode_state (PyInt (sim_direction st)) (PyInt rate_level)
                            (PyInt pop_trend)) Hshape)
    as (row & _ & Hrow & Hlen); [lia|].
  destruct (np_argmax_ok row) as (a & Ha & Hrange); [lia|].
  rewrite Hlen in Hrange.
  destruct (direction_label_get a Hrange) as (dl & Hdl).
  destruct (action_label_get a Hrange) as (al & Hal).
  exists row, a, dl, al.
  split; [assumption|]. split; [assumption|]. split; [assumption|].
  split; [apply action_to_direction_get, Hrange|]. split; assumption.
Qed.

Lemma simulate_step_spec st step :
  sim_period st <> Some Period.NaT ->
  exists a dlabel alabel,
    0 <= a < 3
    /\ (row ← np_index Qt (encode_state (PyInt (sim_direction st))
                             (PyInt rate_level) (PyInt pop_trend));
        np_argmax row) = Ok a
    /\ dict_get direction_label_map (a - 1) = Ok dlabel
    /\ dict_get action_label_map a = Ok alabel
    /\ simulate_step Period_strftime Qt up_mean flat_mean down_mean
         rate_level pop_trend st step
       = Ok {| sim_direction := a - 1;
               sim_price :=
                 fmul (sim_price st)
                   (fadd (Fin 1%Q)
                      (return_for up_mean flat_mean down_mean (a - 1)));
               sim_period := next_period (sim_period st);
               sim_records := sim_records st ++
                 [{| sr_step := step;
                     sr_ym := step_label Period_strftime (sim_period st)
                                step;
                     predicted_direction := a - 1;
                     predicted_direction_label := dlabel;
                     predicted_action_label := alabel;
                     applied_return :=
                       return_for up_mean flat_mean down_mean (a - 1);
                     scenario_price :=
                       fmul (sim_price st)
                         (fadd (Fin 1%Q)
                            (return_for up_mean flat_mean down_mean
                               (a - 1))) |}] |}.
Proof.
  intros Hper.
  destruct (simulate_step_action st)
    as (row & a & dl & al & Hrange & Hrow & Ha & Hdir & Hdl & Hal).
  exists a, dl, al. split; [assumption|].
  split; [rewrite Hrow; cbn [mbind result_bind]; exact Ha|].
  split; [assumption|]. split; [assumption|].
  unfold simulate_step. rewrite Hrow. cbn [mbind result_bind].
  rewrite Ha. cbn [mbind result_bind].
  rewrite Hdir. cbn [mbind result_bind].
  destruct (sim_period st) as [[p|]|]; [| congruence |];
    cbn [mbind result_bind]; rewrite Hdl; cbn [mbind result_bind];
    rewrite Hal; cbn [mbind result_bind]; reflexivity.
Qed.

(** A step on the missing value [NaT] fails at the printer. *)
Lemma simulate_step_missing st step :
  sim_period st = Some Period.NaT ->
  simulate_step Period_strftime Qt up_mean flat_mean down_mean
    rate_level pop_trend st step = Raise ValueError.
Proof.
  intros Hper.
  destruct (simulate_step_action st)
    as (row & a & dl & al & Hrange & Hrow & Ha & Hdir & Hdl & Hal).
  unfold simulate_step. rewrite Hrow. cbn [mbind result_bind].
  rewrite Ha. cbn [mbind result_bind].
  rewrite Hdir. cbn [mbind result_bind]. rewrite Hper. reflexivity.
Qed.

Lemma next_period_not_missing o :
  o <> Some Period.NaT -> next_period o <> Some Period.NaT.
Proof. destruct o as [[p|]|]; cbn; congruence. Qed.

Lemma simulate_loop_spec steps : forall st,
  sim_period st <> Some Period.NaT ->
  exists st' new,
    simulate_loop Period_strftime Qt up_mean flat_mean down_mean
      rate_level pop_trend steps st = Ok st'
    /\ sim_records st' = sim_records st ++ new
    /\ sr_step <$> new = steps
    /\ Forall (record_ok up_mean flat_mean down_mean) new
    /\ (forall p, sim_period st = Some (Period.Month p) ->
          sr_ym <$> new = labels_after Period_strftime p (length steps))
    /\ (sim_period st = None ->
          sr_ym <$> new
          = (fun step => "+" +:+ pretty step +:+ "개월") <$> steps)
    /\ scenario_chain Qt rate_level pop_trend (sim_direction st)
         (sim_price st) new.
Proof.
  induction steps as [|step steps IH]; intros st Hper.
  - exists st, []. cbn [simulate_loop]. rewrite app_nil_r.
    repeat split; auto.
  - destruct (simulate_step_spec st step Hper)
      as (a & dl & al & Ha & Hact & Hdl & Hal & Hstep).
    cbn [simulate_loop]. rewrite Hstep. cbn [mbind result_bind].
    match goal with
    | |- context [simulate_loop _ _ _ _ _ _ _ _ ?s] => set (st1 := s)
    end.
    destruct (IH st1)
      as (st' & new & Hloop & Hrecs & Hsteps & Hok & Hym & Hfb & Hchain).
    { subst st1. cbn [sim_period]. apply next_period_not_missing, Hper. }
    eexists st', (_ :: new).
    split; [exact Hloop|].
    split; [rewrite Hrecs; subst st1; cbn [sim_records];
            rewrite <- app_assoc; reflexivity|].
    split; [rewrite fmap_cons, Hsteps; reflexivity|].
    split.
    { apply Forall_cons. split; [|assumption].
      split; [|reflexivity]. cbn. unfold valid_direction. lia. }
    split.
    { intros p Hp. rewrite fmap_cons. cbn [sr_ym length labels_after].
      rewrite Hp. cbn [step_label]. f_equal. apply Hym. subst st1.
      cbn [sim_period]. rewrite Hp. reflexivity. }
    split.
    { intros Hnone. rewrite !fmap_cons. cbn [sr_ym]. rewrite Hnone.
      cbn [step_label]. f_equal. apply Hfb. subst st1.
      cbn [sim_period]. rewrite Hnone. reflexivity. }
    cbn [scenario_chain predicted_direction predicted_direction_label
           predicted_action_label scenario_price applied_return].
    replace (a - 1 + 1) with a by lia.
    split; [assumption|].
    split; [unfold dict_get in Hdl; destruct (_ !! _);
            [now injection Hdl as -> | discriminate]|].
    split; [unfold dict_get in Hal; destruct (_ !! _);
            [now injection Hal as -> | discriminate]|].
    split; [reflexivity | exact Hchain].
Qed.

End ForecastFacts.

(** The forecast on a non-empty table and a 27 x 3 value table, when the
    parser does not return the missing value on the last label, in one
    statement from which the properties of the forecast are read off. *)
Lemma simulate_future_12months_spec Period_parse Period_strftime
    state_df Qt last_row :
  last (rows state_df) = Some last_row -> table_shape Qt 27 3 ->
  Period_parse (ym last_row) <> Some Period.NaT ->
  exists recs,
    simulate_future_12months Period_parse Period_strftime state_df Qt
    = Ok recs
    /\ sr_step <$> recs = seqZ 1 12
    /\ Forall (record_ok (up_mean_of state_df) (flat_mean_of state_df)
                 (down_mean_of state_df)) recs
    /\ (forall p, Period_parse (ym last_row) = Some (Period.Month p) ->
          sr_ym <$> recs = labels_after Period_strftime p 12)
    /\ (Period_parse (ym last_row) = None ->
          sr_ym <$> recs
          = (fun step => "+" +:+ pretty step +:+ "개월") <$> seqZ 1 12)
    /\ scenario_chain Qt (rate_level last_row) (pop_trend last_row)
         (direction last_row) (mean_price last_row) recs.
Proof.
  intros Hlast Hshape Hper.
  destruct (simulate_loop_spec Period_strftime Qt 27
              (up_mean_of state_df) (flat_mean_of state_df)
              (down_mean_of state_df) (rate_level last_row)
              (pop_trend last_row) Hshape ltac:(lia) (seqZ 1 12)
              {| sim_direction := direction last_row;
                 sim_price := mean_price last_row;
                 sim_period := Period_parse (ym last_row);
                 sim_records := [] |} Hper)
    as (st & new & Hloop & Hrecs & Hsteps & Hok & Hym & Hfb & Hchain).
  cbn [sim_records app sim_period sim_price sim_direction]
    in Hrecs, Hym, Hfb, Hchain.
  exists new. unfold simulate_future_12months. rewrite Hlast.
  cbn zeta. rewrite Hloop. cbn [mbind result_bind]. rewrite Hrecs.
  split; [reflexivity|]. split; [assumption|]. split; [assumption|].
  split; [exact Hym|]. split; assumption.
Qed.

(** C6.  On a non-empty table whose last period label the library parses
    to a period [p] of a four-digit year, with the twelve months after
    it in four-digit years too, and a 27 x 3 value table, the forecast
    returns exactly 12 records, numbered 1 to 12.  Their labels are the
    texts [YYYY-MM] of the periods [p+1], ..., [p+12] in this order: each
    label reads back as its period, which is the calendar month after the
    period before (for the first label: after [p]), and the labels are
    strictly increasing as strings. *)
Theorem forecast_twelve_consecutive_months Period_parse Period_strftime
    state_df Qt last_row p :
  last (rows state_df) = Some last_row -> table_shape Qt 27 3 ->
  Period_parse (ym last_row) = Some (Period.Month p) ->
  prints_YYYY_MM Period_strftime ->
  1000 <= Period.year p -> Period.year (p + 12) <= 9999 ->
  exists recs,
    simulate_future_12months Period_parse Period_strftime state_df Qt
    = Ok recs
    /\ length recs = 12%nat
    /\ sr_step <$> recs = seqZ 1 12
    /\ sr_ym <$> recs = (fun k => Period.format_YYYY_MM (p + k)) <$> seqZ 1 12
    /\ forall k, 0 <= k < 12 ->
         Period.parse_YYYY_MM (Period.format_YYYY_MM (p + (k + 1)))
         = Some (Period.Month (p + (k + 1)))
         /\ (Period.year (p + (k + 1)), Period.month (p + (k + 1)))
            = Period.next_calendar_month
                (Period.year (p + k), Period.month (p + k))
         /\ (1 <= k ->
             label_lt (Period.format_YYYY_MM (p + k))
                      (Period.format_YYYY_MM (p + (k + 1)))).
Proof.
  intros Hlast Hshape Hp Hprint Hy1 Hy2.
  assert (Hyears : forall k, 0 <= k <= 12 ->
            1000 <= Period.year (p + k) <= 9999).
  { intros k Hk. unfold Period.year in *. Z.div_mod_to_equations. lia. }
  destruct (simulate_future_12months_spec Period_parse Period_strftime
              state_df Qt last_row Hlast Hshape)
    as (recs & Hrun & Hsteps & _ & Hym & _).
  { rewrite Hp. discriminate. }
  exists recs. split; [assumption|].
  split.
  { rewrite <- (length_fmap sr_step), Hsteps. reflexivity. }
  split; [assumption|].
  split.
  { rewrite (Hym p Hp), (labels_after_seqZ Period_strftime 12).
    apply list_fmap_ext. intros i k Hk. apply Hprint, Hyears.
    apply lookup_seqZ in Hk. lia. }
  intros k Hk. split; [|split].
  - apply PeriodFacts.parse_format.
    pose proof (Hyears (k + 1) ltac:(lia)). lia.
  - replace (p + (k + 1)) with (p + k + 1) by lia.
    apply PeriodFacts.succ_calendar.
  - intros _. apply PeriodFacts.format_order.
    + apply Hyears. lia.
    + apply Hyears. lia.
    + lia.
Qed.

(** C8.  On a non-empty table whose last period label the parser does
    not turn into the missing value, and a 27 x 3 value table, the
    forecast returns its 12 records and every applied return is finite.
    The return applied for a predicted direction is the one kept for that
    direction; when the table has no row of a direction, that one is the
    default: +0.01 for up, 0 for flat, -0.01 for down. *)
Theorem forecast_fallback_returns Period_parse Period_strftime
    state_df Qt last_row :
  last (rows state_df) = Some last_row -> table_shape Qt 27 3 ->
  Period_parse (ym last_row) <> Some Period.NaT ->
  exists recs,
    simulate_future_12months Period_parse Period_strftime state_df Qt
    = Ok recs
    /\ length recs = 12%nat
    /\ Forall (fun r => isfinite (applied_return r) = true) recs
    /\ (Forall (fun row => direction row <> 1) (rows state_df) ->
        Forall (fun r => predicted_direction r = 1 ->
                         applied_return r = Fin 0.01%Q) recs)
    /\ (Forall (fun row => direction row <> 0) (rows state_df) ->
        Forall (fun r => predicted_direction r = 0 ->
                         applied_return r = Fin 0%Q) recs)
    /\ (Forall (fun row => direction row <> -1) (rows state_df) ->
        Forall (fun r => predicted_direction r = -1 ->
                         applied_return r = Fin (-0.01)%Q) recs).
Proof.
  intros Hlast Hshape Hper.
  destruct (simulate_future_12months_spec Period_parse Period_strftime
              state_df Qt last_row Hlast Hshape Hper)
    as (recs & Hrun & Hsteps & Hok & _).
  exists recs. split; [assumption|].
  split.
  { rewrite <- (length_fmap sr_step), Hsteps. reflexivity. }
  pose proof (up_mean_finite state_df) as Hu.
  pose proof (flat_mean_finite state_df) as Hf.
  pose proof (down_mean_finite state_df) as Hd.
  split.
  { eapply Forall_impl; [exact Hok|]. intros r [_ ->]. unfold return_for.
    destruct (predicted_direction r =? 1); [assumption|].
    destruct (predicted_direction r =? 0); assumption. }
  split.
  { intros Hnone. eapply Forall_impl; [exact Hok|].
    intros r [_ ->] ->. unfold return_for. cbn.
    now apply up_mean_default. }
  split.
  { intros Hnone. eapply Forall_impl; [exact Hok|].
    intros r [_ ->] ->. unfold return_for. cbn.
    now apply flat_mean_default. }
  intros Hnone. eapply Forall_impl; [exact Hok|].
  intros r [_ ->] ->. unfold return_for. cbn.
  now apply down_mean_default.
Qed.

Lemma forecast_twelve_consecutive_months_witness :
  exists recs,
    simulate_future_12months Period.parse_YYYY_MM Period.format_YYYY_MM
      flat_up_down zero_table = Ok recs
    /\ length recs = 12%nat
    /\ sr_step <$> recs = seqZ 1 12
    /\ sr_ym <$> recs = (fun k => Period.format_YYYY_MM (650 + k)) <$> seqZ 1 12
    /\ forall k, 0 <= k < 12 ->
         Period.parse_YYYY_MM (Period.format_YYYY_MM (650 + (k + 1)))
         = Some (Period.Month (650 + (k + 1)))
         /\ (Period.year (650 + (k + 1)), Period.month (650 + (k + 1)))
            = Period.next_calendar_month
                (Period.year (650 + k), Period.month (650 + k))
         /\ (1 <= k ->
             label_lt (Period.format_YYYY_MM (650 + k))
                      (Period.format_YYYY_MM (650 + (k + 1)))).
Proof.
  apply (forecast_twelve_consecutive_months Period.parse_YYYY_MM
           Period.format_YYYY_MM flat_up_down zero_table
           (mkRow "2024-03" (Fin 100) (Fin (-0.0196)) (-1) 1 0) 650).
  - reflexivity.
  - apply zero_table_shape.
  - reflexivity.
  - intros q _. reflexivity.
  - vm_compute. discriminate.
  - vm_compute. discriminate.
Defined.

(** The labels of the forecast after 2024-12, run. *)
Example forecast_labels_no_down :
  (fun recs : list ScenarioRecord => sr_ym <$> recs) <$>
    simulate_future_12months Period.parse_YYYY_MM Period.format_YYYY_MM
      no_down_table zero_table
  = Ok ["2025-01"; "2025-02"; "2025-03"; "2025-04"; "2025-05"; "2025-06";
        "2025-07"; "2025-08"; "2025-09"; "2025-10"; "2025-11"; "2025-12"].
Proof. vm_compute. reflexivity. Qed.

Lemma forecast_fallback_returns_witness :
  exists recs,
    simulate_future_12months Period.parse_YYYY_MM Period.format_YYYY_MM
      no_down_table zero_table = Ok recs
    /\ length recs = 12%nat
    /\ Forall (fun r => isfinite (applied_return r) = true) recs
    /\ (Forall (fun row => direction row <> 1) (rows no_down_table) ->
        Forall (fun r => predicted_direction r = 1 ->
                         applied_return r = Fin 0.01%Q) recs)
    /\ (Forall (fun row => direction row <> 0) (rows no_down_table) ->
        Forall (fun r => predicted_direction r = 0 ->
                         applied_return r = Fin 0%Q) recs)
    /\ (Forall (fun row => direction row <> -1) (rows no_down_table) ->
        Forall (fun r => predicted_direction r = -1 ->
                         applied_return r = Fin (-0.01)%Q) recs).
Proof.
  apply (forecast_fallback_returns Period.parse_YYYY_MM Period.format_YYYY_MM
           no_down_table zero_table
           (mkRow "2024-12" (Fin 105) (Fin 0.0194) 1 2 0)).
  - reflexivity.
  - apply zero_table_shape.
  - vm_compute. discriminate.
Defined.

(** On that table the zero value table always predicts "down", and each
    of the 12 steps applies the default -0.01. *)
Example forecast_returns_no_down :
  (fun recs : list ScenarioRecord =>
     (predicted_direction <$> take 2 recs,
      applied_return <$> take 2 recs)) <$>
    simulate_future_12months Period.parse_YYYY_MM Period.format_YYYY_MM
      no_down_table zero_table
  = Ok ([-1; -1], [Fin (-0.01)%Q; Fin (-0.01)%Q]).
Proof. vm_compute. reflexivity. Qed.

End ApiFacts.

(** * Further properties of the state encoder *)

Module StateEncoderExtra.

Import StateEncoder Environment Api Vocabulary StateEncoderFacts.
Local Open Scope Z_scope.

Lemma ID_TO_POP_TREND_lookup s :
  ID_TO_POP_TREND !! s =
  if decide (s = 0 \/ s = 1 \/ s = 2) then Some (s - 1) else None.
Proof. apply ID_TO_DIRECTION_lookup. Qed.

Lemma decode_direction_int s :
  decode_direction (PyInt s)
  = if decide (s = 0 \/ s = 1 \/ s = 2) then s - 1 else 0.
Proof.
  unfold decode_direction. cbn [py_int].
  rewrite ID_TO_DIRECTION_lookup. now case_decide.
Qed.

(** [decode_direction] always returns a direction of the table, and
    encoding it again gives back an id in {0,1,2} unchanged and sends every
    other input to the id of flat. *)
Theorem encode_decode_direction v :
  valid_direction (decode_direction v)
  /\ encode_direction (PyInt (decode_direction v))
     = match py_int v with
       | Some s => if decide (0 <= s <= 2) then s else 1
       | None => 1
       end.
Proof.
  destruct v as [s|]; cbn [py_int].
  - rewrite decode_direction_int, encode_direction_int.
    unfold valid_direction.
    repeat case_decide; lia.
  - split; [right; left; reflexivity | reflexivity].
Qed.

(** A direction that went through the encoder and back is described like
    the original, whatever integer it was; and where the encoders absorb a
    value [int] rejects, [describe_direction] lets the exception out. *)
Theorem describe_direction_after_round_trip d :
  describe_direction
    (PyInt (decode_direction (PyInt (encode_direction (PyInt d)))))
  = describe_direction (PyInt d)
  /\ describe_direction PyNotInt = None
  /\ encode_direction PyNotInt = 1.
Proof.
  split; [|split; reflexivity].
  rewrite encode_direction_int. unfold valid_direction.
  case_decide as Hd.
  - rewrite decode_direction_int.
    case_decide; [|lia]. replace (d + 1 - 1) with d by lia. reflexivity.
  - rewrite decode_direction_int. cbn.
    unfold describe_direction. cbn [py_int mbind option_bind].
    destruct (Z.eqb_spec d (-1)); [lia|].
    destruct (Z.eqb_spec d 1); [lia|]. reflexivity.
Qed.

(** On the three directions of the table the three label tables of the
    code agree: [describe_direction], the label [step] puts in its info,
    and the label map of the forecast. *)
Theorem direction_labels_agree d :
  valid_direction d ->
  describe_direction (PyInt d) = Some (direction_label d)
  /\ direction_label_map !! d = Some (direction_label d).
Proof. intros [-> | [-> | ->]]; split; reflexivity. Qed.

Lemma direction_labels_agree_witness :
  describe_direction (PyInt (-1)) = Some (direction_label (-1))
  /\ direction_label_map !! (-1) = Some (direction_label (-1)).
Proof.
  apply (direction_labels_agree (-1)). unfold valid_direction. lia.
Defined.

(** The three sub-ids are the base-3 digits of the state id, for every
    input: the state id determines each of them. *)
Theorem encode_state_digits dv rv pv :
  encode_state dv rv pv / 9 = encode_direction dv
  /\ encode_state dv rv pv / 3 mod 3 = encode_rate_level rv
  /\ encode_state dv rv pv mod 3 = encode_pop_trend pv.
Proof.
  unfold encode_state.
  pose proof (encode_direction_range dv).
  pose proof (encode_rate_level_range rv).
  pose proof (encode_pop_trend_range pv).
  repeat split; Z.div_mod_to_equations; lia.
Qed.

(** Every id in [0,26] is the state id of a valid triple, read off its
    base-3 digits: no row of the value table is unreachable by the
    encoding. *)
Theorem encode_state_onto s :
  0 <= s <= 26 ->
  valid_direction (s / 9 - 1)
  /\ valid_rate_level (s / 3 mod 3)
  /\ valid_pop_trend (s mod 3 - 1)
  /\ encode_state (PyInt (s / 9 - 1)) (PyInt (s / 3 mod 3))
                  (PyInt (s mod 3 - 1)) = s.
Proof.
  intros Hs.
  assert (Hd : valid_direction (s / 9 - 1)).
  { unfold valid_direction. Z.div_mod_to_equations. lia. }
  assert (Hr : valid_rate_level (s / 3 mod 3)).
  { unfold valid_rate_level. Z.div_mod_to_equations. lia. }
  assert (Hp : valid_pop_trend (s mod 3 - 1)).
  { unfold valid_pop_trend. Z.div_mod_to_equations. lia. }
  repeat (split; [assumption|]).
  unfold encode_state.
  rewrite encode_direction_int, encode_rate_level_int, encode_pop_trend_int.
  destruct (decide (valid_direction (s / 9 - 1))); [|contradiction].
  destruct (decide (valid_pop_trend (s mod 3 - 1))); [|contradiction].
  unfold valid_rate_level in Hr. Z.div_mod_to_equations. lia.
Qed.

Lemma encode_state_onto_witness :
  valid_direction (14 / 9 - 1)
  /\ valid_rate_level (14 / 3 mod 3)
  /\ valid_pop_trend (14 mod 3 - 1)
  /\ encode_state (PyInt (14 / 9 - 1)) (PyInt (14 / 3 mod 3))
                  (PyInt (14 mod 3 - 1)) = 14.
Proof. apply (encode_state_onto 14). lia. Defined.

(** Clamping the rate level is monotone, and clamping twice is clamping
    once. *)
Theorem encode_rate_level_monotone x y :
  x <= y ->
  encode_rate_level (PyInt x) <= encode_rate_level (PyInt y)
  /\ encode_rate_level (PyInt (encode_rate_level (PyInt x)))
     = encode_rate_level (PyInt x).
Proof. intros Hxy. rewrite !encode_rate_level_int. lia. Qed.

Lemma encode_rate_level_monotone_witness :
  encode_rate_level (PyInt (-4)) <= encode_rate_level (PyInt 7)
  /\ encode_rate_level (PyInt (encode_rate_level (PyInt (-4))))
     = encode_rate_level (PyInt (-4)).
Proof. apply (encode_rate_level_monotone (-4) 7). lia. Defined.

(** The inverted dictionaries are inverses: a key maps to an id exactly
    when the id maps back to the key. *)
Theorem inverted_maps_are_inverse k i :
  (DIRECTION_TO_ID !! k = Some i <-> ID_TO_DIRECTION !! i = Some k)
  /\ (POP_TREND_TO_ID !! k = Some i <-> ID_TO_POP_TREND !! i = Some k).
Proof.
  rewrite DIRECTION_TO_ID_lookup, POP_TREND_TO_ID_lookup,
    ID_TO_DIRECTION_lookup, ID_TO_POP_TREND_lookup.
  unfold valid_direction, valid_pop_trend.
  repeat case_decide; repeat split; intros [=]; try lia; f_equal; lia.
Qed.

End StateEncoderExtra.

(** * Further properties of the environment *)

Module EnvironmentExtra.

Import StateEncoder Environment Vocabulary.
Import StateEncoderFacts EnvironmentFacts.
Local Open Scope Z_scope.

Lemma env_inv_set_idx_eq d e i :
  env_inv d e -> set_current_idx e i = env_at d i.
Proof.
  intros (Hdf & Hn & Hm & _). unfold env_at, set_current_idx, init. cbn.
  now rewrite Hdf, Hn, Hm.
Qed.

Lemma env_at_inv d t :
  2 <= df_len d -> 0 <= t < df_len d -> env_inv d (env_at d t).
Proof.
  intros Hn Ht. apply env_inv_set_idx; [apply env_inv_init | lia | lia].
Qed.

Lemma reachable_env_at_nat d (k : nat) :
  2 <= df_len d -> Z.of_nat k <= df_len d - 1 ->
  reachable d (env_at d (Z.of_nat k)).
Proof.
  intros Hn. induction k as [|k IH]; intros Hk.
  - destruct (reset_ok d (init d) (env_inv_init d) Hn) as (r0 & _ & Hreset).
    eapply reach_reset; [apply reach_init | exact Hreset].
  - assert (Hreach : reachable d (env_at d (Z.of_nat k))) by (apply IH; lia).
    destruct (step_active d (env_at d (Z.of_nat k)) (Z.of_nat k))
      as (rt & rn & _ & _ & Hstep).
    + apply env_at_inv; lia.
    + reflexivity.
    + lia.
    + replace (Z.of_nat (S k)) with (Z.of_nat k + 1) by lia.
      eapply (reach_step d _ 0); [exact Hreach | apply Hstep].
Qed.

(** The environments a program can hold are the fresh one and, on a table
    of at least two rows, the ones whose pointer addresses a row: the
    pointer never leaves the table, and every row can be pointed at. *)
Theorem reachable_environments d e :
  reachable d e <->
  e = init d
  \/ (2 <= df_len d /\ exists t, 0 <= t <= df_len d - 1 /\ e = env_at d t).
Proof.
  split.
  - intros Hreach. pose proof (reachable_inv d e Hreach) as Hinv.
    destruct (current_idx e) as [t|] eqn:Ht.
    + right. pose proof Hinv as (_ & _ & _ & Hidx). rewrite Ht in Hidx.
      split; [lia|]. exists t. split; [lia|].
      rewrite <- (env_inv_set_idx_eq d e t Hinv).
      destruct e. cbn in Ht. subst. reflexivity.
    + left. destruct Hinv as (Hdf & Hn & Hm & _).
      destruct e. cbn in *. subst. reflexivity.
  - intros [-> | (Hn & t & Ht & ->)]; [apply reach_init|].
    replace t with (Z.of_nat (Z.to_nat t)) by lia.
    apply reachable_env_at_nat; lia.
Qed.

(** [reset] rewinds: from any environment in use over a table of at least
    two rows it returns the same environment, pointer at row 0, and the
    encoded state of row 0. *)
Theorem reset_rewinds d e :
  reachable d e -> 2 <= df_len d ->
  exists r0,
    df_loc d 0 = Ok r0 /\ reset e = Ok (env_at d 0, row_state r0).
Proof.
  intros Hreach Hn. pose proof (reachable_inv d e Hreach) as Hinv.
  destruct (reset_ok d e Hinv Hn) as (r0 & Hr0 & Hreset).
  exists r0. split; [assumption|].
  now rewrite <- (env_inv_set_idx_eq d e 0 Hinv).
Qed.

Lemma reset_rewinds_witness :
  exists r0,
    df_loc flat_up_down 0 = Ok r0
    /\ reset (env_at flat_up_down 2) = Ok (env_at flat_up_down 0, row_state r0).
Proof.
  apply (reset_rewinds flat_up_down (env_at flat_up_down 2)).
  - apply reachable_flat_up_down_2.
  - vm_compute. discriminate.
Defined.

(** A table with fewer than two rows cannot be used: [reset] raises
    [ValueError] on every environment over it, the pointer is never set,
    and every [step] raises [RuntimeError]. *)
Theorem short_table_unusable d e a :
  reachable d e -> df_len d < 2 ->
  reset e = Raise ValueError
  /\ current_idx e = None
  /\ step e a = Raise RuntimeError.
Proof.
  intros Hreach Hn. pose proof (reachable_inv d e Hreach) as Hinv.
  split; [now apply (reset_small d)|].
  assert (Hnone : current_idx e = None).
  { destruct Hinv as (_ & _ & _ & Hidx).
    destruct (current_idx e); [lia | reflexivity]. }
  split; [assumption|]. unfold step. now rewrite Hnone.
Qed.

Lemma short_table_unusable_witness :
  reset (init single_row_table) = Raise ValueError
  /\ current_idx (init single_row_table) = None
  /\ step (init single_row_table) 1 = Raise RuntimeError.
Proof.
  apply (short_table_unusable single_row_table (init single_row_table) 1).
  - apply reach_init.
  - vm_compute. reflexivity.
Defined.

(** Once [reset] was called, [step] never raises.  It reports [done]
    exactly when called at or after the last usable pointer [n-2], and it
    moves the pointer one row on, but never past the last row, whose
    encoded state it returns. *)
Theorem step_after_reset_succeeds d e t a :
  reachable d e -> current_idx e = Some t ->
  exists e' row r done info,
    step e a = Ok (e', (row_state row, r, done, info))
    /\ (done = true <-> df_len d - 2 <= t)
    /\ current_idx e' = Some (Z.min (t + 1) (df_len d - 1))
    /\ df_loc d (Z.min (t + 1) (df_len d - 1)) = Ok row.
Proof.
  intros Hreach Ht. pose proof (reachable_inv d e Hreach) as Hinv.
  pose proof Hinv as (Hdf & _ & _ & Hidx). rewrite Ht in Hidx.
  destruct (Z.le_gt_cases t (df_len d - 2)) as [Hle|Hgt].
  - destruct (step_active d e t Hinv Ht Hle) as (rt & rn & _ & Hrn & Hstep).
    exists (set_current_idx e (t + 1)), rn. do 3 eexists.
    split; [apply Hstep|].
    replace (Z.min (t + 1) (df_len d - 1)) with (t + 1) by lia.
    split; [rewrite Z.leb_le; lia|].
    split; [reflexivity | assumption].
  - destruct (step_finished d e t Hinv Ht Hgt) as (row & Hrow & Hstep).
    exists e, row. do 3 eexists. split; [apply Hstep|].
    replace (Z.min (t + 1) (df_len d - 1)) with t by lia.
    split; [split; [lia | reflexivity]|].
    split; assumption.
Qed.

Lemma step_after_reset_succeeds_witness :
  exists e' row r done info,
    step (env_at flat_up_down 1) 0 = Ok (e', (row_state row, r, done, info))
    /\ (done = true <-> df_len flat_up_down - 2 <= 1)
    /\ current_idx e' = Some (Z.min (1 + 1) (df_len flat_up_down - 1))
    /\ df_loc flat_up_down (Z.min (1 + 1) (df_len flat_up_down - 1)) = Ok row.
Proof.
  apply (step_after_reset_succeeds flat_up_down (env_at flat_up_down 1) 1 0).
  - apply reachable_flat_up_down_1.
  - reflexivity.
Defined.

End EnvironmentExtra.

(** * Further properties of the greedy rollout *)

Module GreedyExtra.

Import StateEncoder Environment Numpy QLearning Vocabulary.
Import StateEncoderFacts EnvironmentFacts QLearningFacts EnvironmentExtra.
Local Open Scope Z_scope.

Lemma sum_rewards_app h1 h2 :
  (sum_rewards (h1 ++ h2) == sum_rewards h1 + sum_rewards h2)%Q.
Proof.
  unfold sum_rewards. induction h1 as [|h h1 IH]; cbn.
  - ring.
  - rewrite IH. ring.
Qed.

Section Rollout.

Variables (d : DataFrame) (Qt : list (list Q)) (max_steps : Z).
Hypothesis Hshape : table_shape Qt 27 3.

(** One pass of the rollout at pointer [t], with what it appends. *)
Lemma greedy_iteration_entry st t row_t :
  env_inv d (gs_env st) -> current_idx (gs_env st) = Some t ->
  t <= df_len d - 2 -> df_loc d t = Ok row_t ->
  gs_state st = row_state row_t -> gs_steps st = t ->
  exists h row_n,
    df_loc d (t + 1) = Ok row_n
    /\ greedy_entry d Qt t h
    /\ greedy_iteration Qt st
       = Ok {| gs_env := env_at d (t + 1);
               gs_state := row_state row_n;
               gs_done := (df_len d - 1 <=? t + 1);
               gs_total_reward := (gs_total_reward st + si_reward h)%Q;
               gs_steps := t + 1;
               gs_history := gs_history st ++ [h] |}.
Proof.
  intros Hinv Hidx Hle Hrow Hstate Hsteps.
  pose proof (row_state_range row_t) as Hrange.
  destruct (table_row_ok Qt 27 3 (row_state row_t) Hshape)
    as (row & _ & Hqrow & Hlen); [lia|].
  destruct (np_argmax_ok row) as (a & Ha & _); [lia|].
  destruct (step_active d _ t Hinv Hidx Hle) as (rt & rn & Hrt & Hrn & Hstep).
  rewrite Hrow in Hrt. injection Hrt as <-.
  exists {| si_step := t; si_current_ym := Some (ym row_t);
            si_next_ym := Some (ym rn); si_action_id := a;
            si_true_direction_label :=
              Some (direction_label (direction rn));
            si_reward := if a =? true_action_id (direction rn)
                         then 1%Q else (-1)%Q |}, rn.
  split; [exact Hrn|].
  split; [|unfold greedy_iteration; rewrite Hstate, Hqrow;
           cbn [mbind result_bind]; rewrite Ha; cbn [mbind result_bind];
           rewrite Hstep; cbn [mbind result_bind];
           rewrite (env_inv_set_idx_eq d _ (t + 1) Hinv), Hsteps;
           reflexivity].
  exists row_t, rn. cbn.
  split; [assumption|]. split; [assumption|]. split; [reflexivity|].
  split; [reflexivity|]. split; [reflexivity|].
  split; [rewrite Hqrow; cbn [mbind result_bind]; exact Ha|].
  split; reflexivity.
Qed.

(** The loop from pointer [t], for the [k] passes that the table and the
    cap leave it. *)
Lemma greedy_loop_trace (k : nat) : forall fuel st t row_t,
  env_inv d (gs_env st) -> current_idx (gs_env st) = Some t ->
  df_loc d t = Ok row_t -> gs_state st = row_state row_t ->
  gs_steps st = t -> gs_done st = (df_len d - 1 <=? t) ->
  t + Z.of_nat k <= df_len d - 1 ->
  (0 < Z.of_nat k -> t + Z.of_nat k <= max_steps) ->
  t + Z.of_nat k = df_len d - 1 \/ max_steps <= t + Z.of_nat k ->
  (k <= fuel)%nat ->
  exists st' new,
    greedy_loop fuel Qt max_steps st = Ok st'
    /\ gs_steps st' = t + Z.of_nat k
    /\ current_idx (gs_env st') = Some (t + Z.of_nat k)
    /\ gs_history st' = gs_history st ++ new
    /\ length new = k
    /\ (forall (j : nat) h,
          new !! j = Some h -> greedy_entry d Qt (t + Z.of_nat j) h)
    /\ (gs_total_reward st' == gs_total_reward st + sum_rewards new)%Q.
Proof.
  induction k as [|k IH];
    intros fuel st t row_t Hinv Hidx Hrow Hstate Hsteps Hdone H1 H2 H3 Hfuel.
  - exists st, []. split.
    { destruct fuel; cbn [greedy_loop]; [destruct (_ && _); reflexivity|].
      rewrite Hdone, Hsteps.
      destruct H3 as [H3|H3].
      - destruct (Z.leb_spec (df_len d - 1) t); [reflexivity|lia].
      - destruct (Z.ltb_spec t max_steps); [lia|].
        now rewrite andb_false_r. }
    split; [lia|]. split; [rewrite Hidx; f_equal; lia|].
    split; [now rewrite app_nil_r|]. split; [reflexivity|].
    split; [intros j h [=]|]. unfold sum_rewards. cbn. ring.
  - destruct fuel as [|fuel]; [lia|].
    destruct (greedy_iteration_entry st t row_t Hinv Hidx ltac:(lia) Hrow
                Hstate Hsteps) as (h & rn & Hrn & Hentry & Hit).
    cbn [greedy_loop]. rewrite Hdone, Hsteps.
    destruct (Z.leb_spec (df_len d - 1) t); [lia|].
    destruct (Z.ltb_spec t max_steps); [|lia].
    cbn [negb andb]. rewrite Hit. cbn [mbind result_bind].
    match goal with
    | |- context [greedy_loop _ _ _ ?s] => set (st1 := s)
    end.
    pose proof Hinv as (_ & _ & _ & Hi). rewrite Hidx in Hi.
    destruct (IH fuel st1 (t + 1) rn) as
      (st' & new & Hloop & Hs' & Hidx' & Hhist & Hlen & Hent & Htot);
      try reflexivity; try assumption; try lia.
    { apply env_at_inv; lia. }
    exists st', (h :: new). split; [exact Hloop|].
    split; [lia|]. split; [rewrite Hidx'; f_equal; lia|].
    split; [rewrite Hhist; subst st1; cbn [gs_history];
            now rewrite <- app_assoc|].
    split; [cbn [length]; lia|].
    split.
    { intros [|j] h' Hj; cbn in Hj.
      - injection Hj as <-. now rewrite Z.add_0_r.
      - replace (t + Z.of_nat (S j)) with (t + 1 + Z.of_nat j) by lia.
        now apply Hent. }
    rewrite Htot. subst st1. cbn [gs_total_reward].
    unfold sum_rewards. cbn. ring.
Qed.

End Rollout.

(** The rollout in full: what [run_greedy_policy] returns on a table of at
    least two rows, for any cap. *)
Lemma run_greedy_policy_trace_inv d e Qt max_steps :
  env_inv d e -> 2 <= df_len d -> table_shape Qt 27 3 ->
  exists total history e',
    run_greedy_policy e Qt max_steps
    = Ok (total, rollout_steps (df_len d) max_steps, history, e')
    /\ Z.of_nat (length history) = rollout_steps (df_len d) max_steps
    /\ current_idx e' = Some (rollout_steps (df_len d) max_steps)
    /\ (forall (j : nat) h,
          history !! j = Some h -> greedy_entry d Qt (Z.of_nat j) h)
    /\ (total == sum_rewards history)%Q.
Proof.
  intros Hinv Hn Hshape.
  destruct (reset_ok d e Hinv Hn) as (r0 & Hr0 & Hreset).
  rewrite (env_inv_set_idx_eq d e 0 Hinv) in Hreset.
  set (m := rollout_steps (df_len d) max_steps).
  assert (Hm : 0 <= m <= df_len d - 1 /\ m <= Z.max 0 max_steps
               /\ (m = df_len d - 1 \/ max_steps <= m)).
  { unfold m, rollout_steps. lia. }
  destruct (greedy_loop_trace d Qt max_steps Hshape (Z.to_nat m)
              (Z.to_nat max_steps)
              {| gs_env := env_at d 0; gs_state := row_state r0;
                 gs_done := false; gs_total_reward := 0%Q; gs_steps := 0;
                 gs_history := [] |} 0 r0)
    as (st & new & Hloop & Hsteps & Hidx & Hhist & Hlen & Hent & Htot);
    try reflexivity; try assumption; try lia.
  - apply env_at_inv; lia.
  - cbn [gs_done]. symmetry. apply Z.leb_gt. lia.
  - cbn [gs_history app gs_total_reward] in Hhist, Htot.
    exists (gs_total_reward st), (gs_history st), (gs_env st).
    split.
    { unfold run_greedy_policy. rewrite Hreset. cbn [mbind result_bind].
      rewrite Hloop. cbn [mbind result_bind]. rewrite Hsteps.
      replace (0 + Z.of_nat (Z.to_nat m)) with m by lia. reflexivity. }
    rewrite Hhist. split; [lia|].
    split; [rewrite Hidx; f_equal; lia|].
    split.
    { intros j h Hj. replace (Z.of_nat j) with (0 + Z.of_nat j) by lia.
      now apply Hent. }
    rewrite Htot. ring.
Qed.

Lemma run_greedy_policy_trace d e Qt max_steps :
  reachable d e -> 2 <= df_len d -> table_shape Qt 27 3 ->
  exists total history e',
    run_greedy_policy e Qt max_steps
    = Ok (total, rollout_steps (df_len d) max_steps, history, e')
    /\ Z.of_nat (length history) = rollout_steps (df_len d) max_steps
    /\ current_idx e' = Some (rollout_steps (df_len d) max_steps)
    /\ (forall (j : nat) h,
          history !! j = Some h -> greedy_entry d Qt (Z.of_nat j) h)
    /\ (total == sum_rewards history)%Q.
Proof.
  intros Hreach. apply run_greedy_policy_trace_inv.
  now apply reachable_inv.
Qed.

(** The step cap is respected: on a table of [n >= 2] rows the rollout
    takes [min(max(0, max_steps), n-1)] steps, records as many history
    entries, and leaves the pointer on the row of that number. *)
Theorem greedy_rollout_respects_cap d e Qt max_steps :
  reachable d e -> 2 <= df_len d -> table_shape Qt 27 3 ->
  exists total history e',
    run_greedy_policy e Qt max_steps
    = Ok (total, Z.min (Z.max 0 max_steps) (df_len d - 1), history, e')
    /\ Z.of_nat (length history) = Z.min (Z.max 0 max_steps) (df_len d - 1)
    /\ current_idx e' = Some (Z.min (Z.max 0 max_steps) (df_len d - 1)).
Proof.
  intros Hreach Hn Hshape.
  destruct (run_greedy_policy_trace d e Qt max_steps Hreach Hn Hshape)
    as (total & history & e' & Hrun & Hlen & Hidx & _).
  exists total, history, e'. repeat split; assumption.
Qed.

Lemma greedy_rollout_respects_cap_witness :
  exists total history e',
    run_greedy_policy (init flat_up_down) zero_table 1
    = Ok (total, Z.min (Z.max 0 1) (df_len flat_up_down - 1), history, e')
    /\ Z.of_nat (length history)
       = Z.min (Z.max 0 1) (df_len flat_up_down - 1)
    /\ current_idx e' = Some (Z.min (Z.max 0 1) (df_len flat_up_down - 1)).
Proof.
  apply (greedy_rollout_respects_cap flat_up_down (init flat_up_down)
           zero_table 1).
  - apply reach_init.
  - vm_compute. discriminate.
  - apply zero_table_shape.
Defined.

(** The history of a rollout: entry [j] is step [j], from row [j] to row
    [j+1], with the greedy action for the state of row [j] and a reward
    of +1 or -1 according to the direction of row [j+1]; the total reward
    is the sum of the rewards in the history. *)
Theorem greedy_rollout_history d e Qt max_steps :
  reachable d e -> 2 <= df_len d -> table_shape Qt 27 3 ->
  exists total steps history e',
    run_greedy_policy e Qt max_steps = Ok (total, steps, history, e')
    /\ (forall (j : nat) h,
          history !! j = Some h -> greedy_entry d Qt (Z.of_nat j) h)
    /\ (total == sum_rewards history)%Q.
Proof.
  intros Hreach Hn Hshape.
  destruct (run_greedy_policy_trace d e Qt max_steps Hreach Hn Hshape)
    as (total & history & e' & Hrun & _ & _ & Hent & Htot).
  exists total, (rollout_steps (df_len d) max_steps), history, e'.
  repeat split; assumption.
Qed.

Lemma greedy_rollout_history_witness :
  exists total steps history e',
    run_greedy_policy (init flat_up_down) zero_table 100
    = Ok (total, steps, history, e')
    /\ (forall (j : nat) h,
          history !! j = Some h ->
          greedy_entry flat_up_down zero_table (Z.of_nat j) h)
    /\ (total == sum_rewards history)%Q.
Proof.
  apply (greedy_rollout_history flat_up_down (init flat_up_down)
           zero_table 100).
  - apply reach_init.
  - vm_compute. discriminate.
  - apply zero_table_shape.
Defined.

(** The rollout does not depend on what was done with the environment
    before: from every environment in use over a table it returns what it
    returns from a fresh one, a failure on a short table included. *)
Theorem greedy_rollout_ignores_past d e Qt max_steps :
  reachable d e ->
  run_greedy_policy e Qt max_steps
  = run_greedy_policy (init d) Qt max_steps.
Proof.
  intros Hreach. unfold run_greedy_policy.
  destruct (Z.lt_ge_cases (df_len d) 2) as [Hs|Hl].
  - rewrite (reset_small d e (reachable_inv d e Hreach) Hs).
    rewrite (reset_small d (init d) (env_inv_init d) Hs). reflexivity.
  - pose proof (reachable_inv d e Hreach) as Hinv.
    pose proof (env_inv_init d) as Hinit.
    destruct (reset_ok d e Hinv) as (r0 & Hr0 & ->); [lia|].
    destruct (reset_ok d (init d) Hinit) as (r0' & Hr0' & ->); [lia|].
    rewrite Hr0 in Hr0'. injection Hr0' as <-.
    rewrite (env_inv_set_idx_eq d e 0 Hinv).
    rewrite (env_inv_set_idx_eq d (init d) 0 Hinit). reflexivity.
Qed.

Lemma greedy_rollout_ignores_past_witness :
  run_greedy_policy (env_at flat_up_down 2) zero_table 100
  = run_greedy_policy (init flat_up_down) zero_table 100.
Proof.
  apply (greedy_rollout_ignores_past flat_up_down (env_at flat_up_down 2)).
  apply reachable_flat_up_down_2.
Defined.

Lemma argmax_from_spec l : forall bi b i a,
  argmax_from bi b i l = a ->
  (a = bi /\ Forall (fun y => (y <= b)%Q) l)
  \/ (exists (j : nat) x,
        a = i + Z.of_nat j /\ l !! j = Some x /\ (b < x)%Q
        /\ Forall (fun y => (y <= x)%Q) l
        /\ Forall (fun y => (y < x)%Q) (take j l)).
Proof.
  induction l as [|y l IH]; intros bi b i a Ha; cbn [argmax_from] in Ha.
  - left. split; [now symmetry | constructor].
  - destruct (Qlt_bool b y) eqn:E.
    + apply Qlt_bool_true in E.
      destruct (IH _ _ _ _ Ha)
        as [[-> Hall] | (j & x & -> & Hj & Hx & Hall & Hpre)].
      * right. exists 0%nat, y.
        split; [lia|]. split; [reflexivity|]. split; [assumption|].
        split; [|constructor].
        constructor; [apply Qle_refl | assumption].
      * right. exists (S j), x.
        split; [lia|]. split; [exact Hj|].
        split; [eapply Qlt_trans; eassumption|].
        split.
        -- constructor; [now apply Qlt_le_weak | assumption].
        -- cbn [take]. constructor; assumption.
    + apply Qlt_bool_false in E.
      destruct (IH _ _ _ _ Ha)
        as [[-> Hall] | (j & x & -> & Hj & Hx & Hall & Hpre)].
      * left. split; [reflexivity|]. constructor; assumption.
      * right. exists (S j), x.
        split; [lia|]. split; [exact Hj|]. split; [assumption|].
        split.
        -- constructor; [|assumption].
           eapply Qle_trans; [exact E | now apply Qlt_le_weak].
        -- cbn [take]. constructor; [|assumption].
           eapply Qle_lt_trans; eassumption.
Qed.

Lemma fold_py_max_spec l : forall x,
  Forall (fun y => (y <= fold_left py_max l x)%Q) (x :: l).
Proof.
  induction l as [|y l IH]; intros x; cbn [fold_left].
  - constructor; [apply Qle_refl | constructor].
  - specialize (IH (py_max x y)).
    apply Forall_cons in IH as [Hm Hl].
    constructor; [|constructor; [|assumption]].
    + eapply Qle_trans; [apply py_max_ge_l | exact Hm].
    + eapply Qle_trans; [apply py_max_ge_r | exact Hm].
Qed.

(** The greedy choice: [np.argmax] returns a position of the row whose
    value no entry exceeds and every earlier entry is strictly below (ties
    go to the lowest index), and that value equals the [np.max] of the
    row, the one the update rule uses. *)
Theorem argmax_is_first_maximum row a :
  np_argmax row = Ok a ->
  exists x m,
    np_index row a = Ok x
    /\ Forall (fun y => (y <= x)%Q) row
    /\ Forall (fun y => (y < x)%Q) (take (Z.to_nat a) row)
    /\ np_max row = Ok m /\ (m == x)%Q.
Proof.
  destruct row as [|b l]; [discriminate|]. intros [= Ha].
  assert (Hmax : Forall (fun y => (y <= fold_left py_max l b)%Q) (b :: l))
    by apply fold_py_max_spec.
  assert (Hin : In (fold_left py_max l b) (b :: l)).
  { apply (fold_py_max_closed (fun q => In q (b :: l))).
    - now left.
    - apply Forall_forall. intros y Hy. right. now apply list_elem_of_In. }
  assert (Hgoal : exists x,
             np_index (b :: l) a = Ok x
             /\ Forall (fun y => (y <= x)%Q) (b :: l)
             /\ Forall (fun y => (y < x)%Q) (take (Z.to_nat a) (b :: l))).
  { destruct (argmax_from_spec l 0 b 1 a Ha)
      as [[-> Hall] | (j & x & -> & Hj & Hx & Hall & Hpre)].
    - exists b. split; [reflexivity|].
      split; [constructor; [apply Qle_refl | assumption] | constructor].
    - exists x.
      assert (Hlt : (j < length l)%nat) by (eapply lookup_lt_Some; eassumption).
      split.
      { unfold np_index. rewrite np_pos_ok by (cbn [length]; lia).
        cbn [mbind result_bind].
        replace (Z.to_nat (1 + Z.of_nat j)) with (S j) by lia.
        change ((b :: l) !! S j) with (l !! j). now rewrite Hj. }
      split; [constructor; [now apply Qlt_le_weak | assumption]|].
      replace (Z.to_nat (1 + Z.of_nat j)) with (S j) by lia.
      cbn [take]. constructor; assumption. }
  destruct Hgoal as (x & Hidx & Hall & Hpre).
  exists x, (fold_left py_max l b).
  split; [assumption|]. split; [assumption|]. split; [assumption|].
  split; [reflexivity|].
  apply Qle_antisym.
  - apply (proj1 (Forall_forall _ _) Hall).
    now apply list_elem_of_In.
  - destruct (np_index_inv _ _ _ Hidx) as (k & _ & Hk).
    apply (proj1 (Forall_lookup _ _) Hmax _ _ Hk).
Qed.

Lemma argmax_is_first_maximum_witness :
  exists x m,
    np_index [0.5%Q; 2%Q; (-1)%Q; 2%Q] 1 = Ok x
    /\ Forall (fun y => (y <= x)%Q) [0.5%Q; 2%Q; (-1)%Q; 2%Q]
    /\ Forall (fun y => (y < x)%Q)
         (take (Z.to_nat 1) [0.5%Q; 2%Q; (-1)%Q; 2%Q])
    /\ np_max [0.5%Q; 2%Q; (-1)%Q; 2%Q] = Ok m /\ (m == x)%Q.
Proof.
  apply (argmax_is_first_maximum [0.5%Q; 2%Q; (-1)%Q; 2%Q] 1).
  reflexivity.
Defined.

End GreedyExtra.

(** * Further properties of the learner *)

Module TrainingExtra.

Import Binary64 StateEncoder Environment Numpy QLearning Vocabulary.
Import Binary64Facts StateEncoderFacts EnvironmentFacts QLearningFacts.
Import EnvironmentExtra.
Local Open Scope Z_scope.

Lemma np_pos_nonneg n s i : np_pos n s = Ok i -> 0 <= s -> i = Z.to_nat s.
Proof.
  unfold np_pos. intros H Hs.
  destruct (Z.ltb_spec s 0); [lia|].
  destruct (_ || _); [discriminate|]. now injection H as <-.
Qed.

(** An update writes one row: the row of the state it is applied to. *)
Lemma q_update_other_rows alpha gamma Qt s a r s' Qt' (k : nat) :
  q_update alpha gamma Qt s a r s' = Ok Qt' -> 0 <= s ->
  k <> Z.to_nat s -> Qt' !! k = Qt !! k.
Proof.
  unfold q_update, np_get2, np_set2. intros H Hs Hk.
  destruct (np_index Qt s') as [row'|]; [|discriminate].
  cbn [mbind result_bind] in H.
  destruct (np_max row') as [m|]; [|discriminate].
  cbn [mbind result_bind] in H.
  destruct (np_index Qt s) as [row|]; [|discriminate].
  cbn [mbind result_bind] in H.
  destruct (np_index row a) as [q|]; [|discriminate].
  cbn [mbind result_bind] in H.
  destruct (np_pos (length Qt) s) as [i|] eqn:Ei; [|discriminate].
  cbn [mbind result_bind] in H.
  destruct (np_pos (length row) a) as [j|]; [|discriminate].
  cbn [mbind result_bind] in H. injection H as <-.
  apply np_pos_nonneg in Ei; [|assumption]. subst i.
  apply list_lookup_insert_ne. congruence.
Qed.

Lemma zeros_zero_outside d ns na Qt :
  np_zeros ns na = Ok Qt -> zero_outside d na Qt.
Proof.
  unfold np_zeros. destruct (_ || _); [discriminate|]. intros [= <-].
  intros s row _ Hrow _. apply lookup_replicate in Hrow as [-> _].
  reflexivity.
Qed.

Lemma reward_within_0 x : reward_within 0 (x - x)%Q.
Proof. unfold reward_within. change (inject_Z 0) with 0%Q. lra. Qed.

Lemma reward_within_step k x y r :
  r = 1%Q \/ r = (-1)%Q ->
  reward_within k (y - (x + r))%Q -> reward_within (k + 1) (y - x)%Q.
Proof.
  unfold reward_within. rewrite inject_Z_plus.
  change (inject_Z 1) with 1%Q. intros [-> | ->] [H1 H2]; lra.
Qed.

Section Walk.

Variables (d : DataFrame) (ns na : Z) (alpha gamma : Q).
Hypothesis Hns : 27 <= ns.
Hypothesis Hna : 1 <= na.

(** One pass of the inner loop, with the reward it adds. *)
Lemma train_iteration_walk epsilon st t :
  walk_inv d ns na t st -> ts_done st = false ->
  exists st' reward,
    train_iteration na alpha gamma epsilon st = Ok st'
    /\ walk_inv d ns na (t + 1) st'
    /\ (reward = 1%Q \/ reward = (-1)%Q)
    /\ ts_total_reward st' = (ts_total_reward st + reward)%Q.
Proof.
  intros (Hinv & Hidx & Hdone & (row_t & Hrow & Hstate) & Hshape & Hzero) Hnd.
  rewrite Hnd in Hdone. symmetry in Hdone. apply Z.leb_gt in Hdone.
  pose proof (row_state_range row_t) as Hrt.
  assert (Hact : exists action g,
    (if Qlt_bool (rand_tape (ts_rng st) (cursor (ts_rng st))) epsilon
     then np_random_randint na (advance (ts_rng st))
     else row ← np_index (ts_Q st) (ts_state st);
          a ← np_argmax row; Ok (a, advance (ts_rng st)))
    = Ok (action, g) /\ 0 <= action < na).
  { destruct (Qlt_bool _ epsilon).
    - unfold np_random_randint.
      destruct (Z.leb_spec na 0); [lia|].
      do 2 eexists. split; [reflexivity|].
      apply Z.mod_pos_bound. lia.
    - destruct (table_row_ok _ ns na (ts_state st) Hshape)
        as (row & _ & Hqrow & Hlen); [lia|].
      destruct (np_argmax_ok row) as (a & Ha & Hrange); [lia|].
      rewrite Hqrow. cbn [mbind result_bind]. rewrite Ha.
      cbn [mbind result_bind]. do 2 eexists.
      split; [reflexivity|lia]. }
  destruct Hact as (action & g & Hact & Harange).
  destruct (step_active d _ t Hinv Hidx) as (rt & rn & Hrt' & Hrn & Hstep);
    [lia|].
  set (reward := if action =? true_action_id (direction rn)
                 then 1%Q else (-1)%Q).
  pose proof (row_state_range rn) as Hrnr.
  destruct (q_update_ok alpha gamma (ts_Q st) (ts_state st) action reward
              (row_state rn) ns na Hshape) as (Qt' & Hupd); try lia.
  pose proof (q_update_shape alpha gamma _ _ _ _ _ _ ns na Hshape Hupd)
    as Hshape'.
  exists {| ts_env := set_current_idx (ts_env st) (t + 1); ts_Q := Qt';
            ts_state := row_state rn;
            ts_done := (df_len d - 1 <=? t + 1);
            ts_total_reward := (ts_total_reward st + reward)%Q;
            ts_rng := g |}, reward.
  split.
  { unfold train_iteration, np_random_rand.
    rewrite Hact. cbn [mbind result_bind]. rewrite Hstep.
    cbn [mbind result_bind]. fold reward. rewrite Hupd. reflexivity. }
  split.
  { pose proof Hinv as (_ & _ & _ & Hi). rewrite Hidx in Hi.
    unfold walk_inv. cbn.
    split; [apply env_inv_set_idx; [assumption|lia|lia]|].
    split; [reflexivity|]. split; [reflexivity|].
    split; [exists rn; split; [assumption | reflexivity]|].
    split; [assumption|].
    intros s row Hs Hlook Hnv.
    assert (Hne : Z.to_nat s <> Z.to_nat (ts_state st)).
    { intros E. apply Hnv. exists t, row_t.
      split; [lia|]. split; [assumption|]. lia. }
    rewrite (q_update_other_rows _ _ _ _ _ _ _ _ _ Hupd ltac:(lia) Hne)
      in Hlook.
    exact (Hzero s row Hs Hlook Hnv). }
  split; [unfold reward; destruct (action =? _); auto | reflexivity].
Qed.

(** The inner loop from pointer [t]: it never raises, it ends on the last
    row when given the passes for it, and the reward it adds is at most
    the number of rows it crossed, in absolute value. *)
Lemma train_loop_walk epsilon (fuel : nat) : forall st t,
  walk_inv d ns na t st ->
  exists st' t',
    train_loop fuel na alpha gamma epsilon st = Ok st'
    /\ walk_inv d ns na t' st'
    /\ t <= t'
    /\ reward_within (t' - t)
         (ts_total_reward st' - ts_total_reward st)%Q
    /\ (df_len d - 1 - t <= Z.of_nat fuel -> ts_done st' = true).
Proof.
  induction fuel as [|fuel IH]; intros st t Hinv;
    pose proof Hinv as (_ & _ & Hdone & _);
    destruct (ts_done st) eqn:Hd.
  - exists st, t. cbn [train_loop]. rewrite Hd.
    split; [reflexivity|]. split; [assumption|]. split; [lia|].
    split; [rewrite Z.sub_diag; apply reward_within_0 | auto].
  - exists st, t. cbn [train_loop]. rewrite Hd.
    split; [reflexivity|]. split; [assumption|]. split; [lia|].
    split; [rewrite Z.sub_diag; apply reward_within_0|].
    symmetry in Hdone. apply Z.leb_gt in Hdone. lia.
  - exists st, t. cbn [train_loop]. rewrite Hd.
    split; [reflexivity|]. split; [assumption|]. split; [lia|].
    split; [rewrite Z.sub_diag; apply reward_within_0 | auto].
  - destruct (train_iteration_walk epsilon st t Hinv Hd)
      as (st1 & r & Hit & Hinv1 & Hr & Htot).
    destruct (IH st1 (t + 1) Hinv1)
      as (st' & t' & Hloop & Hinv' & Hle & Hrew & Hfin).
    exists st', t'. cbn [train_loop]. rewrite Hd, Hit.
    cbn [mbind result_bind].
    split; [assumption|]. split; [assumption|]. split; [lia|].
    split; [|intros Hf; apply Hfin; lia].
    rewrite Htot in Hrew.
    replace (t' - t) with ((t' - (t + 1)) + 1) by lia.
    now apply (reward_within_step _ _ _ r).
Qed.

End Walk.

Section Episodes.

Variables (d : DataFrame) (ns na : Z) (alpha gamma : Q).
Variables (epsilon_start epsilon_end epsilon_decay : Q).
Hypothesis Hrows : 2 <= df_len d.
Hypothesis Hns : 27 <= ns.
Hypothesis Hna : 1 <= na.

Lemma train_episode_walk (fuel : nat) ep tr :
  df_len d - 1 <= Z.of_nat fuel -> walked_inv d ns na tr ->
  0 <= ep -> (Qabs (round64 (epsilon_decay ^ ep)) < 2 ^ 1024)%Q ->
  exists tr',
    train_episode na alpha gamma epsilon_start epsilon_end epsilon_decay
      fuel ep tr = Ok (Some tr')
    /\ walked_inv d ns na tr'
    /\ length (tr_episode_rewards tr') = S (length (tr_episode_rewards tr))
    /\ current_idx (tr_env tr') = Some (df_len d - 1).
Proof.
  intros Hfuel (Hinv & Hshape & Hzero & Hrew) Hep Hfin0.
  destruct (reset_ok d _ Hinv Hrows) as (r0 & Hr0 & Hreset).
  pose proof (epsilon_of_ok epsilon_start epsilon_end epsilon_decay ep
                Hep Hfin0) as Heps.
  destruct (train_loop_walk d ns na alpha gamma Hns Hna
              (py_max epsilon_end
                 (round64 (epsilon_start * round64 (epsilon_decay ^ ep))))
              fuel
              {| ts_env := set_current_idx (tr_env tr) 0; ts_Q := tr_Q tr;
                 ts_state := row_state r0; ts_done := false;
                 ts_total_reward := 0%Q; ts_rng := tr_rng tr |} 0)
    as (st & t & Hloop & Hinv' & Hle & Hr & Hfin).
  { unfold walk_inv. cbn.
    split; [apply env_inv_set_idx; [assumption|lia|lia]|].
    split; [reflexivity|].
    split; [symmetry; apply Z.leb_gt; lia|].
    split; [exists r0; split; [assumption | reflexivity]|].
    split; assumption. }
  specialize (Hfin ltac:(lia)).
  destruct Hinv' as (He & Hidx & Hdone & _ & Hshape' & Hzero').
  rewrite Hfin in Hdone. symmetry in Hdone. apply Z.leb_le in Hdone.
  pose proof He as (_ & _ & _ & Hi). rewrite Hidx in Hi.
  assert (t = df_len d - 1) as -> by lia.
  unfold train_episode. rewrite Hreset. cbn [mbind result_bind].
  rewrite Heps. cbn [mbind result_bind].
  rewrite Hloop. cbn [mbind result_bind]. rewrite Hfin.
  eexists. split; [reflexivity|]. cbn.
  split.
  { split; [assumption|]. split; [assumption|]. split; [assumption|].
    apply Forall_app. split; [assumption|].
    constructor; [|constructor].
    cbn [ts_total_reward] in Hr. unfold reward_within in *.
    rewrite Z.sub_0_r in Hr. lra. }
  split; [rewrite length_app; cbn; lia | assumption].
Qed.

Lemma train_episodes_walk (fuel : nat) eps : forall tr,
  df_len d - 1 <= Z.of_nat fuel -> walked_inv d ns na tr ->
  Forall (fun ep => 0 <= ep
            /\ (Qabs (round64 (epsilon_decay ^ ep)) < 2 ^ 1024)%Q) eps ->
  exists tr',
    train_episodes na alpha gamma epsilon_start epsilon_end epsilon_decay
      fuel eps tr = Ok (Some tr')
    /\ walked_inv d ns na tr'
    /\ length (tr_episode_rewards tr')
       = (length (tr_episode_rewards tr) + length eps)%nat
    /\ (eps <> [] -> current_idx (tr_env tr') = Some (df_len d - 1)).
Proof.
  induction eps as [|ep eps IH]; intros tr Hfuel Htr Hsched;
    cbn [train_episodes].
  - exists tr. cbn. split; [reflexivity|]. split; [assumption|].
    split; [lia | congruence].
  - apply Forall_cons in Hsched as [[Hep0 Hfin0] Hsched].
    destruct (train_episode_walk fuel ep tr Hfuel Htr Hep0 Hfin0)
      as (tr1 & Hep & Htr1 & Hlen1 & Hidx1).
    rewrite Hep. cbn [mbind result_bind].
    destruct (IH tr1 Hfuel Htr1 Hsched)
      as (tr' & Heps & Htr' & Hlen' & Hidx').
    exists tr'. split; [assumption|]. split; [assumption|].
    split; [cbn [length]; lia|]. intros _.
    destruct eps as [|ep' eps']; [|apply Hidx'; congruence].
    cbn in Heps. injection Heps as <-. assumption.
Qed.

(** Training from the zero table, whatever the learning rate, the
    discount and the random draws, under a schedule whose float power
    stays finite. *)
Lemma train_q_learning_walk (fuel : nat) e episodes g :
  reachable d e -> df_len d - 1 <= Z.of_nat fuel ->
  schedule_finite epsilon_decay episodes ->
  exists tr,
    train_q_learning ns na alpha gamma epsilon_start epsilon_end
      epsilon_decay fuel e episodes g = Ok (Some tr)
    /\ walked_inv d ns na tr
    /\ Z.of_nat (length (tr_episode_rewards tr)) = Z.max 0 episodes
    /\ (1 <= episodes -> current_idx (tr_env tr) = Some (df_len d - 1)).
Proof.
  intros Hreach Hfuel Hsched.
  destruct (np_zeros ns na) as [Q0|] eqn:Ez.
  2:{ unfold np_zeros in Ez.
      destruct (Z.ltb_spec ns 0); [lia|].
      destruct (Z.ltb_spec na 0); [lia|]. discriminate. }
  destruct (bounded_zeros 0 ns na Q0) as (_ & _ & Hshape0);
    [lra | assumption |].
  destruct (train_episodes_walk fuel (seqZ 0 episodes)
              {| tr_Q := Q0; tr_episode_rewards := []; tr_env := e;
                 tr_rng := g |} Hfuel)
    as (tr & Htrain & Htr & Hlen & Hidx).
  { split; [now apply reachable_inv|]. split; [assumption|].
    split; [eapply zeros_zero_outside; eassumption | constructor]. }
  { apply schedule_finite_seqZ, Hsched. }
  exists tr. split.
  { unfold train_q_learning. rewrite Ez. exact Htrain. }
  split; [assumption|].
  split; [rewrite Hlen; cbn [tr_episode_rewards length];
          rewrite length_seqZ; lia|].
  intros Hep. apply Hidx. intros E.
  apply (f_equal length) in E. rewrite length_seqZ in E. cbn in E. lia.
Qed.

End Episodes.

(** Training returns, for every learning rate, discount and sequence of
    random draws, and every exploration schedule whose float power
    [epsilon_decay ** ep] stays finite over the episodes: the table has
    the requested shape, there is one total reward per episode, each
    between [-(n-1)] and [n-1], and after at least one episode the
    environment is left with its pointer on the last row. *)
Theorem training_shape_and_rewards d e ns na alpha gamma
    epsilon_start epsilon_end epsilon_decay (fuel : nat) episodes g :
  reachable d e -> 2 <= df_len d -> 27 <= ns -> 1 <= na ->
  df_len d - 1 <= Z.of_nat fuel ->
  schedule_finite epsilon_decay episodes ->
  exists tr,
    train_q_learning ns na alpha gamma epsilon_start epsilon_end
      epsilon_decay fuel e episodes g = Ok (Some tr)
    /\ table_shape (tr_Q tr) ns na
    /\ Z.of_nat (length (tr_episode_rewards tr)) = Z.max 0 episodes
    /\ Forall (fun r => (- inject_Z (df_len d - 1) <= r)%Q
                        /\ (r <= inject_Z (df_len d - 1))%Q)
         (tr_episode_rewards tr)
    /\ (1 <= episodes -> current_idx (tr_env tr) = Some (df_len d - 1)).
Proof.
  intros Hreach Hrows Hns Hna Hfuel Hsched.
  destruct (train_q_learning_walk d ns na alpha gamma epsilon_start
              epsilon_end epsilon_decay Hrows Hns Hna fuel e episodes g
              Hreach Hfuel Hsched)
    as (tr & Htrain & (_ & Hshape & _ & Hrew) & Hlen & Hidx).
  exists tr. split; [assumption|]. split; [assumption|].
  split; [assumption|]. split; [exact Hrew | assumption].
Qed.

Lemma training_shape_and_rewards_witness :
  exists tr,
    train_q_learning 27 3 0.5 2 1 0.125 0.5 2 (init flat_up_down) 3
      sample_rng = Ok (Some tr)
    /\ table_shape (tr_Q tr) 27 3
    /\ Z.of_nat (length (tr_episode_rewards tr)) = Z.max 0 3
    /\ Forall (fun r => (- inject_Z (df_len flat_up_down - 1) <= r)%Q
                        /\ (r <= inject_Z (df_len flat_up_down - 1))%Q)
         (tr_episode_rewards tr)
    /\ (1 <= 3 ->
        current_idx (tr_env tr) = Some (df_len flat_up_down - 1)).
Proof.
  apply (training_shape_and_rewards flat_up_down (init flat_up_down) 27 3
           0.5%Q 2%Q 1%Q 0.125%Q 0.5%Q 2%nat 3 sample_rng).
  - apply reach_init.
  - vm_compute. discriminate.
  - lia.
  - lia.
  - vm_compute. discriminate.
  - apply schedule_finite_decay; vm_compute; discriminate.
Defined.

(** Training only writes the rows of visited states: under a schedule
    whose float power stays finite over the episodes it returns, and every
    entry of the returned table in the row of a state that no row 0..n-2
    of the feature table encodes to is still zero. *)
Theorem training_leaves_unvisited_zero d e ns na alpha gamma
    epsilon_start epsilon_end epsilon_decay (fuel : nat) episodes g :
  reachable d e -> 2 <= df_len d -> 27 <= ns -> 1 <= na ->
  df_len d - 1 <= Z.of_nat fuel ->
  schedule_finite epsilon_decay episodes ->
  exists tr,
    train_q_learning ns na alpha gamma epsilon_start epsilon_end
      epsilon_decay fuel e episodes g = Ok (Some tr)
    /\ forall s a,
         0 <= s < ns -> 0 <= a < na -> ~ visited d s ->
         np_get2 (tr_Q tr) s a = Ok 0%Q.
Proof.
  intros Hreach Hrows Hns Hna Hfuel Hsched.
  destruct (train_q_learning_walk d ns na alpha gamma epsilon_start
              epsilon_end epsilon_decay Hrows Hns Hna fuel e episodes g
              Hreach Hfuel Hsched)
    as (tr & Htrain & (_ & Hshape & Hzero & _) & _).
  exists tr. split; [assumption|].
  intros s a Hs Ha Hnv.
  destruct (table_row_ok _ ns na s Hshape Hs) as (row & Hlook & Hidx & Hlen).
  pose proof (Hzero s row ltac:(lia) Hlook Hnv) as ->.
  unfold np_get2. rewrite Hidx. cbn [mbind result_bind].
  destruct (np_index_ok (replicate (Z.to_nat na) 0%Q) a) as (x & Hx & ->).
  { rewrite length_replicate. lia. }
  apply lookup_replicate in Hx as [-> _]. reflexivity.
Qed.

Lemma training_leaves_unvisited_zero_witness :
  exists tr,
    train_q_learning 27 3 0.125 0.875 1 0.125 0.5 2 (init flat_up_down) 3
      sample_rng = Ok (Some tr)
    /\ forall s a,
         0 <= s < 27 -> 0 <= a < 3 -> ~ visited flat_up_down s ->
         np_get2 (tr_Q tr) s a = Ok 0%Q.
Proof.
  apply (training_leaves_unvisited_zero flat_up_down (init flat_up_down)
           27 3 0.125%Q 0.875%Q 1%Q 0.125%Q 0.5%Q 2%nat 3 sample_rng).
  - apply reach_init.
  - vm_compute. discriminate.
  - lia.
  - lia.
  - vm_compute. discriminate.
  - apply schedule_finite_decay; vm_compute; discriminate.
Defined.

Lemma train_episodes_app na alpha gamma es ee ed (fuel : nat) l1 l2 :
  forall tr,
  train_episodes na alpha gamma es ee ed fuel (l1 ++ l2) tr
  = r ← train_episodes na alpha gamma es ee ed fuel l1 tr;
    match r with
    | Some tr' => train_episodes na alpha gamma es ee ed fuel l2 tr'
    | None => Ok None
    end.
Proof.
  induction l1 as [|ep l1 IH]; intros tr; [reflexivity|].
  cbn [app train_episodes].
  destruct (train_episode na alpha gamma es ee ed fuel ep tr)
    as [[tr1|]|]; cbn [mbind result_bind]; [apply IH | reflexivity..].
Qed.

(** Powers of two up to [2^1023] are floats. *)
Lemma float64_pow2 (k : Z) : 0 <= k -> float64 (2 ^ k)%Q.
Proof.
  intros Hk. unfold float64.
  assert (E : (2 ^ k == inject_Z 1 * 2 ^ k)%Q)
    by (change (inject_Z 1) with 1%Q; ring).
  rewrite E. rewrite round64_pos.
  - apply round_magnitude_fix; lia.
  - rewrite <- E. apply Qlt_le_weak, pow2_pos.
Qed.

(** The exploration schedule is not checked: at the first episode [k]
    whose float power [epsilon_decay ** k] overflows, after [k] complete
    episodes, training raises [OverflowError]. *)
Theorem training_raises_on_overflow d e ns na alpha gamma
    epsilon_start epsilon_end epsilon_decay (fuel : nat) episodes g k :
  reachable d e -> 2 <= df_len d -> 27 <= ns -> 1 <= na ->
  df_len d - 1 <= Z.of_nat fuel -> 0 <= k < episodes ->
  schedule_finite epsilon_decay k ->
  (2 ^ 1024 <= Qabs (round64 (epsilon_decay ^ k)))%Q ->
  train_q_learning ns na alpha gamma epsilon_start epsilon_end
    epsilon_decay fuel e episodes g = Raise OverflowError.
Proof.
  intros Hreach Hrows Hns Hna Hfuel Hk Hsched Hover.
  destruct (np_zeros ns na) as [Q0|] eqn:Ez.
  2:{ unfold np_zeros in Ez.
      destruct (Z.ltb_spec ns 0); [lia|].
      destruct (Z.ltb_spec na 0); [lia|]. discriminate. }
  destruct (bounded_zeros 0 ns na Q0) as (_ & _ & Hshape0);
    [lra | assumption |].
  destruct (train_episodes_walk d ns na alpha gamma epsilon_start
              epsilon_end epsilon_decay Hrows Hns Hna fuel (seqZ 0 k)
              {| tr_Q := Q0; tr_episode_rewards := []; tr_env := e;
                 tr_rng := g |} Hfuel)
    as (tr & Htrain & (Hinv & _) & _).
  { split; [now apply reachable_inv|]. split; [assumption|].
    split; [eapply zeros_zero_outside; eassumption | constructor]. }
  { apply schedule_finite_seqZ, Hsched. }
  destruct (reset_ok d _ Hinv Hrows) as (r0 & _ & Hreset).
  unfold train_q_learning. rewrite Ez. cbn [mbind result_bind].
  replace episodes with (k + (episodes - k)) by lia.
  rewrite seqZ_app by lia. rewrite Z.add_0_l.
  rewrite train_episodes_app, Htrain. cbn [mbind result_bind].
  rewrite seqZ_cons by lia. cbn [train_episodes].
  unfold train_episode. rewrite Hreset. cbn [mbind result_bind].
  rewrite epsilon_of_overflow by (assumption || lia). reflexivity.
Qed.

Lemma training_raises_on_overflow_witness :
  train_q_learning 27 3 0.5 0.5 1 0.125 2 2 (init flat_up_down) 1025
    sample_rng = Raise OverflowError.
Proof.
  apply (training_raises_on_overflow flat_up_down (init flat_up_down) 27 3
           0.5%Q 0.5%Q 1%Q 0.125%Q 2%Q 2%nat 1025 sample_rng 1024).
  - apply reach_init.
  - vm_compute. discriminate.
  - lia.
  - lia.
  - vm_compute. discriminate.
  - lia.
  - intros ep Hep.
    pose proof (float64_pow2 ep ltac:(lia)) as E. unfold float64 in E.
    rewrite E, Qabs_pos by apply Qlt_le_weak, pow2_pos.
    apply pow2_lt. lia.
  - vm_compute. discriminate.
Defined.

Lemma np_zeros_ok ns na :
  0 <= ns -> 0 <= na ->
  np_zeros ns na
  = Ok (replicate (Z.to_nat ns) (replicate (Z.to_nat na) 0%Q)).
Proof.
  intros Hns Hna. unfold np_zeros.
  destruct (Z.ltb_spec ns 0); [lia|].
  destruct (Z.ltb_spec na 0); [lia|]. reflexivity.
Qed.

(** With no episode to run (a count of zero or below) the learner returns
    the zero table and no reward, and leaves the environment and the
    random source alone: it does not even call [reset], so it succeeds on
    any table. *)
Theorem training_without_episodes ns na alpha gamma
    epsilon_start epsilon_end epsilon_decay (fuel : nat) e episodes g :
  0 <= ns -> 0 <= na -> episodes <= 0 ->
  train_q_learning ns na alpha gamma epsilon_start epsilon_end
    epsilon_decay fuel e episodes g
  = Ok (Some {| tr_Q := replicate (Z.to_nat ns)
                          (replicate (Z.to_nat na) 0%Q);
                tr_episode_rewards := []; tr_env := e; tr_rng := g |}).
Proof.
  intros Hns Hna Hep. unfold train_q_learning.
  rewrite np_zeros_ok by assumption.
  cbn [mbind result_bind]. rewrite seqZ_nil by lia. reflexivity.
Qed.

Lemma training_without_episodes_witness :
  train_q_learning 27 3 0.1 0.9 1 0.1 0.99 5 (init single_row_table) (-2)
    sample_rng
  = Ok (Some {| tr_Q := replicate (Z.to_nat 27)
                          (replicate (Z.to_nat 3) 0%Q);
                tr_episode_rewards := [];
                tr_env := init single_row_table;
                tr_rng := sample_rng |}).
Proof.
  apply (training_without_episodes 27 3 0.1%Q 0.9%Q 1%Q 0.1%Q 0.99%Q 5%nat
           (init single_row_table) (-2) sample_rng); lia.
Defined.

(** On a table with fewer than two rows the learner does not reject the
    environment up front: its first episode fails with the [ValueError]
    of [reset], for every positive number of episodes. *)
Theorem training_fails_on_short_table d e ns na alpha gamma
    epsilon_start epsilon_end epsilon_decay (fuel : nat) episodes g :
  reachable d e -> df_len d < 2 -> 0 <= ns -> 0 <= na -> 1 <= episodes ->
  train_q_learning ns na alpha gamma epsilon_start epsilon_end
    epsilon_decay fuel e episodes g = Raise ValueError.
Proof.
  intros Hreach Hshort Hns Hna Hep. unfold train_q_learning.
  rewrite np_zeros_ok by assumption.
  cbn [mbind result_bind]. rewrite seqZ_cons by lia.
  cbn [train_episodes]. unfold train_episode. cbn [tr_env].
  rewrite (reset_small d e (reachable_inv d e Hreach) Hshort).
  reflexivity.
Qed.

Lemma training_fails_on_short_table_witness :
  train_q_learning 27 3 0.1 0.9 1 0.1 0.99 5 (init single_row_table) 2
    sample_rng = Raise ValueError.
Proof.
  apply (training_fails_on_short_table single_row_table
           (init single_row_table) 27 3 0.1%Q 0.9%Q 1%Q 0.1%Q 0.99%Q 5%nat 2
           sample_rng).
  - apply reach_init.
  - vm_compute. reflexivity.
  - lia.
  - lia.
  - lia.
Defined.

(** On the three-row example only states 13 and 22 are visited. *)
Example flat_up_down_not_visited_4 : ~ visited flat_up_down 4.
Proof.
  intros (i & row & Hi & Hloc & Hs).
  change (df_len flat_up_down) with 3 in Hi.
  assert (i = 0 \/ i = 1) as [-> | ->] by lia;
    injection Hloc as <-; discriminate Hs.
Qed.

End TrainingExtra.

(** * Further properties of the forecasts and of the training wrapper *)

Module ApiExtra.

Import Binary64 StateEncoder Environment Numpy QLearning Api Vocabulary.
Import StateEncoderFacts EnvironmentFacts QLearningFacts ApiFacts.
Import EnvironmentExtra GreedyExtra TrainingExtra.
Local Open Scope Z_scope.

Lemma dict_get_Some {V} (m : gmap Z V) k v :
  dict_get m k = Ok v -> m !! k = Some v.
Proof.
  unfold dict_get. destruct (m !! k); [now intros [= ->] | discriminate].
Qed.

(** The forecast on a non-empty table, with the chain of its records. *)
Lemma simulate_future_12months_chain Period_parse Period_strftime
    state_df Qt last_row :
  last (rows state_df) = Some last_row -> table_shape Qt 27 3 ->
  Period_parse (ym last_row) <> Some Period.NaT ->
  exists recs,
    simulate_future_12months Period_parse Period_strftime state_df Qt
    = Ok recs
    /\ length recs = 12%nat
    /\ scenario_chain Qt (rate_level last_row) (pop_trend last_row)
         (direction last_row) (mean_price last_row) recs
    /\ Forall (record_ok (up_mean_of state_df) (flat_mean_of state_df)
                 (down_mean_of state_df)) recs
    /\ (Period_parse (ym last_row) = None ->
        sr_ym <$> recs = fallback_label <$> seqZ 1 12)
    /\ (forall p, Period_parse (ym last_row) = Some (Period.Month p) ->
        sr_ym <$> recs = labels_after Period_strftime p 12).
Proof.
  intros Hlast Hshape Hper.
  destruct (simulate_future_12months_spec Period_parse Period_strftime
              state_df Qt last_row Hlast Hshape Hper)
    as (recs & Hrun & Hsteps & Hok & Hym & Hfb & Hchain).
  exists recs. split; [assumption|].
  split; [rewrite <- (length_fmap sr_step), Hsteps; reflexivity|].
  split; [assumption|]. split; [assumption|]. split; assumption.
Qed.

(** When the parser raises on the last period label the forecast still
    returns 12 records, labelled "+1개월" to "+12개월". *)
Theorem forecast_labels_fall_back Period_parse Period_strftime
    state_df Qt last_row :
  last (rows state_df) = Some last_row -> table_shape Qt 27 3 ->
  Period_parse (ym last_row) = None ->
  exists recs,
    simulate_future_12months Period_parse Period_strftime state_df Qt
    = Ok recs
    /\ length recs = 12%nat
    /\ sr_ym <$> recs
       = (fun step => "+" +:+ pretty step +:+ "개월") <$> seqZ 1 12.
Proof.
  intros Hlast Hshape Hnone.
  destruct (simulate_future_12months_chain Period_parse Period_strftime
              state_df Qt last_row Hlast Hshape)
    as (recs & Hrun & Hlen & _ & _ & Hym & _).
  { rewrite Hnone. discriminate. }
  exists recs. split; [assumption|]. split; [assumption|].
  now apply Hym.
Qed.

Lemma forecast_labels_fall_back_witness :
  exists recs,
    simulate_future_12months Period.parse_YYYY_MM Period.format_YYYY_MM
      odd_label_table zero_table = Ok recs
    /\ length recs = 12%nat
    /\ sr_ym <$> recs
       = (fun step => "+" +:+ pretty step +:+ "개월") <$> seqZ 1 12.
Proof.
  apply (forecast_labels_fall_back Period.parse_YYYY_MM
           Period.format_YYYY_MM odd_label_table zero_table
           (mkRow "2024 Q4" (Fin 103) NaN 1 1 1)).
  - reflexivity.
  - apply zero_table_shape.
  - reflexivity.
Defined.

(** The records of a forecast follow from one another, when the parser
    does not return the missing value on the last label: the first action
    is the greedy one for the state of the last row, each later action
    the greedy one for the state made of the direction predicted just
    before and the macro levels of the last row; each price is the price
    before it times one plus the applied return, starting from the last
    mean price. *)
Theorem forecast_records_chain Period_parse Period_strftime
    state_df Qt last_row :
  last (rows state_df) = Some last_row -> table_shape Qt 27 3 ->
  Period_parse (ym last_row) <> Some Period.NaT ->
  exists recs,
    simulate_future_12months Period_parse Period_strftime state_df Qt
    = Ok recs
    /\ scenario_chain Qt (rate_level last_row) (pop_trend last_row)
         (direction last_row) (mean_price last_row) recs.
Proof.
  intros Hlast Hshape Hper.
  destruct (simulate_future_12months_chain Period_parse Period_strftime
              state_df Qt last_row Hlast Hshape Hper)
    as (recs & Hrun & _ & Hchain & _).
  exists recs. split; assumption.
Qed.

Lemma forecast_records_chain_witness :
  exists recs,
    simulate_future_12months Period.parse_YYYY_MM Period.format_YYYY_MM
      no_down_table zero_table = Ok recs
    /\ scenario_chain zero_table 2 0 1 (Fin 105) recs.
Proof.
  apply (forecast_records_chain Period.parse_YYYY_MM Period.format_YYYY_MM
           no_down_table zero_table
           (mkRow "2024-12" (Fin 105) (Fin 0.0194) 1 2 0)).
  - reflexivity.
  - apply zero_table_shape.
  - vm_compute. discriminate.
Defined.

Lemma scenario_chain_fixed Qt rl pt dir : forall recs price r,
  scenario_chain Qt rl pt dir price (r :: recs) ->
  predicted_direction r = dir ->
  Forall (fun r' => predicted_direction r' = dir) recs.
Proof.
  induction recs as [|r2 recs IH]; intros price r Hchain Hr; [constructor|].
  cbn [scenario_chain] in Hchain.
  destruct Hchain as (Ha & _ & _ & _ & Ha2 & Hl2 & Hal2 & Hp2 & Hrest).
  rewrite Hr in Ha2. rewrite Ha in Ha2.
  assert (Hr2 : predicted_direction r2 = dir) by (injection Ha2; lia).
  constructor; [assumption|].
  apply (IH (scenario_price r) r2); [|assumption].
  cbn [scenario_chain]. rewrite Hr2.
  rewrite Hr2 in Hl2, Hal2, Hrest.
  split; [rewrite <- Hr at 2; exact Ha|].
  split; [assumption|]. split; [assumption|].
  split; [exact Hp2 | exact Hrest].
Qed.

Lemma scenario_chain_drop Qt rl pt : forall recs (i : nat) dir price r,
  scenario_chain Qt rl pt dir price recs -> recs !! i = Some r ->
  scenario_chain Qt rl pt (predicted_direction r) (scenario_price r)
    (drop (S i) recs).
Proof.
  induction recs as [|r0 recs IH]; intros i dir price r Hchain Hi;
    [discriminate|].
  cbn [scenario_chain] in Hchain.
  destruct Hchain as (_ & _ & _ & _ & Hrest).
  destruct i as [|i]; cbn in Hi.
  - injection Hi as <-. exact Hrest.
  - cbn [drop]. eapply IH; eassumption.
Qed.

(** The scenario locks in, when the parser does not return the missing
    value on the last label: as soon as a step predicts the direction it
    started from (the direction of the step before, or of the last row for
    the first step), every later step predicts that direction too and
    applies the same return. *)
Theorem forecast_direction_locks_in Period_parse Period_strftime
    state_df Qt last_row :
  last (rows state_df) = Some last_row -> table_shape Qt 27 3 ->
  Period_parse (ym last_row) <> Some Period.NaT ->
  exists recs,
    simulate_future_12months Period_parse Period_strftime state_df Qt
    = Ok recs
    /\ (forall r0,
          recs !! 0%nat = Some r0 ->
          predicted_direction r0 = direction last_row ->
          Forall (fun r => predicted_direction r = direction last_row
                           /\ applied_return r = applied_return r0) recs)
    /\ (forall (i : nat) r1 r2,
          recs !! i = Some r1 -> recs !! S i = Some r2 ->
          predicted_direction r2 = predicted_direction r1 ->
          Forall (fun r => predicted_direction r = predicted_direction r1
                           /\ applied_return r = applied_return r1)
            (drop i recs)).
Proof.
  intros Hlast Hshape Hper.
  destruct (simulate_future_12months_chain Period_parse Period_strftime
              state_df Qt last_row Hlast Hshape Hper)
    as (recs & Hrun & _ & Hchain & Hok & _).
  exists recs. split; [assumption|].
  assert (Hsame : forall dir r1 l,
            Forall (record_ok (up_mean_of state_df) (flat_mean_of state_df)
                      (down_mean_of state_df)) (r1 :: l) ->
            predicted_direction r1 = dir ->
            Forall (fun r' => predicted_direction r' = dir) l ->
            Forall (fun r => predicted_direction r = dir
                             /\ applied_return r = applied_return r1)
              (r1 :: l)).
  { intros dir r1 l Hrec Hr1 Hall.
    apply Forall_cons in Hrec as [[_ Hret1] Hrecl].
    constructor; [split; [assumption | reflexivity]|].
    rewrite Forall_forall in Hall, Hrecl. apply Forall_forall.
    intros r Hr. split; [now apply Hall|].
    destruct (Hrecl r Hr) as [_ ->]. rewrite Hret1.
    now rewrite (Hall r Hr), Hr1. }
  split.
  - intros r0 H0 Hr0.
    destruct recs as [|r recs']; [discriminate|].
    injection H0 as ->.
    apply Hsame; [assumption | assumption |].
    eapply scenario_chain_fixed; eassumption.
  - intros i r1 r2 H1 H2 H12.
    pose proof (scenario_chain_drop _ _ _ _ _ _ _ _ Hchain H1) as Hdrop.
    rewrite (drop_S _ _ _ H1).
    apply Hsame; [|reflexivity|].
    + rewrite <- (drop_S _ _ _ H1). now apply Forall_drop.
    + rewrite (drop_S _ _ _ H2).
      constructor; [assumption|].
      rewrite (drop_S _ _ _ H2) in Hdrop.
      eapply scenario_chain_fixed; eassumption.
Qed.

Lemma forecast_direction_locks_in_witness :
  exists recs,
    simulate_future_12months Period.parse_YYYY_MM Period.format_YYYY_MM
      flat_up_down zero_table = Ok recs
    /\ (forall r0,
          recs !! 0%nat = Some r0 ->
          predicted_direction r0 = direction (mkRow "2024-03" (Fin 100)
                                     (Fin (-0.0196)) (-1) 1 0) ->
          Forall (fun r => predicted_direction r
                           = direction (mkRow "2024-03" (Fin 100)
                                          (Fin (-0.0196)) (-1) 1 0)
                           /\ applied_return r = applied_return r0) recs)
    /\ (forall (i : nat) r1 r2,
          recs !! i = Some r1 -> recs !! S i = Some r2 ->
          predicted_direction r2 = predicted_direction r1 ->
          Forall (fun r => predicted_direction r = predicted_direction r1
                           /\ applied_return r = applied_return r1)
            (drop i recs)).
Proof.
  apply (forecast_direction_locks_in Period.parse_YYYY_MM
           Period.format_YYYY_MM flat_up_down zero_table
           (mkRow "2024-03" (Fin 100) (Fin (-0.0196)) (-1) 1 0)).
  - reflexivity.
  - apply zero_table_shape.
  - vm_compute. discriminate.
Defined.

Lemma label_list_matches_map a dlabel :
  0 <= a < 3 -> direction_label_map !! (a - 1) = Some dlabel ->
  np_index ["하락"; "보합"; "상승"] a = Ok dlabel.
Proof.
  intros Ha. assert (a = 0 \/ a = 1 \/ a = 2) as [-> | [-> | ->]] by lia;
    intros [= <-]; reflexivity.
Qed.

(** The one-month prediction on a non-empty table: it does not raise,
    whatever the parser does, and names its target month from the parsed
    period or, when the parser raised or returned the missing value, as
    "다음 달". *)
Lemma predict_next_month_ok Period_parse Period_strftime
    state_df Qt last_row :
  last (rows state_df) = Some last_row -> table_shape Qt 27 3 ->
  exists pred a,
    _predict_next_month_direction Period_parse Period_strftime state_df Qt
    = Ok pred
    /\ (row ← np_index Qt (encode_state (PyInt (direction last_row))
                             (PyInt (rate_level last_row))
                             (PyInt (pop_trend last_row)));
        np_argmax row) = Ok a
    /\ 0 <= a < 3
    /\ pr_last_ym pred = ym last_row
    /\ pr_action_id pred = a
    /\ np_index ["하락"; "보합"; "상승"] a = Ok (pr_direction_label pred)
    /\ pr_next_ym pred
       = match Period_parse (ym last_row) with
         | Some (Period.Month p) => Period_strftime (p + 1)
         | _ => "다음 달"
         end.
Proof.
  intros Hlast Hshape.
  pose proof (encode_state_range (PyInt (direction last_row))
                (PyInt (rate_level last_row)) (PyInt (pop_trend last_row)))
    as Hs.
  destruct (table_row_ok Qt 27 3
              (encode_state (PyInt (direction last_row))
                 (PyInt (rate_level last_row)) (PyInt (pop_trend last_row)))
              Hshape) as (row & _ & Hrow & Hlen); [lia|].
  destruct (np_argmax_ok row) as (a & Ha & Hrange); [lia|].
  destruct (np_index_ok ["하락"; "보합"; "상승"] a) as (l & _ & Hl).
  { cbn [length]. lia. }
  eexists _, a. unfold _predict_next_month_direction. rewrite Hlast, Hrow.
  cbn [mbind result_bind]. rewrite Ha. cbn [mbind result_bind].
  rewrite Hl. cbn [mbind result_bind].
  split; [reflexivity|]. split; [reflexivity|]. split; [lia|].
  cbn [pr_last_ym pr_action_id pr_direction_label pr_next_ym].
  split; [reflexivity|]. split; [reflexivity|]. split; [reflexivity|].
  destruct (Period_parse (ym last_row)) as [[p|]|]; reflexivity.
Qed.

(** The one-month prediction is the first step of the 12-month scenario,
    when the parser does not return the missing value on the last label:
    same action, same direction label, and, when the last period label
    parses, the same target period; otherwise the prediction names its
    target "다음 달". *)
Theorem one_step_matches_forecast Period_parse Period_strftime
    state_df Qt last_row :
  last (rows state_df) = Some last_row -> table_shape Qt 27 3 ->
  Period_parse (ym last_row) <> Some Period.NaT ->
  exists pred r1 rest,
    _predict_next_month_direction Period_parse Period_strftime state_df Qt
    = Ok pred
    /\ simulate_future_12months Period_parse Period_strftime state_df Qt
       = Ok (r1 :: rest)
    /\ pr_last_ym pred = ym last_row
    /\ pr_action_id pred = predicted_direction r1 + 1
    /\ pr_direction_label pred = predicted_direction_label r1
    /\ pr_next_ym pred
       = match Period_parse (ym last_row) with
         | Some _ => sr_ym r1
         | None => "다음 달"
         end.
Proof.
  intros Hlast Hshape Hper.
  destruct (simulate_future_12months_chain Period_parse Period_strftime
              state_df Qt last_row Hlast Hshape Hper)
    as (recs & Hrun & Hlen & Hchain & Hok & _ & Hym).
  destruct (predict_next_month_ok Period_parse Period_strftime state_df Qt
              last_row Hlast Hshape)
    as (pred & a & Hpred & Hact' & Hrange & Hlast_ym & Haid & Hlabel & Hnext).
  destruct recs as [|r1 rest]; [discriminate|].
  cbn [scenario_chain] in Hchain.
  destruct Hchain as (Hact & Hdl & _ & _ & _).
  rewrite Hact in Hact'. injection Hact' as <-.
  replace (predicted_direction r1)
    with (predicted_direction r1 + 1 - 1) in Hdl at 1 by lia.
  pose proof (label_list_matches_map _ _ Hrange Hdl) as Hlabel'.
  rewrite Hlabel in Hlabel'. injection Hlabel' as Hlabel'.
  exists pred, r1, rest.
  split; [assumption|]. split; [assumption|]. split; [assumption|].
  split; [assumption|]. split; [assumption|].
  rewrite Hnext.
  destruct (Period_parse (ym last_row)) as [[p|]|] eqn:Ep;
    [|congruence|reflexivity].
  specialize (Hym p eq_refl). cbn in Hym. now injection Hym as -> _.
Qed.

Lemma one_step_matches_forecast_witness :
  exists pred r1 rest,
    _predict_next_month_direction Period.parse_YYYY_MM
      Period.format_YYYY_MM no_down_table zero_table = Ok pred
    /\ simulate_future_12months Period.parse_YYYY_MM Period.format_YYYY_MM
         no_down_table zero_table = Ok (r1 :: rest)
    /\ pr_last_ym pred = ym (mkRow "2024-12" (Fin 105) (Fin 0.0194) 1 2 0)
    /\ pr_action_id pred = predicted_direction r1 + 1
    /\ pr_direction_label pred = predicted_direction_label r1
    /\ pr_next_ym pred
       = match Period.parse_YYYY_MM
                 (ym (mkRow "2024-12" (Fin 105) (Fin 0.0194) 1 2 0)) with
         | Some _ => sr_ym r1
         | None => "다음 달"
         end.
Proof.
  apply (one_step_matches_forecast Period.parse_YYYY_MM
           Period.format_YYYY_MM no_down_table zero_table
           (mkRow "2024-12" (Fin 105) (Fin 0.0194) 1 2 0)).
  - reflexivity.
  - apply zero_table_shape.
  - vm_compute. discriminate.
Defined.

(** When the parser returns the missing value [NaT] on the last period
    label, as the library does for an empty or "nan" label, the two
    forecasts differ: the 12-month scenario raises [ValueError] at the
    label of its first record, where the printer is outside the [try];
    the one-month prediction catches it and names its target "다음 달". *)
Theorem forecast_fails_on_missing_label Period_parse Period_strftime
    state_df Qt last_row :
  last (rows state_df) = Some last_row -> table_shape Qt 27 3 ->
  Period_parse (ym last_row) = Some Period.NaT ->
  simulate_future_12months Period_parse Period_strftime state_df Qt
  = Raise ValueError
  /\ exists pred,
       _predict_next_month_direction Period_parse Period_strftime
         state_df Qt = Ok pred
       /\ pr_next_ym pred = "다음 달".
Proof.
  intros Hlast Hshape Hper. split.
  - unfold simulate_future_12months. rewrite Hlast. cbn zeta.
    rewrite (seqZ_cons 1 12) by lia. cbn [simulate_loop].
    rewrite (simulate_step_missing Period_strftime Qt 27
               (up_mean_of state_df) (flat_mean_of state_df)
               (down_mean_of state_df) (rate_level last_row)
               (pop_trend last_row) Hshape ltac:(lia)
               {| sim_direction := direction last_row;
                  sim_price := mean_price last_row;
                  sim_period := Period_parse (ym last_row);
                  sim_records := [] |} 1 Hper).
    reflexivity.
  - destruct (predict_next_month_ok Period_parse Period_strftime state_df
                Qt last_row Hlast Hshape)
      as (pred & a & Hpred & _ & _ & _ & _ & _ & Hnext).
    exists pred. split; [assumption|]. rewrite Hnext, Hper. reflexivity.
Qed.

Lemma forecast_fails_on_missing_label_witness :
  simulate_future_12months Period.parse_YYYY_MM Period.format_YYYY_MM
    missing_label_table zero_table = Raise ValueError
  /\ exists pred,
       _predict_next_month_direction Period.parse_YYYY_MM
         Period.format_YYYY_MM missing_label_table zero_table = Ok pred
       /\ pr_next_ym pred = "다음 달".
Proof.
  apply (forecast_fails_on_missing_label Period.parse_YYYY_MM
           Period.format_YYYY_MM missing_label_table zero_table
           (mkRow "nan" (Fin 103) (Fin 0.03) 1 1 1)).
  - reflexivity.
  - apply zero_table_shape.
  - reflexivity.
Defined.

(** The one-month prediction on the table that ends in 2024-12, run. *)
Example predict_no_down :
  _predict_next_month_direction Period.parse_YYYY_MM Period.format_YYYY_MM
    no_down_table zero_table
  = Ok {| pr_last_ym := "2024-12"; pr_next_ym := "2025-01";
          pr_action_id := 0; pr_direction_label := "하락" |}.
Proof. vm_compute. reflexivity. Qed.

(** On a table without rows the two forecasts differ: the 12-month
    scenario returns an empty result, the one-month prediction raises
    [IndexError]. *)
Theorem forecasts_on_empty_table Period_parse Period_strftime
    state_df Qt :
  rows state_df = [] ->
  simulate_future_12months Period_parse Period_strftime state_df Qt = Ok []
  /\ _predict_next_month_direction Period_parse Period_strftime state_df Qt
     = Raise IndexError.
Proof.
  intros Hrows. unfold simulate_future_12months,
    _predict_next_month_direction. rewrite Hrows. split; reflexivity.
Qed.

Lemma forecasts_on_empty_table_witness :
  simulate_future_12months Period.parse_YYYY_MM Period.format_YYYY_MM
    empty_table zero_table = Ok []
  /\ _predict_next_month_direction Period.parse_YYYY_MM
       Period.format_YYYY_MM empty_table zero_table = Raise IndexError.
Proof.
  apply (forecasts_on_empty_table Period.parse_YYYY_MM
           Period.format_YYYY_MM empty_table zero_table).
  reflexivity.
Defined.

Lemma count_rewards_cons pred h history :
  count_rewards pred (h :: history)
  = (if pred (si_reward h) then 1 else 0) + count_rewards pred history.
Proof.
  unfold count_rewards. rewrite filter_cons.
  destruct (decide (pred (si_reward h) = true)) as [E|E].
  - rewrite E. cbn [length]. lia.
  - destruct (pred (si_reward h)); [congruence|]. lia.
Qed.

Lemma count_rewards_nonneg pred history : 0 <= count_rewards pred history.
Proof. unfold count_rewards. lia. Qed.

(** Counting a history whose rewards are all +1 or -1. *)
Lemma count_rewards_plus_minus history :
  Forall (fun h => si_reward h = 1%Q \/ si_reward h = (-1)%Q) history ->
  count_rewards (fun r => Qlt_bool 0 r) history
  + count_rewards (fun r => Qlt_bool r 0) history
  = Z.of_nat (length history)
  /\ (sum_rewards history
      == inject_Z (count_rewards (fun r => Qlt_bool 0 r) history)
         - inject_Z (count_rewards (fun r => Qlt_bool r 0) history))%Q.
Proof.
  induction 1 as [|h history Hh _ [IH1 IH2]].
  - split; [reflexivity|]. unfold sum_rewards, count_rewards. cbn. lra.
  - rewrite !count_rewards_cons.
    assert (Hsum : (sum_rewards (h :: history)
                    == si_reward h + sum_rewards history)%Q)
      by (unfold sum_rewards; cbn; lra).
    rewrite Hsum, IH2. rewrite !inject_Z_plus.
    destruct Hh as [-> | ->].
    + change (Qlt_bool 0 1) with true. change (Qlt_bool 1 0) with false.
      cbn iota. change (inject_Z 1) with 1%Q. change (inject_Z 0) with 0%Q.
      split; [cbn [length]; lia | lra].
    + change (Qlt_bool 0 (-1)) with false.
      change (Qlt_bool (-1) 0) with true.
      cbn iota. change (inject_Z 1) with 1%Q. change (inject_Z 0) with 0%Q.
      split; [cbn [length]; lia | lra].
Qed.

Lemma greedy_entries_plus_minus d Qt history :
  (forall (j : nat) h,
     history !! j = Some h -> greedy_entry d Qt (Z.of_nat j) h) ->
  Forall (fun h => si_reward h = 1%Q \/ si_reward h = (-1)%Q) history.
Proof.
  intros Hent. apply Forall_lookup. intros j h Hj.
  destruct (Hent j h Hj) as (_ & rn & _ & _ & _ & _ & _ & _ & _ & ->).
  destruct (_ =? _); auto.
Qed.

Lemma last_of_long_table d :
  1 <= df_len d -> exists last_row, last (rows d) = Some last_row.
Proof.
  unfold df_len. destruct (rows d) as [|r l] eqn:E using rev_ind.
  - cbn. lia.
  - intros _. exists r. apply last_snoc.
Qed.

Lemma accuracy_range c s :
  0 <= c <= s -> 0 < s ->
  (0 <= inject_Z c / inject_Z s)%Q /\ (inject_Z c / inject_Z s <= 1)%Q.
Proof.
  intros Hc Hs.
  assert (H0 : (0 < inject_Z s)%Q).
  { change 0%Q with (inject_Z 0). now rewrite <- Zlt_Qlt. }
  split.
  - apply Qle_shift_div_l; [assumption|].
    rewrite Qmult_0_l. change 0%Q with (inject_Z 0). rewrite <- Zle_Qle. lia.
  - apply Qle_shift_div_r; [assumption|].
    rewrite Qmult_1_l. rewrite <- Zle_Qle. lia.
Qed.

(** The metrics of [train_rl_for_state_df] on a table of [n >= 2] rows,
    for every learning rate, discount and sequence of draws and every
    schedule whose float power [epsilon_decay ** ep] stays finite over
    the episodes: the evaluation takes [min(100, n-1)] steps, each step
    is counted as correct or wrong, the total reward is correct minus
    wrong, the accuracy is correct over steps and lies between 0 and 1,
    and there is one training reward per episode. *)
Theorem train_rl_metrics Period_parse Period_strftime (fuel : nat)
    state_df episodes alpha gamma epsilon_start epsilon_end epsilon_decay g :
  2 <= df_len state_df -> df_len state_df - 1 <= Z.of_nat fuel ->
  schedule_finite epsilon_decay episodes ->
  exists Qt rewards m history,
    train_rl_for_state_df Period_parse Period_strftime fuel state_df
      episodes alpha gamma epsilon_start epsilon_end epsilon_decay g
    = Ok (Some (Qt, rewards, m, history))
    /\ table_shape Qt 27 3
    /\ Z.of_nat (length rewards) = Z.max 0 episodes
    /\ m_steps m = Z.min 100 (df_len state_df - 1)
    /\ Z.of_nat (length history) = m_steps m
    /\ 0 <= m_correct m /\ 0 <= m_wrong m
    /\ m_correct m + m_wrong m = m_steps m
    /\ (m_total_reward m == inject_Z (m_correct m) - inject_Z (m_wrong m))%Q
    /\ (m_accuracy m == inject_Z (m_correct m) / inject_Z (m_steps m))%Q
    /\ (0 <= m_accuracy m)%Q /\ (m_accuracy m <= 1)%Q.
Proof.
  intros Hn Hfuel Hsched.
  destruct (train_q_learning_walk state_df 27 3 alpha gamma epsilon_start
              epsilon_end epsilon_decay Hn ltac:(lia) ltac:(lia) fuel
              (init state_df) episodes g (reach_init state_df) Hfuel Hsched)
    as (tr & Htrain & (Hinv & Hshape & _ & _) & Hlen & _).
  destruct (run_greedy_policy_trace_inv state_df (tr_env tr) (tr_Q tr) 100
              Hinv Hn Hshape)
    as (total & history & e' & Hrun & Hhlen & _ & Hent & Htot).
  destruct (last_of_long_table state_df ltac:(lia)) as (last_row & Hlast).
  destruct (predict_next_month_ok Period_parse Period_strftime state_df
              (tr_Q tr) last_row Hlast Hshape) as (pred & _ & Hpred & _).
  destruct (count_rewards_plus_minus history
              (greedy_entries_plus_minus _ _ _ Hent)) as (Hcount & Hsum).
  set (correct := count_rewards (fun r => Qlt_bool 0 r) history) in *.
  set (wrong := count_rewards (fun r => Qlt_bool r 0) history) in *.
  assert (Hsteps : rollout_steps (df_len state_df) 100
                   = Z.min 100 (df_len state_df - 1)) by reflexivity.
  assert (Hpos : 0 < correct + wrong).
  { rewrite Hcount, Hhlen, Hsteps. lia. }
  pose proof (count_rewards_nonneg (fun r => Qlt_bool 0 r) history) as Hc0.
  pose proof (count_rewards_nonneg (fun r => Qlt_bool r 0) history) as Hw0.
  fold correct in Hc0. fold wrong in Hw0.
  eexists (tr_Q tr), (tr_episode_rewards tr), _, history. split.
  { unfold train_rl_for_state_df. cbn zeta. rewrite Htrain.
    cbn [mbind result_bind]. rewrite Hrun. cbn [mbind result_bind].
    rewrite Hpred. cbn [mbind result_bind].
    fold correct wrong.
    destruct (Z.ltb_spec 0 (correct + wrong)); [|lia]. reflexivity. }
  cbn [m_steps m_correct m_wrong m_total_reward m_accuracy].
  split; [assumption|]. split; [assumption|].
  split; [assumption|]. split; [lia|].
  split; [assumption|]. split; [assumption|].
  split; [lia|].
  split; [rewrite Htot; exact Hsum|].
  assert (Hcw : correct + wrong = rollout_steps (df_len state_df) 100)
    by lia.
  rewrite Hcw.
  split; [reflexivity|].
  apply accuracy_range; lia.
Qed.

Lemma train_rl_metrics_witness :
  exists Qt rewards m history,
    train_rl_for_state_df Period.parse_YYYY_MM Period.format_YYYY_MM 2
      flat_up_down 3 0.125 0.875 1 0.0625 0.5 sample_rng
    = Ok (Some (Qt, rewards, m, history))
    /\ table_shape Qt 27 3
    /\ Z.of_nat (length rewards) = Z.max 0 3
    /\ m_steps m = Z.min 100 (df_len flat_up_down - 1)
    /\ Z.of_nat (length history) = m_steps m
    /\ 0 <= m_correct m /\ 0 <= m_wrong m
    /\ m_correct m + m_wrong m = m_steps m
    /\ (m_total_reward m == inject_Z (m_correct m) - inject_Z (m_wrong m))%Q
    /\ (m_accuracy m == inject_Z (m_correct m) / inject_Z (m_steps m))%Q
    /\ (0 <= m_accuracy m)%Q /\ (m_accuracy m <= 1)%Q.
Proof.
  apply (train_rl_metrics Period.parse_YYYY_MM Period.format_YYYY_MM 2%nat
           flat_up_down 3 0.125%Q 0.875%Q 1%Q 0.0625%Q 0.5%Q sample_rng).
  - vm_compute. discriminate.
  - vm_compute. discriminate.
  - apply schedule_finite_decay; vm_compute; discriminate.
Defined.

(** The wrapper on the three-row example, run: after three episodes the
    greedy policy gets both months right. *)
Example train_rl_flat_up_down :
  (fun r => match r with
            | Some (_, _, m, _) =>
                (m_steps m, m_correct m, m_wrong m, m_future_next_ym m)
            | None => (0, 0, 0, "")
            end) <$>
    train_rl_for_state_df Period.parse_YYYY_MM Period.format_YYYY_MM 2
      flat_up_down 3 (round64 0.1) (round64 0.9) 1 (round64 0.05)
      (round64 0.98) sample_rng
  = Ok (2, 2, 0, "2024-04").
Proof. vm_compute. reflexivity. Qed.

End ApiExtra.

(** * Properties of the feature pipeline *)

Module PipelineExtra.

Import StateEncoder Environment Numpy Preprocess MacroFeatures Vocabulary.
Import Binary64 Binary64Facts.
Import StateEncoderFacts EnvironmentFacts QLearningFacts.
Local Open Scope Z_scope.

Lemma Qle_bool_false a b : Qle_bool a b = false <-> (b < a)%Q.
Proof.
  split.
  - intros H. apply Qnot_le_lt. intros Hle.
    apply Qle_bool_iff in Hle. congruence.
  - intros H. destruct (Qle_bool a b) eqn:E; [|reflexivity].
    apply Qle_bool_iff in E. exfalso. exact (Qlt_not_le _ _ H E).
Qed.

Lemma dir_from_pct_valid threshold p :
  valid_direction (_dir_from_pct threshold p).
Proof.
  unfold valid_direction, _dir_from_pct.
  destruct p as [q| | |]; try lia.
  destruct (Qle_bool q (- threshold)); [lia|].
  destruct (Qle_bool threshold q); lia.
Qed.

Lemma dir_from_pct_cases threshold q :
  (_dir_from_pct threshold (XFin q) = -1 <-> (q <= - threshold)%Q)
  /\ (_dir_from_pct threshold (XFin q) = 1
      <-> (- threshold < q)%Q /\ (threshold <= q)%Q)
  /\ (_dir_from_pct threshold (XFin q) = 0
      <-> (- threshold < q)%Q /\ (q < threshold)%Q).
Proof.
  cbn [_dir_from_pct].
  destruct (Qle_bool q (- threshold)) eqn:E1;
    [apply Qle_bool_iff in E1 | apply Qle_bool_false in E1];
    (destruct (Qle_bool threshold q) eqn:E2;
     [apply Qle_bool_iff in E2 | apply Qle_bool_false in E2]);
    repeat split; intros; try lia; try lra; try (exfalso; lra).
Qed.

(** With a positive threshold the direction of a finite change [q] is
    down exactly when [q <= -threshold], up exactly when
    [q >= threshold] and flat strictly in between, and the rule is
    symmetric: the opposite change gets the opposite direction. *)
Theorem dir_from_pct_threshold threshold q :
  (0 < threshold)%Q ->
  (_dir_from_pct threshold (XFin q) = -1 <-> (q <= - threshold)%Q)
  /\ (_dir_from_pct threshold (XFin q) = 1 <-> (threshold <= q)%Q)
  /\ (_dir_from_pct threshold (XFin q) = 0
      <-> (- threshold < q)%Q /\ (q < threshold)%Q)
  /\ _dir_from_pct threshold (XFin (- q))
     = - _dir_from_pct threshold (XFin q).
Proof.
  intros Hthr.
  destruct (dir_from_pct_cases threshold q) as (Hdown & Hup & Hflat).
  destruct (dir_from_pct_cases threshold (- q)) as (Hdown' & Hup' & Hflat').
  split; [exact Hdown|].
  split; [rewrite Hup; split; [intros [_ H]; exact H | intros H; split; lra]|].
  split; [exact Hflat|].
  pose proof (dir_from_pct_valid threshold (XFin q)) as Hv.
  unfold valid_direction in Hv.
  destruct Hv as [E | [E | E]]; rewrite E.
  - apply Hup'. apply Hdown in E. split; lra.
  - apply Hflat'. apply Hflat in E. split; lra.
  - apply Hdown'. apply Hup in E. lra.
Qed.

Lemma dir_from_pct_threshold_witness :
  (_dir_from_pct 0.01 (XFin 0.02) = -1 <-> (0.02 <= - 0.01)%Q)
  /\ (_dir_from_pct 0.01 (XFin 0.02) = 1 <-> (0.01 <= 0.02)%Q)
  /\ (_dir_from_pct 0.01 (XFin 0.02) = 0
      <-> (- 0.01 < 0.02)%Q /\ (0.02 < 0.01)%Q)
  /\ _dir_from_pct 0.01 (XFin (- 0.02))
     = - _dir_from_pct 0.01 (XFin 0.02).
Proof. apply (dir_from_pct_threshold 0.01%Q 0.02%Q). reflexivity. Defined.

Lemma rate_level_valid r : valid_rate_level (_rate_level r).
Proof.
  unfold valid_rate_level, _rate_level. destruct r as [r|]; [|lia].
  destruct (Qlt_bool r 3.0); [lia|]. destruct (Qlt_bool r 3.5); lia.
Qed.

Lemma pop_trend_valid dlt : valid_pop_trend (_pop_trend dlt).
Proof.
  unfold valid_pop_trend, _pop_trend. destruct dlt as [x|]; [|lia].
  destruct (Qeq_bool x 0); [lia|]. destruct (Qlt_bool 0 x); lia.
Qed.

(** What the pipeline computes needs no coercion: for every change,
    threshold, rate and population difference, missing ones included, the
    three values lie in the domains of the table, the encoder's fallback
    and clamping branches are not taken, and [step] derives from the
    direction the same action id as the encoder. *)
Theorem pipeline_values_need_no_coercion threshold p r dlt :
  valid_direction (_dir_from_pct threshold p)
  /\ valid_rate_level (_rate_level r)
  /\ valid_pop_trend (_pop_trend dlt)
  /\ encode_state (PyInt (_dir_from_pct threshold p))
       (PyInt (_rate_level r)) (PyInt (_pop_trend dlt))
     = (_dir_from_pct threshold p + 1) * 9 + _rate_level r * 3
       + (_pop_trend dlt + 1)
  /\ true_action_id (_dir_from_pct threshold p)
     = encode_direction (PyInt (_dir_from_pct threshold p)).
Proof.
  pose proof (dir_from_pct_valid threshold p) as Hd.
  pose proof (rate_level_valid r) as Hr.
  pose proof (pop_trend_valid dlt) as Hp.
  repeat (split; [assumption|]).
  split; [|apply true_action_id_valid; assumption].
  unfold encode_state.
  rewrite encode_direction_int, encode_rate_level_int, encode_pop_trend_int.
  destruct (decide (valid_direction _)); [|contradiction].
  destruct (decide (valid_pop_trend _)); [|contradiction].
  unfold valid_rate_level in Hr. lia.
Qed.

(** The cut points of the rate level: below 3.0 it is 0, from 3.0 to
    below 3.5 it is 1, from 3.5 on it is 2; a missing rate gives 1; and
    the level never decreases when the rate rises. *)
Theorem rate_level_cut_points r r' :
  (r <= r')%Q ->
  (_rate_level (Fin r) = 0 <-> (r < 3)%Q)
  /\ (_rate_level (Fin r) = 1 <-> (3 <= r)%Q /\ (r < 3.5)%Q)
  /\ (_rate_level (Fin r) = 2 <-> (3.5 <= r)%Q)
  /\ _rate_level NaN = 1
  /\ _rate_level (Fin r) <= _rate_level (Fin r').
Proof.
  intros Hrr. cbn [_rate_level].
  destruct (Qlt_bool r 3.0) eqn:E1; destruct (Qlt_bool r 3.5) eqn:E2;
    destruct (Qlt_bool r' 3.0) eqn:E3; destruct (Qlt_bool r' 3.5) eqn:E4;
    try apply Qlt_bool_true in E1; try apply Qlt_bool_false in E1;
    try apply Qlt_bool_true in E2; try apply Qlt_bool_false in E2;
    try apply Qlt_bool_true in E3; try apply Qlt_bool_false in E3;
    try apply Qlt_bool_true in E4; try apply Qlt_bool_false in E4;
    try (exfalso; lra);
    repeat split; intros; try lia; try lra; try reflexivity;
    try (exfalso; lra).
Qed.

Lemma rate_level_cut_points_witness :
  (_rate_level (Fin 3.25) = 0 <-> (3.25 < 3)%Q)
  /\ (_rate_level (Fin 3.25) = 1 <-> (3 <= 3.25)%Q /\ (3.25 < 3.5)%Q)
  /\ (_rate_level (Fin 3.25) = 2 <-> (3.5 <= 3.25)%Q)
  /\ _rate_level NaN = 1
  /\ _rate_level (Fin 3.25) <= _rate_level (Fin 3.5).
Proof.
  apply (rate_level_cut_points 3.25%Q 3.5%Q). vm_compute. discriminate.
Defined.

Lemma pct_change_from_length prices : forall prev,
  length (pct_change_from prev prices) = length prices.
Proof.
  induction prices as [|x prices IH]; intros prev; cbn; [reflexivity|].
  now rewrite IH.
Qed.

Lemma pct_change_from_next prices : forall prev (i : nat) p x,
  prices !! i = Some p -> prices !! S i = Some x ->
  pct_change_from prev prices !! S i = Some (pct_of p x).
Proof.
  induction prices as [|y prices IH]; intros prev i p x Hi Hs;
    [discriminate|].
  destruct i as [|i].
  - cbn in Hi. injection Hi as ->.
    destruct prices as [|z prices]; [discriminate|].
    cbn in Hs. injection Hs as ->. reflexivity.
  - change ((y :: prices) !! S (S i)) with (prices !! S i) in Hs.
    change ((y :: prices) !! S i) with (prices !! i) in Hi.
    cbn [pct_change_from].
    change ((?a :: pct_change_from (Some y) prices) !! S (S i))
      with (pct_change_from (Some y) prices !! S i).
    now apply IH.
Qed.

Lemma np_float_cases v :
  (np_float v = XFin (round64 v) /\ (Qabs (round64 v) < 2 ^ 1024)%Q)
  \/ (np_float v = XPosInf /\ (2 ^ 1024 <= round64 v)%Q)
  \/ (np_float v = XNegInf /\ (round64 v <= - 2 ^ 1024)%Q).
Proof.
  unfold np_float. cbv zeta.
  pose proof (pow2_pos 1024) as Hpos.
  destruct (Qle_bool (2 ^ 1024) (Qabs (round64 v))) eqn:E;
    [apply Qle_bool_iff in E | apply Qle_bool_false in E].
  - destruct (Qle_bool 0 (round64 v)) eqn:E0;
      [apply Qle_bool_iff in E0 | apply Qle_bool_false in E0].
    + right. left. split; [reflexivity|]. now rewrite Qabs_pos in E.
    + right. right. split; [reflexivity|].
      rewrite Qabs_neg in E by lra. lra.
  - left. split; [reflexivity | exact E].
Qed.

Lemma np_float_finite v X :
  (- X <= round64 v <= X)%Q -> (X < 2 ^ 1024)%Q ->
  np_float v = XFin (round64 v).
Proof.
  intros Hv HX.
  destruct (np_float_cases v) as [[E _] | [[_ H] | [_ H]]];
    [exact E | exfalso; lra | exfalso; lra].
Qed.

Lemma pct_of_positive prev x :
  (0 < prev)%Q ->
  pct_of prev x = match np_float (x / prev) with
                  | XFin r => np_float (r - 1)
                  | inf => inf
                  end.
Proof.
  intros Hp. unfold pct_of.
  destruct (Qeq_bool prev 0) eqn:E; [|reflexivity].
  apply Qeq_bool_iff in E. lra.
Qed.

Lemma ratio_bounds prev x a b :
  (0 < prev)%Q -> (a * prev <= x)%Q -> (x <= b * prev)%Q ->
  (a <= x / prev <= b)%Q.
Proof.
  intros Hp Ha Hb. split.
  - apply Qle_shift_div_l; assumption.
  - apply Qle_shift_div_r; assumption.
Qed.

(** A rounded result that is not negative is never labelled down, and
    one that is not positive is never labelled up. *)
Lemma dir_np_float_nonneg threshold v :
  (0 < threshold)%Q -> (0 <= v)%Q -> 0 <= _dir_from_pct threshold (np_float v).
Proof.
  intros Ht Hv.
  assert (H0 : (0 <= round64 v)%Q)
    by (rewrite <- round64_0; apply round64_mono, Hv).
  pose proof (pow2_pos 1024) as Hpos.
  destruct (np_float_cases v) as [[E _] | [[E _] | [E H]]]; rewrite E.
  - cbn [_dir_from_pct].
    destruct (Qle_bool (round64 v) (- threshold)) eqn:E1;
      [apply Qle_bool_iff in E1; exfalso; lra|].
    destruct (Qle_bool threshold (round64 v)); lia.
  - cbn. lia.
  - exfalso. lra.
Qed.

Lemma dir_np_float_nonpos threshold v :
  (0 < threshold)%Q -> (v <= 0)%Q -> _dir_from_pct threshold (np_float v) <= 0.
Proof.
  intros Ht Hv.
  assert (H0 : (round64 v <= 0)%Q)
    by (rewrite <- round64_0; apply round64_mono, Hv).
  pose proof (pow2_pos 1024) as Hpos.
  destruct (np_float_cases v) as [[E _] | [[E H] | [E _]]]; rewrite E.
  - cbn [_dir_from_pct].
    destruct (Qle_bool (round64 v) (- threshold)) eqn:E1; [lia|].
    destruct (Qle_bool threshold (round64 v)) eqn:E2; [|lia].
    apply Qle_bool_iff in E2. exfalso. lra.
  - exfalso. lra.
  - cbn. lia.
Qed.

(** The rounded change of a price that at most tripled: it is finite and
    within [2 ^ -50] of the exact change. *)
Lemma pct_of_near prev x :
  (0 < prev)%Q -> (0 <= x)%Q -> (x <= 3 * prev)%Q ->
  exists v, pct_of prev x = XFin v
    /\ (- (1 # 1125899906842624) <= v - (x / prev - 1)
        <= 1 # 1125899906842624)%Q.
Proof.
  intros Hp Hx0 Hx3.
  destruct (ratio_bounds prev x 0 3 Hp) as [Hr0 Hr3]; [lra | exact Hx3 |].
  set (rho := (x / prev)%Q) in *.
  destruct eta64_small as [He0 He].
  assert (Hu : (u64 == 1 # 9007199254740992)%Q) by reflexivity.
  assert (Hbig : (4 < 2 ^ 1024)%Q).
  { change 4%Q with (2 ^ 2)%Q. apply pow2_lt. lia. }
  pose proof (round64_near rho 3) as Hn1.
  destruct Hn1 as [Hn1 Hn1']; [lra|].
  set (r := round64 rho) in *.
  pose proof (round64_near (r - 1) 3) as Hn2.
  destruct Hn2 as [Hn2 Hn2']; [lra|].
  rewrite (pct_of_positive prev x Hp). fold rho.
  rewrite (np_float_finite rho 4) by (fold r; lra).
  fold r. rewrite (np_float_finite (r - 1) 4) by lra.
  eexists. split; [reflexivity|]. lra.
Qed.

(** [add_price_direction] keeps the panel as it is, row for row, and only
    adds to it: the first row gets a NaN change and the direction flat,
    and every direction is one of -1, 0, 1. *)
Theorem add_price_direction_frame monthly threshold :
  length (add_price_direction monthly threshold) = length monthly
  /\ (fun r => (pr_ym r, pr_mean_price r))
       <$> add_price_direction monthly threshold = monthly
  /\ Forall (fun r => valid_direction (pr_direction r)
                      /\ pr_direction r
                         = _dir_from_pct threshold (pr_pct_change r))
       (add_price_direction monthly threshold)
  /\ (forall r, add_price_direction monthly threshold !! 0%nat = Some r ->
                pr_pct_change r = XNaN /\ pr_direction r = 0).
Proof.
  unfold add_price_direction, pct_change_series.
  assert (Hlen : length (pct_change_from None (snd <$> monthly))
                 = length monthly)
    by now rewrite pct_change_from_length, length_fmap.
  split; [rewrite length_zip_with; lia|].
  split.
  { apply list_eq. intros i. rewrite list_lookup_fmap, lookup_zip_with.
    destruct (monthly !! i) as [[y x]|] eqn:Hi; [|reflexivity].
    cbn [mbind option_bind].
    destruct (pct_change_from None (snd <$> monthly) !! i) as [p|] eqn:Hp.
    - reflexivity.
    - apply lookup_ge_None in Hp. apply lookup_lt_Some in Hi. lia. }
  split.
  { apply Forall_lookup. intros i r. rewrite lookup_zip_with.
    destruct (monthly !! i) as [[y x]|]; [|discriminate].
    cbn [mbind option_bind].
    destruct (pct_change_from None (snd <$> monthly) !! i) as [p|];
      [|discriminate].
    intros [= <-]. cbn. split; [apply dir_from_pct_valid | reflexivity]. }
  intros r. rewrite lookup_zip_with.
  destruct monthly as [|[y x] monthly]; [discriminate|].
  cbn. intros [= <-]. split; reflexivity.
Qed.

(** Between two consecutive months with a positive earlier price the
    change is [x / prev - 1] with the division and the subtraction
    rounded to binary64.  With a positive threshold the direction agrees
    with the order of the two prices: equal prices are flat, a price that
    did not fall is never labelled down and a price that did not rise is
    never labelled up.  When the price at most tripled, the change is
    finite and within [2 ^ -50] of the exact one, and the later month is
    up, down or flat by the exact rule whenever the exact change stays
    [2 ^ -50] away from the two thresholds. *)
Theorem add_price_direction_rows monthly threshold (i : nat) ym1 prev ym2 x :
  monthly !! i = Some (ym1, prev) -> monthly !! S i = Some (ym2, x) ->
  (0 < prev)%Q -> (0 < threshold)%Q ->
  exists r,
    add_price_direction monthly threshold !! S i = Some r
    /\ pr_ym r = ym2 /\ pr_mean_price r = x
    /\ pr_pct_change r = pct_of prev x
    /\ ((x == prev)%Q -> pr_direction r = 0)
    /\ ((prev <= x)%Q -> 0 <= pr_direction r)
    /\ ((x <= prev)%Q -> pr_direction r <= 0)
    /\ ((0 <= x)%Q -> (x <= 3 * prev)%Q ->
        exists v,
          pr_pct_change r = XFin v
          /\ (Qabs (v - (x / prev - 1)) <= 1 # 1125899906842624)%Q
          /\ ((threshold + (1 # 1125899906842624) <= x / prev - 1)%Q ->
              pr_direction r = 1)
          /\ ((x / prev - 1 <= - threshold - (1 # 1125899906842624))%Q ->
              pr_direction r = -1)
          /\ ((- threshold + (1 # 1125899906842624) < x / prev - 1)%Q ->
              (x / prev - 1 < threshold - (1 # 1125899906842624))%Q ->
              pr_direction r = 0)).
Proof.
  intros Hi Hs Hprev Hthr.
  assert (Hpct : pct_change_from None (snd <$> monthly) !! S i
                 = Some (pct_of prev x)).
  { apply (pct_change_from_next _ None i prev x).
    - now rewrite list_lookup_fmap, Hi.
    - now rewrite list_lookup_fmap, Hs. }
  eexists. split.
  { unfold add_price_direction, pct_change_series.
    rewrite lookup_zip_with, Hs. cbn [mbind option_bind].
    rewrite Hpct. reflexivity. }
  cbn [pr_ym pr_mean_price pr_pct_change pr_direction fst snd].
  split; [reflexivity|]. split; [reflexivity|]. split; [reflexivity|].
  pose proof (pow2_pos 1024) as Hpos.
  assert (H1 : (round64 1 == 1)%Q) by exact (float64_integer 1 ltac:(lia)).
  split; [|split; [|split]].
  - intros E.
    assert (Er : (x / prev == 1)%Q) by (rewrite E; field; lra).
    assert (Hbig : (4 < 2 ^ 1024)%Q).
    { change 4%Q with (2 ^ 2)%Q. apply pow2_lt. lia. }
    assert (Eq1 : (round64 (x / prev) == 1)%Q) by (rewrite Er; exact H1).
    assert (Eq0 : (round64 (round64 (x / prev) - 1) == 0)%Q).
    { assert (E0 : (1 - 1 == 0)%Q) by ring.
      rewrite Eq1, E0. exact round64_0. }
    rewrite (pct_of_positive prev x Hprev).
    rewrite (np_float_finite (x / prev) 4) by lra.
    rewrite (np_float_finite (round64 (x / prev) - 1) 4) by lra.
    apply dir_from_pct_cases. lra.
  - intros Hle.
    assert (Hr : (1 <= x / prev)%Q)
      by (apply Qle_shift_div_l; [exact Hprev | lra]).
    assert (Hr1 : (1 <= round64 (x / prev))%Q)
      by (rewrite <- H1; apply round64_mono, Hr).
    rewrite (pct_of_positive prev x Hprev).
    destruct (np_float_cases (x / prev)) as [[E _] | [[E _] | [E H]]];
      rewrite E.
    + apply dir_np_float_nonneg; [exact Hthr | lra].
    + cbn. lia.
    + exfalso. lra.
  - intros Hle.
    assert (Hr : (x / prev <= 1)%Q)
      by (apply Qle_shift_div_r; [exact Hprev | lra]).
    assert (Hr1 : (round64 (x / prev) <= 1)%Q)
      by (rewrite <- H1; apply round64_mono, Hr).
    rewrite (pct_of_positive prev x Hprev).
    destruct (np_float_cases (x / prev)) as [[E _] | [[E H] | [E _]]];
      rewrite E.
    + apply dir_np_float_nonpos; [exact Hthr | lra].
    + exfalso. lra.
    + cbn. lia.
  - intros Hx0 Hx3.
    destruct (pct_of_near prev x Hprev Hx0 Hx3) as (v & Ev & Hv).
    exists v. split; [exact Ev|].
    split; [apply Qabs_Qle_condition; exact Hv|].
    rewrite Ev.
    destruct (dir_from_pct_cases threshold v) as (Hdown & Hup & Hflat).
    split; [intros H; apply Hup; lra|].
    split; [intros H; apply Hdown; lra|].
    intros Ha Hb. apply Hflat. lra.
Qed.

Lemma add_price_direction_rows_witness :
  exists r,
    add_price_direction [("2024-01"%string, 100%Q); ("2024-02"%string, 102%Q)]
      0.01 !! 1%nat = Some r
    /\ pr_ym r = "2024-02"%string /\ pr_mean_price r = 102%Q
    /\ pr_pct_change r = pct_of 100 102
    /\ ((102 == 100)%Q -> pr_direction r = 0)
    /\ ((100 <= 102)%Q -> 0 <= pr_direction r)
    /\ ((102 <= 100)%Q -> pr_direction r <= 0)
    /\ ((0 <= 102)%Q -> (102 <= 3 * 100)%Q ->
        exists v,
          pr_pct_change r = XFin v
          /\ (Qabs (v - (102 / 100 - 1)) <= 1 # 1125899906842624)%Q
          /\ ((0.01 + (1 # 1125899906842624) <= 102 / 100 - 1)%Q ->
              pr_direction r = 1)
          /\ ((102 / 100 - 1 <= - 0.01 - (1 # 1125899906842624))%Q ->
              pr_direction r = -1)
          /\ ((- 0.01 + (1 # 1125899906842624) < 102 / 100 - 1)%Q ->
              (102 / 100 - 1 < 0.01 - (1 # 1125899906842624))%Q ->
              pr_direction r = 0)).
Proof.
  apply (add_price_direction_rows
           [("2024-01"%string, 100%Q); ("2024-02"%string, 102%Q)]
           0.01%Q 0%nat "2024-01"%string 100%Q "2024-02"%string 102%Q);
    reflexivity.
Defined.

(** Two prices a rounding error away from the threshold: the later one is
    below [(1 + threshold) * prev], yet the rounded change reaches the
    threshold and the month is labelled up. *)
Example price_direction_at_the_threshold :
  let threshold := round64 0.01 in
  let prev := 100000000000001%Q in
  let x := 101000000000001%Q in
  pr_direction
    <$> add_price_direction
          [("2024-01"%string, prev); ("2024-02"%string, x)] threshold
  = [0; 1]
  /\ (exists v, pct_of prev x = XFin v
                /\ (v == 45035996273705 # 4503599627370496)%Q
                /\ (threshold <= v)%Q)
  /\ (x < (1 + threshold) * prev)%Q.
Proof.
  split; [vm_compute; reflexivity|].
  split; [|reflexivity].
  eexists. split; [vm_compute; reflexivity|].
  split; [reflexivity | vm_compute; discriminate].
Qed.

Lemma diff_from_length xs : forall prev,
  length (diff_from prev xs) = length xs.
Proof.
  induction xs as [|x xs IH]; intros prev; cbn; [reflexivity|].
  now rewrite IH.
Qed.

Lemma diff_from_next xs : forall prev (i : nat) a b,
  xs !! i = Some a -> xs !! S i = Some b ->
  diff_from prev xs !! S i = Some (fsub b a).
Proof.
  induction xs as [|y xs IH]; intros prev i a b Hi Hs; [discriminate|].
  destruct i as [|i].
  - cbn in Hi. injection Hi as ->.
    destruct xs as [|z xs]; [discriminate|].
    cbn in Hs. injection Hs as ->. reflexivity.
  - change ((y :: xs) !! S (S i)) with (xs !! S i) in Hs.
    change ((y :: xs) !! S i) with (xs !! i) in Hi.
    cbn [diff_from].
    change ((?h :: diff_from (Some y) xs) !! S (S i))
      with (diff_from (Some y) xs !! S i).
    now apply IH.
Qed.

(** [add_macro_levels] carries the merged rows over unchanged and in
    order; each rate level is that of the row's rate, each population
    trend that of the row's population difference; both lie in their
    domains; and the first row, which has no month before it, has the
    trend flat. *)
Theorem add_macro_levels_frame df_macro :
  length (add_macro_levels df_macro) = length df_macro
  /\ sr_macro <$> add_macro_levels df_macro = df_macro
  /\ Forall (fun r => sr_rate_level r = _rate_level (mr_base_rate (sr_macro r))
                      /\ sr_pop_trend r = _pop_trend (sr_pop_diff r)
                      /\ valid_rate_level (sr_rate_level r)
                      /\ valid_pop_trend (sr_pop_trend r))
       (add_macro_levels df_macro)
  /\ (forall r, add_macro_levels df_macro !! 0%nat = Some r ->
                sr_pop_diff r = NaN /\ sr_pop_trend r = 0).
Proof.
  unfold add_macro_levels, diff_series.
  assert (Hlen : length (diff_from None (mr_population <$> df_macro))
                 = length df_macro)
    by now rewrite diff_from_length, length_fmap.
  split; [rewrite length_zip_with; lia|].
  split.
  { apply list_eq. intros i. rewrite list_lookup_fmap, lookup_zip_with.
    destruct (df_macro !! i) as [row|] eqn:Hi; [|reflexivity].
    cbn [mbind option_bind].
    destruct (diff_from None (mr_population <$> df_macro) !! i) eqn:Hp.
    - reflexivity.
    - apply lookup_ge_None in Hp. apply lookup_lt_Some in Hi. lia. }
  split.
  { apply Forall_lookup. intros i r. rewrite lookup_zip_with.
    destruct (df_macro !! i) as [row|]; [|discriminate].
    cbn [mbind option_bind].
    destruct (diff_from None (mr_population <$> df_macro) !! i);
      [|discriminate].
    intros [= <-]. cbn.
    split; [reflexivity|]. split; [reflexivity|].
    split; [apply rate_level_valid | apply pop_trend_valid]. }
  intros r. rewrite lookup_zip_with.
  destruct df_macro as [|row df_macro]; [discriminate|].
  cbn. intros [= <-]. split; reflexivity.
Qed.

(** The population trend of a month is the sign of the change of the
    population since the month before: up when it grew, down when it
    shrank, flat when it stayed; and flat when either figure is missing. *)
Theorem add_macro_levels_pop_trend df_macro (i : nat) r1 r2 :
  df_macro !! i = Some r1 -> df_macro !! S i = Some r2 ->
  exists r,
    add_macro_levels df_macro !! S i = Some r
    /\ sr_macro r = r2
    /\ match mr_population r1, mr_population r2 with
       | Fin a, Fin b =>
           (sr_pop_trend r = 1 <-> (a < b)%Q)
           /\ (sr_pop_trend r = -1 <-> (b < a)%Q)
           /\ (sr_pop_trend r = 0 <-> (a == b)%Q)
       | _, _ => sr_pop_trend r = 0
       end.
Proof.
  intros Hi Hs.
  assert (Hd : diff_from None (mr_population <$> df_macro) !! S i
               = Some (fsub (mr_population r2) (mr_population r1))).
  { apply diff_from_next.
    - now rewrite list_lookup_fmap, Hi.
    - now rewrite list_lookup_fmap, Hs. }
  eexists. split.
  { unfold add_macro_levels, diff_series.
    rewrite lookup_zip_with, Hs. cbn [mbind option_bind].
    rewrite Hd. reflexivity. }
  cbn [sr_macro sr_pop_trend]. split; [reflexivity|].
  destruct (mr_population r1) as [a|], (mr_population r2) as [b|];
    cbn [fsub _pop_trend]; try reflexivity.
  destruct (Qeq_bool (b - a) 0) eqn:E0.
  - apply Qeq_bool_iff in E0.
    repeat split; intros; try lia; try lra; try (exfalso; lra).
  - apply Qeq_bool_neq in E0.
    destruct (Qlt_bool 0 (b - a)) eqn:E1;
      [apply Qlt_bool_true in E1 | apply Qlt_bool_false in E1];
      repeat split; intros; try lia; try lra;
      try (exfalso; lra); try (exfalso; apply E0; lra).
Qed.

Lemma add_macro_levels_pop_trend_witness :
  exists r,
    add_macro_levels
      [ mkMacroRow (mkPriceRow "2024-01" 100 XNaN 0) (Fin 3.5) (Fin 5000);
        mkMacroRow (mkPriceRow "2024-02" 102 (XFin 0.02) 1) NaN (Fin 4990) ]
      !! 1%nat = Some r
    /\ sr_macro r
       = mkMacroRow (mkPriceRow "2024-02" 102 (XFin 0.02) 1) NaN (Fin 4990)
    /\ match mr_population
               (mkMacroRow (mkPriceRow "2024-01" 100 XNaN 0) (Fin 3.5)
                  (Fin 5000)),
             mr_population
               (mkMacroRow (mkPriceRow "2024-02" 102 (XFin 0.02) 1) NaN
                  (Fin 4990)) with
       | Fin a, Fin b =>
           (sr_pop_trend r = 1 <-> (a < b)%Q)
           /\ (sr_pop_trend r = -1 <-> (b < a)%Q)
           /\ (sr_pop_trend r = 0 <-> (a == b)%Q)
       | _, _ => sr_pop_trend r = 0
       end.
Proof.
  apply (add_macro_levels_pop_trend
           [ mkMacroRow (mkPriceRow "2024-01" 100 XNaN 0) (Fin 3.5) (Fin 5000);
             mkMacroRow (mkPriceRow "2024-02" 102 (XFin 0.02) 1) NaN
               (Fin 4990) ] 0%nat);
    reflexivity.
Defined.

(** The two steps on a two-month panel, run. *)
Example pipeline_two_months :
  (fun r => (pr_direction (mr_price (sr_macro r)), sr_rate_level r,
             sr_pop_trend r))
    <$> add_macro_levels
          (zip_with (fun p m => mkMacroRow p (fst m) (snd m))
             (add_price_direction
                [("2024-01"%string, 100%Q); ("2024-02"%string, 102%Q)] 0.01)
             [(Fin 3.5, Fin 5000); (NaN, Fin 4990)])
  = [(0, 2, 0); (1, 1, -1)].
Proof. vm_compute. reflexivity. Qed.

End PipelineExtra.
